(** * A shallow embedding of the navigation transition engine

    The development models [History] (the transition controller of
    [history/base.js]) together with its concrete subclass
    [AbstractHistory] ([history/abstract.js]): the matched-record
    diffing, the guard queue, the pending slot, the ready bookkeeping,
    the in-memory stack and the deferred delivery of enter callbacks.

    Conventions.
    - Objects compared with [===] carry an identity: [rid] for routes,
      [recid] for route records.  The identity of a route is decided by
      whoever builds it, that is by the matcher of the router, which is
      a parameter.
    - User functions (guards, hooks, callbacks) are opaque: they are
      named by a number, every invocation is recorded in the [trace] of
      the world, and what a guard does with its continuation is given
      by an oracle ([guardAct]).  Callbacks other than guards are taken
      not to throw and not to re-enter the controller.
    - A guard invokes its continuation at most once: synchronously
      ([Call]), later ([Suspend], resumed by the environment with any
      value), or never; or it throws ([Throw]).  A guard that starts a
      navigation itself before it answers is, for the controller, a
      guard that waits while the navigation is started and answers
      afterwards.
    - Closures that outlive a call are kept in closure-converted form:
      the continuation held by a waiting guard ([Kont]), a queued poll
      ([PollTask]).  The callbacks passed between the methods are
      functions on worlds.
    - [next(null)] is outside the model. *)

From Stdlib Require Import ZArith Lia Bool.
From stdpp Require Import base list strings gmap.

(** ** Values handed to continuations, thrown, or used as raw locations *)

Inductive Value :=
| VUndefined
| VBool (b : bool)
| VString (s : string)
| VError (msg : string)
| VObject (o_path o_name : option string) (o_replace : bool)
| VFunction (f : nat).

Definition GuardId := nat.
Definition Instance := nat.

(** [def.options[key]]: one guard or an array of guards. *)
Inductive HookDecl :=
| OneGuard (g : GuardId)
| GuardArray (gs : list GuardId).

Record Def := { options : string -> option HookDecl }.

Record RouteRecord := {
  recid : nat;
  beforeEnter : option GuardId;
  components : list (string * Def)
}.

Record Route := {
  rid : nat;
  path : string;
  query : list (string * string);
  hash : string;
  fullPath : string;
  matched : list RouteRecord
}.

(** What a guard does with the continuation it is given. *)
Inductive GuardAct :=
| Call (v : Value)
| Throw (e : Value)
| Suspend.

(** ** resolveQueue *)

Record Queues := {
  updated : list RouteRecord;
  activated : list RouteRecord;
  deactivated : list RouteRecord
}.

(** [current[i] !== next[i]], where an index out of range reads
    [undefined]. *)
Definition differ (a b : option RouteRecord) : bool :=
  match a, b with
  | Some x, Some y => negb (recid x =? recid y)
  | None, None => false
  | _, _ => true
  end.

(** The [for] loop of [resolveQueue]: [n] iterations are left before
    [i] reaches [max]. *)
Fixpoint resolveQueue_loop (current next : list RouteRecord) (n i : nat) : nat :=
  match n with
  | 0 => i
  | S n' =>
      if differ (current !! i) (next !! i) then i
      else resolveQueue_loop current next n' (S i)
  end.

Definition resolveQueue (current next : list RouteRecord) : Queues :=
  let max := Nat.max (length current) (length next) in
  let i := resolveQueue_loop current next max 0 in
  {| updated := take i next;
     activated := drop i next;
     deactivated := drop i current |}.

(** The longest leading run on which the two lists hold identical
    records, written after the words of the specification. *)
Fixpoint common_prefix (current next : list RouteRecord) : list RouteRecord :=
  match current, next with
  | c :: cs, n :: ns =>
      if recid c =? recid n then n :: common_prefix cs ns else []
  | _, _ => []
  end.

(** ** Observable events

    Every call that leaves the controller (a user function, the address
    backend, the console) is appended to the trace.  [EvUpdateRoute]
    records an entry into [updateRoute]. *)

Inductive Event :=
| EvHook (g : GuardId) (to from : Route)
| EvEnsureURL (push : bool)
| EvErrorCb (cb : nat) (err : Value)
| EvWarn (msg : string)
| EvConsoleError (err : Value)
| EvOnAbort (cb : nat) (err : Value)
| EvOnComplete (cb : nat) (route : Route)
| EvUpdateRoute (route : Route)
| EvListener (cb : nat) (route : Route)
| EvAfterHook (hook : nat) (route prev : Route)
| EvReadyCb (cb : nat) (arg : option Route)
| EvReadyErrorCb (cb : nat) (err : Value)
| EvEnterCb (cb : nat) (instance : Instance).

(** ** The state *)

Record Router := {
  r_match : Value -> Route -> Route;
  beforeHooks : list GuardId;
  resolveHooks : list GuardId;
  afterHooks : list (option nat);
  app : bool
}.

(** The fields of [History] followed by those of [AbstractHistory]. *)
Record History := {
  current : Route;
  pending : option Route;
  cb : option nat;
  ready : bool;
  readyCbs : list nat;
  readyErrorCbs : list nat;
  errorCbs : list nat;
  stack : list Route;
  index : Z
}.

(** A queued [() => poll(cb, match.instances, key, isValid)]: the record
    owning the instance map, and the route captured by [isValid]. *)
Record PollTask := {
  pt_cb : nat;
  pt_match : nat;
  pt_key : string;
  pt_route : Route
}.

Record World := {
  this : History;
  router : Router;
  instances : gmap (nat * string) Instance;  (* [match.instances], per record *)
  arrays : list (list PollTask);             (* the [postEnterCbs] arrays, by address *)
  ticks : list nat;                          (* [$nextTick] callbacks, by the array they read *)
  timers : list (nat * PollTask);            (* [setTimeout] callbacks, with their delay *)
  trace : list Event
}.

Definition set_current (r : Route) (h : History) : History :=
  {| current := r; pending := pending h; cb := cb h; ready := ready h;
     readyCbs := readyCbs h; readyErrorCbs := readyErrorCbs h;
     errorCbs := errorCbs h; stack := stack h; index := index h |}.

Definition set_pending (p : option Route) (h : History) : History :=
  {| current := current h; pending := p; cb := cb h; ready := ready h;
     readyCbs := readyCbs h; readyErrorCbs := readyErrorCbs h;
     errorCbs := errorCbs h; stack := stack h; index := index h |}.

Definition set_cb (c : option nat) (h : History) : History :=
  {| current := current h; pending := pending h; cb := c; ready := ready h;
     readyCbs := readyCbs h; readyErrorCbs := readyErrorCbs h;
     errorCbs := errorCbs h; stack := stack h; index := index h |}.

Definition set_ready (b : bool) (h : History) : History :=
  {| current := current h; pending := pending h; cb := cb h; ready := b;
     readyCbs := readyCbs h; readyErrorCbs := readyErrorCbs h;
     errorCbs := errorCbs h; stack := stack h; index := index h |}.

Definition set_readyCbs (l : list nat) (h : History) : History :=
  {| current := current h; pending := pending h; cb := cb h; ready := ready h;
     readyCbs := l; readyErrorCbs := readyErrorCbs h;
     errorCbs := errorCbs h; stack := stack h; index := index h |}.

Definition set_readyErrorCbs (l : list nat) (h : History) : History :=
  {| current := current h; pending := pending h; cb := cb h; ready := ready h;
     readyCbs := readyCbs h; readyErrorCbs := l;
     errorCbs := errorCbs h; stack := stack h; index := index h |}.

Definition set_errorCbs (l : list nat) (h : History) : History :=
  {| current := current h; pending := pending h; cb := cb h; ready := ready h;
     readyCbs := readyCbs h; readyErrorCbs := readyErrorCbs h;
     errorCbs := l; stack := stack h; index := index h |}.

Definition set_stack (l : list Route) (h : History) : History :=
  {| current := current h; pending := pending h; cb := cb h; ready := ready h;
     readyCbs := readyCbs h; readyErrorCbs := readyErrorCbs h;
     errorCbs := errorCbs h; stack := l; index := index h |}.

Definition set_index (i : Z) (h : History) : History :=
  {| current := current h; pending := pending h; cb := cb h; ready := ready h;
     readyCbs := readyCbs h; readyErrorCbs := readyErrorCbs h;
     errorCbs := errorCbs h; stack := stack h; index := i |}.

Definition Act := World -> World.

Definition on_this (f : History -> History) : Act := fun w =>
  {| this := f (this w); router := router w; instances := instances w;
     arrays := arrays w; ticks := ticks w; timers := timers w;
     trace := trace w |}.

Definition emits (evs : list Event) : Act := fun w =>
  {| this := this w; router := router w; instances := instances w;
     arrays := arrays w; ticks := ticks w; timers := timers w;
     trace := trace w ++ evs |}.

Definition emit (e : Event) : Act := emits [e].

Definition set_instances (m : gmap (nat * string) Instance) : Act := fun w =>
  {| this := this w; router := router w; instances := m;
     arrays := arrays w; ticks := ticks w; timers := timers w;
     trace := trace w |}.

Definition set_arrays (a : list (list PollTask)) : Act := fun w =>
  {| this := this w; router := router w; instances := instances w;
     arrays := a; ticks := ticks w; timers := timers w;
     trace := trace w |}.

Definition set_ticks (t : list nat) : Act := fun w =>
  {| this := this w; router := router w; instances := instances w;
     arrays := arrays w; ticks := t; timers := timers w;
     trace := trace w |}.

Definition set_timers (t : list (nat * PollTask)) : Act := fun w =>
  {| this := this w; router := router w; instances := instances w;
     arrays := arrays w; ticks := ticks w; timers := t;
     trace := trace w |}.

(** ** JavaScript primitives *)

(** [Array.prototype.slice(begin, end)]: a negative bound counts from
    the end, and both are clamped to the array. *)
Definition slice_bound (len : nat) (i : Z) : nat :=
  if (i <? 0)%Z then Z.to_nat (Z.max (Z.of_nat len + i) 0)
  else Z.to_nat (Z.min i (Z.of_nat len)).

Definition slice {A} (l : list A) (b e : Z) : list A :=
  let from := slice_bound (length l) b in
  let upto := slice_bound (length l) e in
  take (upto - from) (drop from l).

(** Truthiness of a value, as in [err && ...]. *)
Definition truthy (v : Value) : bool :=
  match v with
  | VUndefined => false
  | VBool b => b
  | VString s => negb (bool_decide (s = ""))
  | VError _ | VObject _ _ _ | VFunction _ => true
  end.

Definition is_false (v : Value) : bool :=
  match v with VBool false => true | _ => false end.

Definition typeof_string (v : Value) : bool :=
  match v with VString _ => true | _ => false end.

Definition typeof_object (v : Value) : bool :=
  match v with VObject _ _ _ | VError _ => true | _ => false end.

Definition typeof_function (v : Value) : bool :=
  match v with VFunction _ => true | _ => false end.

(** [typeof to.path === 'string'] and [typeof to.name === 'string']. *)
Definition has_path (v : Value) : bool :=
  match v with VObject (Some _) _ _ => true | _ => false end.

Definition has_name (v : Value) : bool :=
  match v with VObject _ (Some _) _ => true | _ => false end.

(** [to.replace], read as a condition. *)
Definition replace_flag (v : Value) : bool :=
  match v with VObject _ _ r => r | _ => false end.

(** ** Collaborators outside the two source files *)

(** Modelled from the spec: [isError] of [util/warn], which tells a
    genuine error value from anything else. *)
Definition isError (v : Value) : bool :=
  match v with VError _ => true | _ => false end.

(** Modelled from the spec: [isSameRoute] of [util/route]; two
    locations are semantically the same when path, query and hash
    agree. *)
Definition isSameRoute (a b : Route) : bool :=
  bool_decide (path a = path b) &&
  bool_decide (query a = query b) &&
  bool_decide (hash a = hash b).

(** Modelled from the spec: [START] of [util/route], the sentinel
    location that stands for nowhere. *)
Definition START : Route :=
  {| rid := 0; path := "/"; query := []; hash := ""; fullPath := "/";
     matched := [] |}.

(** ** Guard extraction *)

(** A step of a guard queue: a plain guard, or the [routeEnterGuard]
    wrapper built by [bindEnterGuard], which closes over the record
    [mtch], the slot [key], the array [cbs] and the route behind
    [isValid]. *)
Inductive Hook :=
| PlainGuard (g : GuardId)
| RouteEnterGuard (g : GuardId) (mtch : nat) (key : string) (cbs : nat) (valid : Route).

Definition hook_guard (h : Hook) : GuardId :=
  match h with
  | PlainGuard g => g
  | RouteEnterGuard g _ _ _ _ => g
  end.

(** What the callback given to [flatMapComponents] returns for one
    slot: a single (possibly absent) step or an array of them. *)
Inductive Item :=
| Single (h : option Hook)
| Many (hs : list (option Hook)).

(** Modelled from the spec: [flatMapComponents] of
    [util/resolve-components]; for each entry, for each slot of that
    entry, the callback applied to the slot's definition, the live
    instance of the slot if any, the entry and the slot name. *)
Definition flatMapComponents (matched : list RouteRecord)
    (fn : Def -> option Instance -> RouteRecord -> string -> Item)
    (w : World) : list Item :=
  concat (map (fun m =>
    map (fun kd : string * Def =>
      fn (snd kd) (instances w !! (recid m, fst kd)) m (fst kd))
    (components m)) matched).

(** Modelled from the spec: [flatten] of [util/resolve-components]; an
    array among the items is spliced in place. *)
Definition flatten (items : list Item) : list (option Hook) :=
  concat (map (fun it => match it with Single h => [h] | Many hs => hs end) items).

(** [def.options[key]]; the definition is taken after [_Vue.extend]
    has been applied to it. *)
Definition extractGuard (def : Def) (key : string) : option HookDecl :=
  options def key.

Definition extractGuards (records : list RouteRecord) (name : string)
    (bind : GuardId -> option Instance -> RouteRecord -> string -> option Hook)
    (reverse : bool) (w : World) : list (option Hook) :=
  let guards := flatMapComponents records (fun def instance mtch key =>
    match extractGuard def name with
    | Some (GuardArray gs) => Many (map (fun guard => bind guard instance mtch key) gs)
    | Some (OneGuard guard) => Single (bind guard instance mtch key)
    | None => Single None
    end) w in
  flatten (if reverse then rev guards else guards).

Definition bindGuard (guard : GuardId) (instance : option Instance)
    (mtch : RouteRecord) (key : string) : option Hook :=
  match instance with
  | Some _ => Some (PlainGuard guard)
  | None => None
  end.

Definition extractLeaveGuards (deactivated : list RouteRecord) (w : World) :=
  extractGuards deactivated "beforeRouteLeave" bindGuard true w.

Definition extractUpdateHooks (updated : list RouteRecord) (w : World) :=
  extractGuards updated "beforeRouteUpdate" bindGuard false w.

Definition bindEnterGuard (guard : GuardId) (mtch : RouteRecord) (key : string)
    (cbs : nat) (isValid : Route) : Hook :=
  RouteEnterGuard guard (recid mtch) key cbs isValid.

Definition extractEnterGuards (activated : list RouteRecord) (cbs : nat)
    (isValid : Route) (w : World) :=
  extractGuards activated "beforeRouteEnter"
    (fun guard _ mtch key => Some (bindEnterGuard guard mtch key cbs isValid))
    false w.

(** ** Deferred delivery of enter callbacks *)

(** [isValid = () => this.current === route]. *)
Definition isValid (route : Route) (w : World) : bool :=
  rid (current (this w)) =? rid route.

Definition setTimeout (t : PollTask) (delay : nat) : Act := fun w =>
  set_timers (timers w ++ [(delay, t)]) w.

Definition poll (cb : nat) (instances_of : nat) (key : string) (valid : Route) : Act :=
  fun w =>
    match instances w !! (instances_of, key) with
    | Some instance => emit (EvEnterCb cb instance) w
    | None =>
        if isValid valid w then
          setTimeout {| pt_cb := cb; pt_match := instances_of; pt_key := key;
                        pt_route := valid |} 16 w
        else w
    end.

Definition run_task (t : PollTask) : Act :=
  poll (pt_cb t) (pt_match t) (pt_key t) (pt_route t).

(** [cbs.push(...)] on the array at address [cbs]. *)
Definition array_push (cbs : nat) (t : PollTask) : Act := fun w =>
  match arrays w !! cbs with
  | Some a => set_arrays (<[cbs := a ++ [t]]> (arrays w)) w
  | None => w
  end.

(** [postEnterCbs.forEach(cb => { cb() })] *)
Definition run_array (cbs : nat) : Act := fun w =>
  match arrays w !! cbs with
  | Some a => foldl (fun w t => run_task t w) w a
  | None => w
  end.

(** ** The transition engine *)

(** What the closures of one [confirmTransition] call capture. *)
Record Ctx := {
  c_route : Route;
  c_current : Route;
  c_onComplete : Route -> Act;
  c_onAbort : option (Value -> Act)
}.

(** Which of the two [runQueue] calls is under way, with what its
    completion callback needs. *)
Inductive Stage :=
| StageA (activated : list RouteRecord)
| StageB (postEnterCbs : nat).

(** A guard that did not call its continuation yet: the continuation
    it holds, in closure-converted form. *)
Record Kont := {
  k_ctx : Ctx;
  k_stage : Stage;
  k_hook : Hook;
  k_rest : list (option Hook)
}.

Inductive Outcome :=
| Settled (w : World)
| Suspended (w : World) (k : Kont).

Definition outcome_world (o : Outcome) : World :=
  match o with Settled w => w | Suspended w _ => w end.

Definition outcome_map (f : Act) (o : Outcome) : Outcome :=
  match o with
  | Settled w => Settled (f w)
  | Suspended w k => Suspended (f w) k
  end.

(** A piece of code that may start nested navigations: [None] when the
    nesting exceeds the depth explored. *)
Definition Run := World -> option Outcome.

Definition is_pending (route : Route) (w : World) : bool :=
  match pending (this w) with
  | Some p => rid p =? rid route
  | None => false
  end.

(** [ensureURL] of [AbstractHistory] does nothing; the call is
    recorded with its argument. *)
Definition ensureURL (push : bool) : Act := emit (EvEnsureURL push).

Definition updateRoute (route : Route) : Act := fun w =>
  let prev := current (this w) in
  let w := emit (EvUpdateRoute route) w in
  let w := on_this (set_current route) w in
  let w := match cb (this w) with
           | Some f => emit (EvListener f route) w
           | None => w
           end in
  emits (omap (fun hook =>
           match hook with
           | Some h => Some (EvAfterHook h route prev)
           | None => None
           end) (afterHooks (router w))) w.

(** The [abort] closure of [confirmTransition]. *)
Definition abort (onAbort : option (Value -> Act)) (err : Value) : Act := fun w =>
  let w :=
    if isError err then
      if negb (length (errorCbs (this w)) =? 0) then
        emits (map (fun cb => EvErrorCb cb err) (errorCbs (this w))) w
      else
        emit (EvConsoleError err)
          (emit (EvWarn "uncaught error during route navigation:") w)
    else w in
  match onAbort with
  | Some f => f err w
  | None => w
  end.

(** Modelled from the spec: [runQueue] of [util/async]; the steps run
    in order, an absent step advances at once, and the end of the list
    invokes the callback.  The iterator is also told which steps its
    [next] stands for. *)
Fixpoint runQueue (queue : list (option Hook))
    (fn : Hook -> Run -> list (option Hook) -> Run) (cb : Run) : Run :=
  match queue with
  | [] => cb
  | None :: rest => runQueue rest fn cb
  | Some hook :: rest => fn hook (runQueue rest fn cb) rest
  end.

Section Engine.

(** What each guard does when invoked, given everything observed so
    far; and [resolveAsyncComponents] of [util/resolve-components],
    which yields one synthetic guard for the activated records. *)
Variable guardAct : list Event -> GuardId -> Route -> Route -> GuardAct.
Variable resolveAsyncComponents : list RouteRecord -> GuardId.

Section Methods.

(** [this.push] and [this.replace], bound late. *)
Variable push_ : Value -> Run.
Variable replace_ : Value -> Run.

(** The continuation handed to a guard by the iterator. *)
Definition resultHandler (ctx : Ctx) (next : Run) (to : Value) : Run := fun w =>
  if is_false to || isError to then
    let w := ensureURL true w in
    Some (Settled (abort (c_onAbort ctx) to w))
  else if typeof_string to ||
          (typeof_object to && (has_path to || has_name to)) then
    let w := abort (c_onAbort ctx) VUndefined w in
    if typeof_object to && replace_flag to then replace_ to w
    else push_ to w
  else next w.

(** The continuation a guard really receives: [routeEnterGuard]
    interposes [cb => { next(cb); if (typeof cb === 'function')
    cbs.push(...) }]. *)
Definition hookNext (ctx : Ctx) (hook : Hook) (next : Run) (v : Value) : Run :=
  match hook with
  | PlainGuard _ => resultHandler ctx next v
  | RouteEnterGuard _ mtch key cbs valid => fun w =>
      match resultHandler ctx next v w with
      | Some o =>
          Some (match v with
                | VFunction f =>
                    outcome_map (array_push cbs
                      {| pt_cb := f; pt_match := mtch; pt_key := key;
                         pt_route := valid |}) o
                | _ => o
                end)
      | None => None
      end
  end.

Definition iterator (ctx : Ctx) (stage : Stage)
    (hook : Hook) (next : Run) (rest : list (option Hook)) : Run := fun w =>
  if negb (is_pending (c_route ctx) w) then
    Some (Settled (abort (c_onAbort ctx) VUndefined w))
  else
    let act := guardAct (trace w) (hook_guard hook) (c_route ctx) (c_current ctx) in
    let w := emit (EvHook (hook_guard hook) (c_route ctx) (c_current ctx)) w in
    match act with
    | Call v => hookNext ctx hook next v w
    | Throw e => Some (Settled (abort (c_onAbort ctx) e w))
    | Suspend =>
        Some (Suspended w {| k_ctx := ctx; k_stage := stage;
                             k_hook := hook; k_rest := rest |})
    end.

(** The callback of the second [runQueue]. *)
Definition confirmed (ctx : Ctx) (postEnterCbs : nat) : Run := fun w =>
  if negb (is_pending (c_route ctx) w) then
    Some (Settled (abort (c_onAbort ctx) VUndefined w))
  else
    let w := on_this (set_pending None) w in
    let w := c_onComplete ctx (c_route ctx) w in
    Some (Settled (if app (router w)
                   then set_ticks (ticks w ++ [postEnterCbs]) w
                   else w)).

(** The callback of the first [runQueue]. *)
Definition resolved (ctx : Ctx) (activated : list RouteRecord) : Run := fun w =>
  let postEnterCbs := length (arrays w) in
  let w := set_arrays (arrays w ++ [[]]) w in
  let enterGuards := extractEnterGuards activated postEnterCbs (c_route ctx) w in
  let queue := enterGuards ++ map (fun g => Some (PlainGuard g)) (resolveHooks (router w)) in
  runQueue queue (iterator ctx (StageB postEnterCbs)) (confirmed ctx postEnterCbs) w.

Definition stage_done (ctx : Ctx) (stage : Stage) : Run :=
  match stage with
  | StageA activated => resolved ctx activated
  | StageB postEnterCbs => confirmed ctx postEnterCbs
  end.

Definition confirmTransition (route : Route) (onComplete : Route -> Act)
    (onAbort : option (Value -> Act)) : Run := fun w =>
  let current_ := current (this w) in
  let ctx := {| c_route := route; c_current := current_;
                c_onComplete := onComplete; c_onAbort := onAbort |} in
  if isSameRoute route current_ &&
     (length (matched route) =? length (matched current_)) then
    let w := ensureURL false w in
    Some (Settled (abort onAbort VUndefined w))
  else
    let q := resolveQueue (matched (current (this w))) (matched route) in
    let queue :=
      extractLeaveGuards (deactivated q) w ++
      map (fun g => Some (PlainGuard g)) (beforeHooks (router w)) ++
      extractUpdateHooks (updated q) w ++
      map (fun m => option_map PlainGuard (beforeEnter m)) (activated q) ++
      [Some (PlainGuard (resolveAsyncComponents (activated q)))] in
    let w := on_this (set_pending (Some route)) w in
    runQueue queue (iterator ctx (StageA (activated q)))
      (resolved ctx (activated q)) w.

(** The completion callback [transitionTo] hands to
    [confirmTransition]. *)
Definition transitionTo_onComplete (route : Route)
    (onComplete : option (Route -> Act)) : Act := fun w =>
  let w := updateRoute route w in
  let w := match onComplete with Some f => f route w | None => w end in
  let w := ensureURL false w in
  if negb (ready (this w)) then
    let w := on_this (set_ready true) w in
    emits (map (fun cb => EvReadyCb cb (Some route)) (readyCbs (this w))) w
  else w.

(** The abort callback [transitionTo] hands to
    [confirmTransition]. *)
Definition transitionTo_onAbort (onAbort : option (Value -> Act))
    (err : Value) : Act := fun w =>
  let w := match onAbort with Some f => f err w | None => w end in
  if truthy err && negb (ready (this w)) then
    let w := on_this (set_ready true) w in
    emits (map (fun cb => EvReadyErrorCb cb err) (readyErrorCbs (this w))) w
  else w.

Definition transitionTo (location : Value)
    (onComplete : option (Route -> Act))
    (onAbort : option (Value -> Act)) : Run := fun w =>
  let route := r_match (router w) location (current (this w)) in
  confirmTransition route
    (fun _ => transitionTo_onComplete route onComplete)
    (Some (transitionTo_onAbort onAbort)) w.

(** A user callback is opaque: calling it leaves a record. *)
Definition user_onComplete (f : nat) : Route -> Act :=
  fun route => emit (EvOnComplete f route).

Definition user_onAbort (f : nat) : Value -> Act :=
  fun err => emit (EvOnAbort f err).

(** The callback [push] hands to [transitionTo]. *)
Definition push_onComplete (onComplete : option nat) (route : Route) : Act := fun w =>
  let w := on_this (fun h =>
             set_stack (slice (stack h) 0 (index h + 1) ++ [route]) h) w in
  let w := on_this (fun h => set_index (index h + 1) h) w in
  match onComplete with
  | Some f => user_onComplete f route w
  | None => w
  end.

(** The callback [replace] hands to [transitionTo]. *)
Definition replace_onComplete (onComplete : option nat) (route : Route) : Act := fun w =>
  let w := on_this (fun h =>
             set_stack (slice (stack h) 0 (index h) ++ [route]) h) w in
  match onComplete with
  | Some f => user_onComplete f route w
  | None => w
  end.

Definition push_body (location : Value) (onComplete onAbort : option nat) : Run :=
  transitionTo location (Some (push_onComplete onComplete))
    (option_map user_onAbort onAbort).

Definition replace_body (location : Value) (onComplete onAbort : option nat) : Run :=
  transitionTo location (Some (replace_onComplete onComplete))
    (option_map user_onAbort onAbort).

(** The callback [go] hands to [confirmTransition]. *)
Definition go_onComplete (targetIndex : Z) (route : Route) : Act := fun w =>
  let w := on_this (set_index targetIndex) w in
  updateRoute route w.

Definition go_body (n : Z) : Run := fun w =>
  let targetIndex := (index (this w) + n)%Z in
  if (targetIndex <? 0)%Z || (targetIndex >=? Z.of_nat (length (stack (this w))))%Z then
    Some (Settled w)
  else
    match stack (this w) !! Z.to_nat targetIndex with
    | Some route =>
        confirmTransition route (fun _ => go_onComplete targetIndex route) None w
    | None => Some (Settled w)   (* excluded by the bounds check *)
    end.

(** A suspended guard calls the continuation it holds. *)
Definition resume_body (k : Kont) (v : Value) : Run :=
  hookNext (k_ctx k) (k_hook k)
    (runQueue (k_rest k) (iterator (k_ctx k) (k_stage k))
       (stage_done (k_ctx k) (k_stage k))) v.

End Methods.

(** [push] and [replace] of [AbstractHistory]; [fuel] bounds the
    depth of navigations nested through redirects. *)
Fixpoint push (fuel : nat) (location : Value) (onComplete onAbort : option nat) : Run :=
  match fuel with
  | 0 => fun _ => None
  | S fuel' =>
      push_body (fun to => push fuel' to None None)
                (fun to => replace fuel' to None None)
                location onComplete onAbort
  end
with replace (fuel : nat) (location : Value) (onComplete onAbort : option nat) : Run :=
  match fuel with
  | 0 => fun _ => None
  | S fuel' =>
      replace_body (fun to => push fuel' to None None)
                   (fun to => replace fuel' to None None)
                   location onComplete onAbort
  end.

Definition this_push (fuel : nat) : Value -> Run := fun to => push fuel to None None.
Definition this_replace (fuel : nat) : Value -> Run := fun to => replace fuel to None None.

Definition go (fuel : nat) (n : Z) : Run :=
  go_body (this_push fuel) (this_replace fuel) n.

Definition resume (fuel : nat) (k : Kont) (v : Value) : Run :=
  resume_body (this_push fuel) (this_replace fuel) k v.

Definition getCurrentLocation (w : World) : string :=
  match stack (this w) !! (length (stack (this w)) - 1) with
  | Some current => fullPath current
  | None => "/"
  end.

Definition listen (f : nat) : Act := on_this (set_cb (Some f)).

Definition onReady (f : nat) (errorCb : option nat) : Act := fun w =>
  if ready (this w) then emit (EvReadyCb f None) w
  else
    let w := on_this (fun h => set_readyCbs (readyCbs h ++ [f]) h) w in
    match errorCb with
    | Some e => on_this (fun h => set_readyErrorCbs (readyErrorCbs h ++ [e]) h) w
    | None => w
    end.

Definition onError (errorCb : nat) : Act :=
  on_this (fun h => set_errorCbs (errorCbs h ++ [errorCb]) h).

End Engine.

(** ** The controller and its environment *)

(** The state after the constructors of [History] and
    [AbstractHistory] have run. *)
Definition History_new : History :=
  {| current := START; pending := None; cb := None; ready := false;
     readyCbs := []; readyErrorCbs := []; errorCbs := [];
     stack := []; index := (-1)%Z |}.

Definition World_new (r : Router) : World :=
  {| this := History_new; router := r; instances := ∅; arrays := [];
     ticks := []; timers := []; trace := [] |}.

(** The world together with the continuations held by suspended
    guards; a continuation that has been called is spent. *)
Record Sys := {
  world : World;
  inflight : list (option Kont)
}.

Definition Sys_new (r : Router) : Sys :=
  {| world := World_new r; inflight := [] |}.

(** What can happen to the controller: a call of its interface, or the
    environment moving on. *)
Inductive Op :=
| OpPush (location : Value) (onComplete onAbort : option nat)
| OpReplace (location : Value) (onComplete onAbort : option nat)
| OpGo (n : Z)
| OpTransitionTo (location : Value) (onComplete onAbort : option nat)
| OpListen (f : nat)
| OpOnReady (f : nat) (errorCb : option nat)
| OpOnError (f : nat)
| OpResume (i : nat) (v : Value)
| OpNextTick
| OpTimer
| OpMount (mtch : nat) (key : string) (instance : Instance)
| OpUnmount (mtch : nat) (key : string).

Definition settle (pool : list (option Kont)) (r : option Outcome) : option Sys :=
  match r with
  | None => None
  | Some (Settled w) => Some {| world := w; inflight := pool |}
  | Some (Suspended w k) => Some {| world := w; inflight := pool ++ [Some k] |}
  end.

Definition act (f : Act) (s : Sys) : option Sys :=
  Some {| world := f (world s); inflight := inflight s |}.

Section System.

Variable guardAct : list Event -> GuardId -> Route -> Route -> GuardAct.
Variable resolveAsyncComponents : list RouteRecord -> GuardId.

Definition step (fuel : nat) (op : Op) (s : Sys) : option Sys :=
  match op with
  | OpPush location onComplete onAbort =>
      settle (inflight s)
        (push guardAct resolveAsyncComponents fuel location onComplete onAbort (world s))
  | OpReplace location onComplete onAbort =>
      settle (inflight s)
        (replace guardAct resolveAsyncComponents fuel location onComplete onAbort (world s))
  | OpGo n =>
      settle (inflight s) (go guardAct resolveAsyncComponents fuel n (world s))
  | OpTransitionTo location onComplete onAbort =>
      settle (inflight s)
        (transitionTo guardAct resolveAsyncComponents
           (this_push guardAct resolveAsyncComponents fuel)
           (this_replace guardAct resolveAsyncComponents fuel)
           location (option_map user_onComplete onComplete)
           (option_map user_onAbort onAbort) (world s))
  | OpListen f => act (listen f) s
  | OpOnReady f errorCb => act (onReady f errorCb) s
  | OpOnError f => act (onError f) s
  | OpResume i v =>
      match inflight s !! i with
      | Some (Some k) =>
          settle (<[i := None]> (inflight s))
            (resume guardAct resolveAsyncComponents fuel k v (world s))
      | _ => Some s
      end
  | OpNextTick =>
      match ticks (world s) with
      | cbs :: rest => act (fun w => run_array cbs (set_ticks rest w)) s
      | [] => Some s
      end
  | OpTimer =>
      match timers (world s) with
      | t :: rest => act (fun w => run_task (snd t) (set_timers rest w)) s
      | [] => Some s
      end
  | OpMount mtch key instance =>
      act (fun w => set_instances (<[(mtch, key) := instance]> (instances w)) w) s
  | OpUnmount mtch key =>
      act (fun w => set_instances (delete (mtch, key) (instances w)) w) s
  end.

(** The outcome of the navigation a step starts or resumes, if the
    step is one. *)
Definition step_run (fuel : nat) (op : Op) (s : Sys) : option (option Outcome) :=
  match op with
  | OpPush location oc oa =>
      Some (push guardAct resolveAsyncComponents fuel location oc oa (world s))
  | OpReplace location oc oa =>
      Some (replace guardAct resolveAsyncComponents fuel location oc oa (world s))
  | OpGo n => Some (go guardAct resolveAsyncComponents fuel n (world s))
  | OpTransitionTo location oc oa =>
      Some (transitionTo guardAct resolveAsyncComponents
              (this_push guardAct resolveAsyncComponents fuel)
              (this_replace guardAct resolveAsyncComponents fuel)
              location (option_map user_onComplete oc)
              (option_map user_onAbort oa) (world s))
  | OpResume i v =>
      match inflight s !! i with
      | Some (Some k) => Some (resume guardAct resolveAsyncComponents fuel k v (world s))
      | _ => None
      end
  | _ => None
  end.

Fixpoint steps (fuel : nat) (ops : list Op) (s : Sys) : option Sys :=
  match ops with
  | [] => Some s
  | op :: ops' =>
      match step fuel op s with
      | Some s' => steps fuel ops' s'
      | None => None
      end
  end.

(** The states the controller can be in. *)
Inductive reachable (r : Router) : Sys -> Prop :=
| reachable_new : reachable r (Sys_new r)
| reachable_step fuel op s s' :
    reachable r s -> step fuel op s = Some s' -> reachable r s'.

End System.

(** ** A small application used in examples

    Every path matches one record of its own, which has a single
    slot named default. *)

Definition plain_def : Def := {| options := fun _ => None |}.

Definition enter_def (g : GuardId) : Def :=
  {| options := fun key =>
       if bool_decide (key = "beforeRouteEnter") then Some (OneGuard g) else None |}.

(** A number for each path of the application. *)
Definition demo_code (p : string) : nat :=
  if bool_decide (p = "/a") then 1
  else if bool_decide (p = "/b") then 2
  else if bool_decide (p = "/c") then 3
  else if bool_decide (p = "/x") then 4
  else if bool_decide (p = "/y") then 5
  else if bool_decide (p = "/e") then 6
  else 7.

(** The record of [/x] has an entry guard (guard 5); the component of
    [/e] has a [beforeRouteEnter] guard (guard 6). *)
Definition demo_record (p : string) : RouteRecord :=
  {| recid := demo_code p;
     beforeEnter := if bool_decide (p = "/x") then Some 5 else None;
     components :=
       [("default", if bool_decide (p = "/e") then enter_def 6 else plain_def)] |}.

Definition location_path (location : Value) : string :=
  match location with
  | VString s => s
  | VObject (Some p) _ _ => p
  | _ => "/"
  end.

(** Each call of the matcher builds a new route object; here its
    identity is drawn from the path and from the identity of the route
    the call starts from. *)
Definition demo_match (location : Value) (current_ : Route) : Route :=
  let p := location_path location in
  {| rid := demo_code p + 8 * rid current_; path := p; query := [];
     hash := ""; fullPath := p; matched := [demo_record p] |}.

Definition demo_router (before : list GuardId) : Router :=
  {| r_match := demo_match; beforeHooks := before; resolveHooks := [];
     afterHooks := []; app := true |}.

(** Guard 0 is the async-component step and finds nothing to load. *)
Definition demo_async (activated : list RouteRecord) : GuardId := 0.

(** Guard 1 waits; guard 2 vetoes with [false]; guard 4 waits on the
    way from [/b] to [/a]; guard 5 redirects to [/y]; guard 6 passes a
    callback; guard 7 fails on the way to [/b]; in all other cases a
    guard lets through. *)
Definition demo_guards (_ : list Event) (g : GuardId) (to from : Route) : GuardAct :=
  match g with
  | 1 => Suspend
  | 2 => Call (VBool false)
  | 4 => if bool_decide (path to = "/a") && bool_decide (path from = "/b")
         then Suspend else Call VUndefined
  | 5 => Call (VObject (Some "/y") None false)
  | 6 => Call (VFunction 60)
  | 7 => if bool_decide (path to = "/b") then Call (VError "denied") else Call VUndefined
  | _ => Call VUndefined
  end.

Definition demo_steps := steps demo_guards demo_async 8.

(** ** Vocabulary for the statements *)

(** A value the result handler passes on to [next]: neither a veto
    nor a redirect. *)
Definition vetoes (to : Value) : bool := is_false to || isError to.

Definition redirects (to : Value) : bool :=
  typeof_string to || (typeof_object to && (has_path to || has_name to)).

Definition forwarded (to : Value) : bool := negb (vetoes to) && negb (redirects to).

(** The contexts [confirmTransition] is entered with: from
    [transitionTo] or from [go]. *)
Definition transition_ctx (route current_ : Route)
    (onComplete : option (Route -> Act)) (onAbort : option (Value -> Act)) : Ctx :=
  {| c_route := route; c_current := current_;
     c_onComplete := fun _ => transitionTo_onComplete route onComplete;
     c_onAbort := Some (transitionTo_onAbort onAbort) |}.

Definition go_ctx (route current_ : Route) (targetIndex : Z) : Ctx :=
  {| c_route := route; c_current := current_;
     c_onComplete := fun _ => go_onComplete targetIndex route;
     c_onAbort := None |}.

(** The callbacks [transitionTo] is called with: none, a user
    function, or the closure of [push] or of [replace]. *)
Inductive known_onComplete : option (Route -> Act) -> Prop :=
| known_oc_none : known_onComplete None
| known_oc_user f : known_onComplete (Some (user_onComplete f))
| known_oc_push c : known_onComplete (Some (push_onComplete c))
| known_oc_replace c : known_onComplete (Some (replace_onComplete c)).

Inductive known_onAbort : option (Value -> Act) -> Prop :=
| known_oa_none : known_onAbort None
| known_oa_user f : known_onAbort (Some (user_onAbort f)).

Inductive known_ctx : Ctx -> Prop :=
| known_transition route current_ oc oa :
    known_onComplete oc -> known_onAbort oa ->
    known_ctx (transition_ctx route current_ oc oa)
| known_go route current_ targetIndex :
    known_ctx (go_ctx route current_ targetIndex).

(** The events the user abort callback of a call leaves. *)
Definition onAbort_events (onAbort : option nat) (err : Value) : list Event :=
  match onAbort with
  | Some f => [EvOnAbort f err]
  | None => []
  end.

(** An act keeps a property of worlds. *)
Definition keeps (P : World -> Prop) (f : Act) : Prop :=
  forall w, P w -> P (f w).

(** The events the engine itself leaves on the way through a queue or
    on an abort, as opposed to those left by callbacks. *)
Definition core_event (e : Event) : bool :=
  match e with
  | EvHook _ _ _ | EvEnsureURL _ | EvErrorCb _ _ | EvWarn _ | EvConsoleError _ => true
  | _ => false
  end.

(** A property untouched by the bookkeeping of the engine. *)
Record Stable (P : World -> Prop) : Prop := {
  stable_emits : forall evs, forallb core_event evs = true -> keeps P (emits evs);
  stable_pending : forall p, keeps P (on_this (set_pending p));
  stable_arrays : forall a, keeps P (set_arrays a);
  stable_ticks : forall t, keeps P (set_ticks t)
}.

(** The outcome of a run satisfies [P], and [Q] if a guard is left
    suspended. *)
Definition good (P : World -> Prop) (Q : World -> Kont -> Prop)
    (o : option Outcome) : Prop :=
  match o with
  | None => True
  | Some (Settled w) => P w
  | Some (Suspended w k) => P w /\ Q w k
  end.

(** A run started where [R] holds ends well. *)
Definition sound (P R : World -> Prop) (Q : World -> Kont -> Prop) (r : Run) : Prop :=
  forall w, R w -> good P Q (r w).

(** Every live continuation of a system belongs to a known context. *)
Definition sys_known (s : Sys) : Prop :=
  forall i k, inflight s !! i = Some (Some k) -> known_ctx (k_ctx k).

(** The route committed last among the events, [d] if none was. *)
Definition last_update (evs : list Event) (d : Route) : Route :=
  foldl (fun r e => match e with EvUpdateRoute route => route | _ => r end) d evs.

Definition is_update (e : Event) : bool :=
  match e with EvUpdateRoute _ => true | _ => false end.

(** Events among which [updateRoute] was not entered. *)
Definition quiet (evs : list Event) : bool := forallb (fun e => negb (is_update e)) evs.

(** Since the trace read [t0] and the current route was [c0], the
    current route has followed the calls of [updateRoute]. *)
Definition commit_log (t0 : list Event) (c0 : Route) (w : World) : Prop :=
  exists evs, trace w = t0 ++ evs /\ current (this w) = last_update evs c0.

(** Since the trace read [t0], [updateRoute] was not entered and the
    current route is still [c0]. *)
Definition uncommitted (t0 : list Event) (c0 : Route) (w : World) : Prop :=
  exists evs, trace w = t0 ++ evs /\ quiet evs = true /\ current (this w) = c0.

(** Since the trace read [t0], the router is still [rt] and every
    route [updateRoute] was entered with came from its matcher. *)
Definition matcher_made (rt : Router) (t0 : list Event) (w : World) : Prop :=
  router w = rt /\
  exists evs, trace w = t0 ++ evs /\
    forall route, In (EvUpdateRoute route) evs ->
                  exists location current_, route = r_match rt location current_.

(** A property of the trace, the current route and the router that
    events other than entries into [updateRoute] do not disturb. *)
Record Logged (P : World -> Prop) : Prop := {
  logged_emits : forall evs, quiet evs = true -> keeps P (emits evs);
  logged_frame : forall f : Act,
    (forall w, trace (f w) = trace w /\
               current (this (f w)) = current (this w) /\
               router (f w) = router w) ->
    keeps P f
}.

(** The events [updateRoute] leaves after its own entry: the listener,
    then the after hooks in registration order. *)
Definition update_events (f : option nat) (hooks : list (option nat))
    (route prev : Route) : list Event :=
  match f with Some f => [EvListener f route] | None => [] end ++
  omap (fun hook => match hook with
                    | Some h => Some (EvAfterHook h route prev)
                    | None => None
                    end) hooks.

(** The calls that drain a ready queue. *)
Definition is_drain (e : Event) : bool :=
  match e with
  | EvReadyCb _ (Some _) | EvReadyErrorCb _ _ => true
  | _ => false
  end.

Definition drains (evs : list Event) : list Event := filter (fun e => is_drain e = true) evs.

(** Events among which no ready queue was drained. *)
Definition calm (evs : list Event) : bool := forallb (fun e => negb (is_drain e)) evs.

(** What has happened to the ready bookkeeping since the trace read
    [t0] and the controller was [h0]: the two queues are as they were;
    if the flag was set it is still set and nothing was drained; if it
    was not, either it is still unset and nothing was drained, or it
    is set and exactly one queue was drained: the ready queue, each
    callback once with a route committed meanwhile, or the ready-error
    queue, each callback once with a truthy value. *)
Definition ready_log (t0 : list Event) (h0 : History) (w : World) : Prop :=
  readyCbs (this w) = readyCbs h0 /\
  readyErrorCbs (this w) = readyErrorCbs h0 /\
  exists evs, trace w = t0 ++ evs /\
    if ready h0 then ready (this w) = true /\ drains evs = []
    else
      (ready (this w) = false /\ drains evs = []) \/
      (ready (this w) = true /\
       ((exists route,
            In (EvUpdateRoute route) evs /\
            drains evs = map (fun cb => EvReadyCb cb (Some route)) (readyCbs h0)) \/
        (exists err,
            truthy err = true /\
            drains evs = map (fun cb => EvReadyErrorCb cb err) (readyErrorCbs h0)))).

(** The cursor of the stack lies within it. *)
Definition cursor_ok (w : World) : Prop :=
  (-1 <= index (this w) <= Z.of_nat (length (stack (this w))) - 1)%Z.

(** The steps that start a navigation. *)
Definition starts_navigation (op : Op) : bool :=
  match op with
  | OpPush _ _ _ | OpReplace _ _ _ | OpGo _ | OpTransitionTo _ _ _ => true
  | _ => false
  end.

(** No guard is waiting. *)
Definition idle (s : Sys) : Prop :=
  forall i k, inflight s !! i <> Some (Some k).

(** The systems reached when navigations follow one another: one is
    started only while no guard of an earlier one is waiting. *)
Inductive sequential
    (guardAct : list Event -> GuardId -> Route -> Route -> GuardAct)
    (resolveAsyncComponents : list RouteRecord -> GuardId)
    (r : Router) : Sys -> Prop :=
| sequential_new : sequential guardAct resolveAsyncComponents r (Sys_new r)
| sequential_step fuel op s s' :
    sequential guardAct resolveAsyncComponents r s ->
    (starts_navigation op = true -> idle s) ->
    step guardAct resolveAsyncComponents fuel op s = Some s' ->
    sequential guardAct resolveAsyncComponents r s'.

(** The completion callback of a context leaves the cursor within the
    stack when it finds the stack to be [st]. *)
Definition completion_fits (ctx : Ctx) (st : list Route) : Prop :=
  forall w, stack (this w) = st -> cursor_ok w ->
            cursor_ok (c_onComplete ctx (c_route ctx) w).

(** The cursor is within the stack, which is [st]. *)
Definition within (st : list Route) (w : World) : Prop :=
  cursor_ok w /\ stack (this w) = st.

(** The cursor is within the stack, and will be after the one
    navigation that may be waiting on a guard completes. *)
Definition seq_inv (s : Sys) : Prop :=
  cursor_ok (world s) /\ sys_known s /\
  forall i k, inflight s !! i = Some (Some k) ->
    completion_fits (k_ctx k) (stack (this (world s))) /\
    forall j k', inflight s !! j = Some (Some k') -> j = i.

(** [w'] differs from [w] by the events [evs] and, possibly, in the
    arrays of deferred callbacks. *)
Definition same_but_arrays (w w' : World) (evs : list Event) : Prop :=
  this w' = this w /\ router w' = router w /\ instances w' = instances w /\
  ticks w' = ticks w /\ timers w' = timers w /\ trace w' = trace w ++ evs.

(** States of the example application. *)
Definition demo_state (before : list GuardId) (ops : list Op) : Sys :=
  match demo_steps ops (Sys_new (demo_router before)) with
  | Some s => s
  | None => Sys_new (demo_router before)
  end.

Definition is_hook_event (e : Event) : bool :=
  match e with EvHook _ _ _ => true | _ => false end.

(** The events of a trace other than guard invocations. *)
Definition reactions (evs : list Event) : list Event :=
  filter (fun e => is_hook_event e = false) evs.

(** The kind of an event and the function it calls. *)
Definition label (e : Event) : string * nat :=
  match e with
  | EvHook g _ _ => ("guard", g)
  | EvEnsureURL push => ("ensureURL", if push then 1 else 0)
  | EvErrorCb f _ => ("errorCb", f)
  | EvWarn _ => ("warn", 0)
  | EvConsoleError _ => ("console.error", 0)
  | EvOnAbort f _ => ("onAbort", f)
  | EvOnComplete f _ => ("onComplete", f)
  | EvUpdateRoute _ => ("updateRoute", 0)
  | EvListener f _ => ("listener", f)
  | EvAfterHook h _ _ => ("afterHook", h)
  | EvReadyCb f _ => ("readyCb", f)
  | EvReadyErrorCb f _ => ("readyErrorCb", f)
  | EvEnterCb f _ => ("enterCb", f)
  end.

(** What the stack scenario looks at: the result of
    [getCurrentLocation], the full path of the current route, the
    cursor and the full paths on the stack. *)
Definition observe_stack (s : Sys) : string * string * Z * list string :=
  (getCurrentLocation (world s), fullPath (current (this (world s))),
   index (this (world s)), map fullPath (stack (this (world s)))).

(** The example application after [push('/a')] has completed. *)
Definition demo_at_a : Sys := demo_state [] [OpPush (VString "/a") None None].

(** The example application with guard 1 as a global before hook,
    after a push to [/a] and a push to [/b]: both are waiting. *)
Definition demo_two_waiting : Sys :=
  demo_state [1] [OpPush (VString "/a") None (Some 8); OpPush (VString "/b") None None].

(** The route the matcher of the example builds for a path when
    nothing is current yet. *)
Definition demo_route (p : string) : Route := demo_match (VString p) START.

(** ** normalizeBase

    The constructor of [History] stores [normalizeBase(base)] in
    [this.base]; neither class reads the field afterwards, so the
    function is modelled on its own.  What it reads from the
    environment is given as arguments. *)

(** The character [/]. *)
Definition slash : Ascii.ascii := Eval cbv in Ascii.ascii_of_nat 47.

(** A string without its first [n] characters. *)
Fixpoint drop_chars (n : nat) (s : string) : string :=
  match n, s with
  | S n', String _ s' => drop_chars n' s'
  | _, _ => s
  end.

(** The rest of a string from its first slash on. *)
Fixpoint skip_to_slash (s : string) : string :=
  match s with
  | EmptyString => EmptyString
  | String c s' => if Ascii.eqb c slash then s else skip_to_slash s'
  end.

(** [base.replace(/^https?:\/\/[^\/]+/, '')]: a leading scheme
    followed by at least one character other than a slash is removed
    up to the next slash. *)
Definition strip_origin (s : string) : string :=
  let after_scheme :=
    if String.prefix "https://" s then Some (drop_chars 8 s)
    else if String.prefix "http://" s then Some (drop_chars 7 s)
    else None in
  match after_scheme with
  | Some (String c rest) => if Ascii.eqb c slash then s else skip_to_slash rest
  | _ => s
  end.

(** [base.charAt(0) === '/'] *)
Definition starts_with_slash (s : string) : bool :=
  match s with
  | String c _ => Ascii.eqb c slash
  | EmptyString => false
  end.

(** [base.replace(/\/$/, '')] *)
Fixpoint strip_trailing_slash (s : string) : string :=
  match s with
  | EmptyString => EmptyString
  | String c EmptyString => if Ascii.eqb c slash then EmptyString else s
  | String c s' => String c (strip_trailing_slash s')
  end.

(** [normalizeBase]; [inBrowser] and the [href] attribute of the
    document's [base] element, if there is one, are given. *)
Definition normalizeBase (inBrowser : bool) (baseHref : option string)
    (base : option string) : string :=
  let base :=
    match base with
    | Some b => if bool_decide (b = "") then None else Some b
    | None => None
    end in
  let base :=
    match base with
    | Some b => b
    | None =>
        if inBrowser then
          let base :=
            match baseHref with
            | Some href => if bool_decide (href = "") then "/" else href
            | None => "/"
            end in
          strip_origin base
        else "/"
    end in
  let base := if starts_with_slash base then base else String slash base in
  strip_trailing_slash base.

(** The last character of a string is a slash. *)
Fixpoint ends_with_slash (s : string) : bool :=
  match s with
  | EmptyString => false
  | String c EmptyString => Ascii.eqb c slash
  | String _ s' => ends_with_slash s'
  end.

(** A string without a slash, such as the host of a URL. *)
Fixpoint no_slash (s : string) : bool :=
  match s with
  | EmptyString => true
  | String c s' => negb (Ascii.eqb c slash) && no_slash s'
  end.

(** ** Vocabulary for runs in which every guard lets through *)

(** The guards of a queue, in order. *)
Definition queue_guards (queue : list (option Hook)) : list GuardId :=
  omap (option_map hook_guard) queue.

(** The invocations of the guards [gs], in order, on the way from
    [current_] to [route]. *)
Definition hook_events (route current_ : Route) (gs : list GuardId) : list Event :=
  map (fun g => EvHook g route current_) gs.

(** The guards on the way from the current route of [w] to [route],
    phase by phase: leave guards, global before hooks, update hooks,
    entry guards of the records, the async-component step, enter
    guards, global resolve hooks. *)
Definition guard_order (resolveAsyncComponents : list RouteRecord -> GuardId)
    (route : Route) (w : World) : list GuardId :=
  let q := resolveQueue (matched (current (this w))) (matched route) in
  queue_guards (extractLeaveGuards (deactivated q) w) ++
  beforeHooks (router w) ++
  queue_guards (extractUpdateHooks (updated q) w) ++
  omap beforeEnter (activated q) ++
  [resolveAsyncComponents (activated q)] ++
  queue_guards (extractEnterGuards (activated q) (length (arrays w)) route w) ++
  resolveHooks (router w).

(** The poll tasks of the functions that the enter guards of a queue
    answer with, when guard [g] answers [ans g]; in the order of the
    queue. *)
Definition enter_tasks (ans : GuardId -> Value) (queue : list (option Hook))
    : list PollTask :=
  omap (fun h =>
    match h with
    | Some (RouteEnterGuard g mtch key _ valid) =>
        match ans g with
        | VFunction f => Some {| pt_cb := f; pt_match := mtch; pt_key := key;
                                 pt_route := valid |}
        | _ => None
        end
    | _ => None
    end) queue.

(** What the wrappers of the enter guards of a queue do to the arrays
    of deferred callbacks when every guard answers at once: the
    wrapper of a guard pushes after the rest of the queue has run. *)
Fixpoint enter_pushes (ans : GuardId -> Value) (queue : list (option Hook)) : Act :=
  match queue with
  | [] => fun w => w
  | Some (RouteEnterGuard g mtch key cbs valid) :: rest =>
      match ans g with
      | VFunction f => fun w =>
          array_push cbs {| pt_cb := f; pt_match := mtch; pt_key := key;
                            pt_route := valid |} (enter_pushes ans rest w)
      | _ => enter_pushes ans rest
      end
  | _ :: rest => enter_pushes ans rest
  end.

(** A step that is absent or a plain guard. *)
Definition is_plain (h : option Hook) : Prop :=
  match h with Some (RouteEnterGuard _ _ _ _ _) => False | _ => True end.

(** The step of a queue pushes to the array at [cbs], if to any. *)
Definition pushes_to (cbs : nat) (h : option Hook) : Prop :=
  match h with Some (RouteEnterGuard _ _ _ c _) => c = cbs | _ => True end.

(** [$nextTick] is given the callback that runs the array at [cbs], if
    there is an app. *)
Definition nextTick (cbs : nat) : Act := fun w =>
  if app (router w) then set_ticks (ticks w ++ [cbs]) w else w.

(** The event of the user completion callback of a call. *)
Definition onComplete_events (onComplete : option nat) (route : Route) : list Event :=
  match onComplete with
  | Some f => [EvOnComplete f route]
  | None => []
  end.

(** The events of a commit through [transitionTo] in a controller
    [h]: the entry into [updateRoute], the listener and the after
    hooks, the events [mid] of the completion callback, the resync of
    the address backend, and the ready callbacks if the flag is not
    set. *)
Definition commit_events (h : History) (rt : Router) (route : Route)
    (mid : list Event) : list Event :=
  EvUpdateRoute route ::
  update_events (cb h) (afterHooks rt) route (current h) ++
  mid ++ [EvEnsureURL false] ++
  (if ready h then [] else map (fun f => EvReadyCb f (Some route)) (readyCbs h)).

(** On the way from the current route of [w] to [route] nothing is
    short-circuited and every guard [g] answers at once with [ans g],
    a value that is passed on. *)
Definition lets_through
    (guardAct : list Event -> GuardId -> Route -> Route -> GuardAct)
    (resolveAsyncComponents : list RouteRecord -> GuardId)
    (ans : GuardId -> Value) (route : Route) (w : World) : Prop :=
  isSameRoute route (current (this w)) &&
    (length (matched route) =? length (matched (current (this w)))) = false /\
  (forall t g, In g (guard_order resolveAsyncComponents route w) ->
     guardAct t g route (current (this w)) = Call (ans g)) /\
  (forall g, In g (guard_order resolveAsyncComponents route w) ->
     forwarded (ans g) = true).

(** The enter guards of the transition from the current route of [w]
    to [route], as extracted once the async components are there. *)
Definition enter_queue (route : Route) (w : World) : list (option Hook) :=
  extractEnterGuards
    (activated (resolveQueue (matched (current (this w))) (matched route)))
    (length (arrays w)) route w.

(** The world in which the completion callback of the transition to
    [route] is called. *)
Definition before_commit (resolveAsyncComponents : list RouteRecord -> GuardId)
    (route : Route) (w : World) : World :=
  on_this (set_pending None)
    (emits (hook_events route (current (this w))
              (guard_order resolveAsyncComponents route w))
       (set_arrays (arrays w ++ [[]]) w)).

(** What running an array of poll tasks in [w] calls: the callbacks
    whose instance is registered. *)
Definition delivered (w : World) (a : list PollTask) : list Event :=
  omap (fun t => option_map (EvEnterCb (pt_cb t))
                   (instances w !! (pt_match t, pt_key t))) a.

(** The timers it sets: one for each task whose instance is missing
    while its route is current. *)
Definition retried (w : World) (a : list PollTask) : list (nat * PollTask) :=
  omap (fun t => match instances w !! (pt_match t, pt_key t) with
                 | Some _ => None
                 | None => if isValid (pt_route t) w then Some (16, t) else None
                 end) a.

(** What [abort] reports for [err] when the error callbacks are
    [cbs]. *)
Definition report_events (cbs : list nat) (err : Value) : list Event :=
  if isError err then
    match cbs with
    | [] => [EvWarn "uncaught error during route navigation:"; EvConsoleError err]
    | _ => map (fun cb => EvErrorCb cb err) cbs
    end
  else [].

(** The events of an abort with [err] of a call through [transitionTo]
    in a controller [h]: the report, the user abort callback, and the
    ready-error callbacks if [err] is truthy and the flag is not
    set. *)
Definition failure_events (h : History) (onAbort : option nat) (err : Value)
    : list Event :=
  report_events (errorCbs h) err ++ onAbort_events onAbort err ++
  (if truthy err && negb (ready h)
   then map (fun cb => EvReadyErrorCb cb err) (readyErrorCbs h) else []).

(** A truthy abort value sets the ready flag. *)
Definition fail_ready (err : Value) : Act := fun w =>
  if truthy err && negb (ready (this w)) then on_this (set_ready true) w else w.

(** Every route on the stack was committed. *)
Definition stack_committed (w : World) : Prop :=
  forall route, In route (stack (this w)) -> In (EvUpdateRoute route) (trace w).

(** What the wrapper of the guard [hook] itself does once the guard
    has answered [v] and the rest of the queue has run. *)
Definition own_push (hook : Hook) (v : Value) : Act :=
  match hook, v with
  | RouteEnterGuard _ mtch key cbs valid, VFunction f =>
      array_push cbs {| pt_cb := f; pt_match := mtch; pt_key := key;
                        pt_route := valid |}
  | _, _ => fun w => w
  end.

(** Guards for an example of a redirect without end: guard 5 always
    redirects to [/y], every other guard lets through. *)
Definition loop_guards (_ : list Event) (g : GuardId) (_ _ : Route) : GuardAct :=
  match g with
  | 5 => Call (VString "/y")
  | _ => Call VUndefined
  end.

(** What the guards of the example application answer on the way to
    [/e]: guard 6 passes a callback, the others nothing. *)
Definition demo_answers (g : GuardId) : Value :=
  if g =? 6 then VFunction 60 else VUndefined.

(** The example application with guard 3 as a global before hook,
    before any navigation. *)
Definition demo_fresh : World := World_new (demo_router [3]).

(** The example application after [push('/a')] and [push('/b')]. *)
Definition demo_at_b : World :=
  world (demo_state [] [OpPush (VString "/a") None None;
                        OpPush (VString "/b") None None]).

(** The poll task of the callback that guard 6 passes. *)
Definition demo_task : PollTask :=
  {| pt_cb := 60; pt_match := 6; pt_key := "default"; pt_route := demo_route "/e" |}.

(** ** Vocabulary for the entry under the cursor *)

(** The cursor is within the stack and, when it is at an entry, that
    entry is the current route. *)
Definition at_cursor (w : World) : Prop :=
  cursor_ok w /\
  ((0 <= index (this w))%Z ->
   stack (this w) !! Z.to_nat (index (this w)) = Some (current (this w))).

(** The steps other than a direct call of [transitionTo], which
    commits a route without recording it on the stack. *)
Definition uses_stack (op : Op) : bool :=
  match op with
  | OpTransitionTo _ _ _ => false
  | _ => true
  end.

(** The systems driven through [push], [replace] and [go], one
    navigation after the other. *)
Inductive stack_driven
    (guardAct : list Event -> GuardId -> Route -> Route -> GuardAct)
    (resolveAsyncComponents : list RouteRecord -> GuardId)
    (r : Router) : Sys -> Prop :=
| stack_driven_new : stack_driven guardAct resolveAsyncComponents r (Sys_new r)
| stack_driven_step fuel op s s' :
    stack_driven guardAct resolveAsyncComponents r s ->
    (starts_navigation op = true -> idle s) ->
    uses_stack op = true ->
    step guardAct resolveAsyncComponents fuel op s = Some s' ->
    stack_driven guardAct resolveAsyncComponents r s'.

(** The callbacks of a waiting transition keep the current route
    under the cursor when the transition completes or aborts while the
    stack is [st]. *)
Definition lands_at_cursor (ctx : Ctx) (st : list Route) : Prop :=
  (forall w, stack (this w) = st -> at_cursor w ->
             at_cursor (c_onComplete ctx (c_route ctx) w)) /\
  (forall f, c_onAbort ctx = Some f -> forall err, keeps at_cursor (f err)).

(** The current route is under the cursor, and will be after the one
    navigation that may be waiting on a guard. *)
Definition at_cursor_inv (s : Sys) : Prop :=
  at_cursor (world s) /\
  forall i k, inflight s !! i = Some (Some k) ->
    lands_at_cursor (k_ctx k) (stack (this (world s))) /\
    forall j k', inflight s !! j = Some (Some k') -> j = i.

(** The current route is under the cursor, and the stack is [st]. *)
Definition at_cursor_in (st : list Route) (w : World) : Prop :=
  at_cursor w /\ stack (this w) = st.

(** ** Vocabulary for registrations *)

(** What has been registered with the controller: the error
    callbacks, the listener, and the router it was made for. *)
Definition registered (w : World) : list nat * option nat * Router :=
  (errorCbs (this w), cb (this w), router w).

(** ** Vocabulary for commits *)

(** Events among which no guard was invoked. *)
Definition no_hook (evs : list Event) : bool :=
  forallb (fun e => negb (is_hook_event e)) evs.

(** Among the events [updateRoute] was not entered, or it was entered
    once and no guard was invoked afterwards. *)
Definition commit_last (evs : list Event) : Prop :=
  quiet evs = true \/
  exists pre route post,
    evs = pre ++ EvUpdateRoute route :: post /\
    quiet pre = true /\ quiet post = true /\ no_hook post = true.

(** Since the trace read [t0], [updateRoute] was not entered. *)
Definition since_quiet (t0 : list Event) (w : World) : Prop :=
  exists evs, trace w = t0 ++ evs /\ quiet evs = true.

(** Since the trace read [t0], at most one route was committed, and no
    guard was invoked after the commit. *)
Definition since_commit_last (t0 : list Event) (w : World) : Prop :=
  exists evs, trace w = t0 ++ evs /\ commit_last evs.

(** * Properties *)

(** ** The diff of two matched lists *)

Lemma resolveQueue_loop_shift x y current next n i :
  resolveQueue_loop (x :: current) (y :: next) n (S i) =
  S (resolveQueue_loop current next n i).
Proof.
  revert i. induction n as [|n IH]; intros i; simpl; [done|].
  destruct (differ (current !! i) (next !! i)); [done|]. apply IH.
Qed.

Lemma resolveQueue_loop_prefix current next :
  resolveQueue_loop current next (Nat.max (length current) (length next)) 0 =
  length (common_prefix current next).
Proof.
  revert next. induction current as [|c cs IH]; intros [|n ns]; simpl; try done.
  destruct (recid c =? recid n); simpl; [|done].
  rewrite resolveQueue_loop_shift. f_equal. apply IH.
Qed.

Lemma common_prefix_take current next :
  common_prefix current next = take (length (common_prefix current next)) next.
Proof.
  revert next. induction current as [|c cs IH]; intros [|n ns]; simpl; try done.
  destruct (recid c =? recid n); simpl; [|done]. f_equal. apply IH.
Qed.

Lemma common_prefix_same current next j :
  j < length (common_prefix current next) ->
  differ (current !! j) (next !! j) = false.
Proof.
  revert next j. induction current as [|c cs IH]; intros [|n ns] j; simpl; try lia.
  destruct (recid c =? recid n) eqn:E; simpl; [|lia].
  destruct j as [|j]; simpl; [by rewrite E|]. intros H. apply IH. lia.
Qed.

Lemma common_prefix_stop current next :
  length (common_prefix current next) < Nat.max (length current) (length next) ->
  differ (current !! length (common_prefix current next))
         (next !! length (common_prefix current next)) = true.
Proof.
  revert next. induction current as [|c cs IH]; intros [|n ns]; simpl; try lia; try done.
  destruct (recid c =? recid n) eqn:E; simpl; [|by rewrite E].
  intros H. apply IH. lia.
Qed.

Lemma common_prefix_all current next :
  (forall j, j < Nat.max (length current) (length next) ->
             differ (current !! j) (next !! j) = false) ->
  length (common_prefix current next) = length current /\
  length (common_prefix current next) = length next.
Proof.
  intros H.
  destruct (decide (length (common_prefix current next)
                    < Nat.max (length current) (length next))) as [Hlt|Hge].
  - pose proof (common_prefix_stop _ _ Hlt) as Hd. rewrite (H _ Hlt) in Hd. done.
  - assert (length (common_prefix current next) <= length current /\
            length (common_prefix current next) <= length next) as [].
    { clear. revert next. induction current as [|c cs IH]; intros [|n ns]; simpl;
        try lia.
      destruct (recid c =? recid n); simpl; [|lia]. specialize (IH ns). lia. }
    lia.
Qed.

(** C2. [resolveQueue] cuts both lists at the index [i] where the
    longest leading run of identical records ends: [updated] is the
    first [i] entries of [next] and is exactly that run, [activated]
    and [deactivated] are what follows index [i] in [next] and in
    [current]; no index below [i] differs, index [i] differs unless
    [i] is the larger length, and when no index differs [i] is the
    length of both lists. *)
Theorem resolveQueue_spec (current next : list RouteRecord) :
  let q := resolveQueue current next in
  let i := length (common_prefix current next) in
  updated q = take i next /\
  activated q = drop i next /\
  deactivated q = drop i current /\
  updated q = common_prefix current next /\
  next = updated q ++ activated q /\
  (forall j, j < i -> differ (current !! j) (next !! j) = false) /\
  (i < Nat.max (length current) (length next) ->
   differ (current !! i) (next !! i) = true) /\
  ((forall j, j < Nat.max (length current) (length next) ->
              differ (current !! j) (next !! j) = false) ->
   i = length current /\ i = length next).
Proof.
  intros q i. subst q i. unfold resolveQueue. simpl.
  rewrite resolveQueue_loop_prefix.
  repeat split.
  - symmetry. apply common_prefix_take.
  - symmetry. apply take_drop.
  - apply common_prefix_same.
  - apply common_prefix_stop.
  - by apply common_prefix_all.
  - by apply common_prefix_all.
Qed.

(** ** What every run of the engine preserves *)

Lemma array_push_keeps P : Stable P -> forall c t, keeps P (array_push c t).
Proof.
  intros HP c t w Hw. unfold array_push. destruct (arrays w !! c); [|done].
  by apply (stable_arrays _ HP).
Qed.

Lemma good_map P Q f o :
  (forall w, P w -> P (f w)) -> (forall w k, Q w k -> Q (f w) k) ->
  good P Q (Some o) -> good P Q (Some (outcome_map f o)).
Proof. intros HP HQ. destruct o; simpl; [auto|]. intros []. auto. Qed.

Section Generic.
Variable guardAct : list Event -> GuardId -> Route -> Route -> GuardAct.
Variable resolveAsyncComponents : list RouteRecord -> GuardId.
Variables (P R : World -> Prop) (Q : World -> Kont -> Prop).
Hypothesis HP : Stable P.
Hypothesis HR : Stable R.
Hypothesis HRP : forall w, R w -> P w.
Hypothesis HQpush : forall w k c t, Q w k -> Q (array_push c t w) k.
Variables push_ replace_ : Value -> Run.
Hypothesis Hpush : forall to w, P w -> good P Q (push_ to w).
Hypothesis Hreplace : forall to w, P w -> good P Q (replace_ to w).
Variable ctx : Ctx.
Hypothesis Hoc : forall w, R w -> P (c_onComplete ctx (c_route ctx) w).
Hypothesis Hoa : forall f, c_onAbort ctx = Some f -> forall err, keeps P (f err).
Hypothesis HQ : forall w stage hook rest,
  R w -> is_pending (c_route ctx) w = true ->
  guardAct (trace w) (hook_guard hook) (c_route ctx) (c_current ctx) = Suspend ->
  Q (emit (EvHook (hook_guard hook) (c_route ctx) (c_current ctx)) w)
    {| k_ctx := ctx; k_stage := stage; k_hook := hook; k_rest := rest |}.

Local Abbreviation sound := (sound P R Q).

Lemma abort_keeps err : keeps P (abort (c_onAbort ctx) err).
Proof.
  intros w Hw. unfold abort.
  assert (P (if isError err
             then if negb (length (errorCbs (this w)) =? 0)
                  then emits (map (fun cb => EvErrorCb cb err) (errorCbs (this w))) w
                  else emit (EvConsoleError err)
                         (emit (EvWarn "uncaught error during route navigation:") w)
             else w)) as Hw'.
  { destruct (isError err); [|done].
    destruct (negb _).
    - apply (stable_emits _ HP); [|done]. by induction (errorCbs (this w)).
    - by do 2 (apply (stable_emits _ HP); [done|]). }
  destruct (c_onAbort ctx) as [f|] eqn:E; [|done]. by apply (Hoa f).
Qed.

Lemma resultHandler_sound next v :
  sound next -> sound (resultHandler push_ replace_ ctx next v).
Proof.
  intros Hn w Hw. unfold resultHandler.
  destruct (is_false v || isError v).
  { simpl. apply abort_keeps. apply (stable_emits _ HP); [done|]. by apply HRP. }
  destruct (typeof_string v || _).
  { destruct (typeof_object v && replace_flag v);
      [apply Hreplace|apply Hpush]; apply abort_keeps; by apply HRP. }
  by apply Hn.
Qed.

Lemma hookNext_sound hook next v :
  sound next -> sound (hookNext push_ replace_ ctx hook next v).
Proof.
  intros Hn w Hw. destruct hook as [g|g mtch key cbs valid]; simpl.
  { by apply resultHandler_sound. }
  pose proof (resultHandler_sound next v Hn w Hw) as H.
  destruct (resultHandler push_ replace_ ctx next v w) as [o|]; [|done].
  destruct v; try done.
  apply good_map; [|by auto|done]. intros w'. by apply array_push_keeps.
Qed.

Lemma iterator_sound stage hook next rest :
  sound next -> sound (iterator guardAct push_ replace_ ctx stage hook next rest).
Proof.
  intros Hn w Hw. unfold iterator.
  destruct (is_pending (c_route ctx) w) eqn:Epend; simpl.
  2:{ apply abort_keeps. by apply HRP. }
  destruct (guardAct _ _ _ _) as [v|e|] eqn:Eact.
  - apply hookNext_sound; [done|]. by apply (stable_emits _ HR).
  - simpl. apply abort_keeps. apply (stable_emits _ HP); [done|]. by apply HRP.
  - simpl. split.
    + apply (stable_emits _ HP); [done|]. by apply HRP.
    + by apply HQ.
Qed.

Lemma runQueue_sound queue stage cb :
  sound cb ->
  sound (runQueue queue (iterator guardAct push_ replace_ ctx stage) cb).
Proof.
  intros Hcb. induction queue as [|[hook|] rest IH]; simpl; [done| |done].
  by apply iterator_sound.
Qed.

Lemma confirmed_sound cbs : sound (confirmed ctx cbs).
Proof.
  intros w Hw. unfold confirmed.
  destruct (is_pending (c_route ctx) w); simpl.
  2:{ apply abort_keeps. by apply HRP. }
  destruct (app _).
  - apply (stable_ticks _ HP). apply Hoc. by apply (stable_pending _ HR).
  - apply Hoc. by apply (stable_pending _ HR).
Qed.

Lemma resolved_sound activated :
  sound (resolved guardAct push_ replace_ ctx activated).
Proof.
  intros w Hw. unfold resolved.
  apply runQueue_sound; [apply confirmed_sound|].
  by apply (stable_arrays _ HR).
Qed.

Lemma stage_done_sound stage :
  sound (stage_done guardAct push_ replace_ ctx stage).
Proof. destruct stage; [apply resolved_sound|apply confirmed_sound]. Qed.

Lemma resume_body_sound k v :
  k_ctx k = ctx -> sound (resume_body guardAct push_ replace_ k v).
Proof.
  intros E. unfold resume_body. rewrite E.
  apply hookNext_sound, runQueue_sound, stage_done_sound.
Qed.

End Generic.


Section Entry.
Variable guardAct : list Event -> GuardId -> Route -> Route -> GuardAct.
Variable resolveAsyncComponents : list RouteRecord -> GuardId.
Variables (P R : World -> Prop) (Q : World -> Kont -> Prop).
Hypothesis HP : Stable P.
Hypothesis HR : Stable R.
Hypothesis HRP : forall w, R w -> P w.
Hypothesis HQpush : forall w k c t, Q w k -> Q (array_push c t w) k.
Variables push_ replace_ : Value -> Run.
Hypothesis Hpush : forall to w, P w -> good P Q (push_ to w).
Hypothesis Hreplace : forall to w, P w -> good P Q (replace_ to w).

Lemma confirmTransition_sound route oc oa :
  (forall w, R w -> P (oc route w)) ->
  (forall f, oa = Some f -> forall err, keeps P (f err)) ->
  (forall current_ w stage hook rest,
      R w -> is_pending route w = true ->
      guardAct (trace w) (hook_guard hook) route current_ = Suspend ->
      Q (emit (EvHook (hook_guard hook) route current_) w)
        {| k_ctx := {| c_route := route; c_current := current_;
                       c_onComplete := oc; c_onAbort := oa |};
           k_stage := stage; k_hook := hook; k_rest := rest |}) ->
  sound P R Q
    (confirmTransition guardAct resolveAsyncComponents push_ replace_ route oc oa).
Proof.
  intros Hoc Hoa HQ w Hw. unfold confirmTransition.
  set (ctx := {| c_route := route; c_current := current (this w);
                 c_onComplete := oc; c_onAbort := oa |}).
  destruct (isSameRoute _ _ && _).
  - simpl. apply (abort_keeps P HP ctx Hoa).
    apply (stable_emits _ HP); [done|]. by apply HRP.
  - apply (runQueue_sound guardAct P R Q HP HR HRP HQpush push_ replace_
             Hpush Hreplace ctx); simpl; try done.
    + intros w' stage hook rest. apply HQ.
    + apply (resolved_sound guardAct P R Q HP HR HRP HQpush push_ replace_
               Hpush Hreplace ctx); simpl; try done.
      intros w' stage hook rest. apply HQ.
    + by apply (stable_pending _ HR).
Qed.

End Entry.

(** Properties kept by the callbacks of [transitionTo], whatever they
    wrap, are kept by whole navigations.  For [push], [replace] and
    [transitionTo] the completion callback needs to keep the property
    only for routes that come from the matcher. *)
Section Closed.
Variable guardAct : list Event -> GuardId -> Route -> Route -> GuardAct.
Variable resolveAsyncComponents : list RouteRecord -> GuardId.
Variables (P : World -> Prop) (Q : World -> Kont -> Prop).
Hypothesis HP : Stable P.
Hypothesis HQpush : forall w k c t, Q w k -> Q (array_push c t w) k.
Hypothesis Hmatched : forall w0 location oc,
  P w0 -> known_onComplete oc ->
  keeps P (transitionTo_onComplete
             (r_match (router w0) location (current (this w0))) oc).
Hypothesis Hoa : forall oa err,
  known_onAbort oa -> keeps P (transitionTo_onAbort oa err).
Hypothesis HQt : forall route current_ oc oa w stage hook rest,
  known_onComplete oc -> known_onAbort oa ->
  P w -> is_pending route w = true ->
  guardAct (trace w) (hook_guard hook) route current_ = Suspend ->
  Q (emit (EvHook (hook_guard hook) route current_) w)
    {| k_ctx := transition_ctx route current_ oc oa;
       k_stage := stage; k_hook := hook; k_rest := rest |}.

Lemma transitionTo_sound push_ replace_ location oc oa :
  (forall to w, P w -> good P Q (push_ to w)) ->
  (forall to w, P w -> good P Q (replace_ to w)) ->
  known_onComplete oc -> known_onAbort oa ->
  sound P P Q
    (transitionTo guardAct resolveAsyncComponents push_ replace_ location oc oa).
Proof.
  intros Hpush Hreplace Koc Koa w Hw. unfold transitionTo.
  apply (confirmTransition_sound guardAct resolveAsyncComponents P P Q);
    try done.
  - intros w'. by apply Hmatched.
  - intros f [= <-] err. by apply Hoa.
  - intros current_ w' stage hook rest HPw' Hpend Hact. by apply HQt.
Qed.

Lemma known_user_onAbort oa : known_onAbort (option_map user_onAbort oa).
Proof. destruct oa; constructor. Qed.

Lemma known_user_onComplete oc : known_onComplete (option_map user_onComplete oc).
Proof. destruct oc; constructor. Qed.

Lemma push_replace_sound fuel :
  (forall location oc oa,
      sound P P Q (push guardAct resolveAsyncComponents fuel location oc oa)) /\
  (forall location oc oa,
      sound P P Q (replace guardAct resolveAsyncComponents fuel location oc oa)).
Proof.
  induction fuel as [|fuel [IHp IHr]]; [by split|].
  split; intros location oc oa; simpl.
  - apply transitionTo_sound;
      [intros; by apply IHp|intros; by apply IHr|constructor
      |apply known_user_onAbort].
  - apply transitionTo_sound;
      [intros; by apply IHp|intros; by apply IHr|constructor
      |apply known_user_onAbort].
Qed.

Lemma this_push_good fuel to w :
  P w -> good P Q (this_push guardAct resolveAsyncComponents fuel to w).
Proof. apply (push_replace_sound fuel). Qed.

Lemma this_replace_good fuel to w :
  P w -> good P Q (this_replace guardAct resolveAsyncComponents fuel to w).
Proof. apply (push_replace_sound fuel). Qed.

Hypothesis Hoc : forall route oc,
  known_onComplete oc -> keeps P (transitionTo_onComplete route oc).
Hypothesis Hgo : forall targetIndex route, keeps P (go_onComplete targetIndex route).
Hypothesis HQg : forall route current_ targetIndex w stage hook rest,
  P w -> is_pending route w = true ->
  guardAct (trace w) (hook_guard hook) route current_ = Suspend ->
  Q (emit (EvHook (hook_guard hook) route current_) w)
    {| k_ctx := go_ctx route current_ targetIndex;
       k_stage := stage; k_hook := hook; k_rest := rest |}.

Lemma go_sound fuel n :
  sound P P Q (go guardAct resolveAsyncComponents fuel n).
Proof.
  intros w Hw. unfold go, go_body.
  destruct (_ || _); [done|].
  destruct (stack (this w) !! _) as [route|]; [|done].
  apply (confirmTransition_sound guardAct resolveAsyncComponents P P Q);
    try done.
  - apply this_push_good.
  - apply this_replace_good.
  - intros w'. apply Hgo.
  - intros current_ w' stage hook rest HPw' Hpend Hact. by apply HQg.
Qed.

Lemma resume_sound fuel k v :
  known_ctx (k_ctx k) ->
  sound P P Q (resume guardAct resolveAsyncComponents fuel k v).
Proof.
  intros Hk. unfold resume.
  apply (resume_body_sound guardAct P P Q HP HP) with (ctx := k_ctx k);
    try done.
  - apply this_push_good.
  - apply this_replace_good.
  - destruct Hk; simpl; intros w Hw; [by apply Hoc|by apply Hgo].
  - destruct Hk; simpl; [|done]. intros f [= <-] err. by apply Hoa.
  - destruct Hk; simpl; intros w stage hook rest ? ? ?;
      [by apply HQt|by apply HQg].
Qed.

End Closed.

(** ** Steps of the system *)

Lemma settle_inv pool o s :
  settle pool o = Some s ->
  (o = Some (Settled (world s)) /\ inflight s = pool) \/
  (exists k, o = Some (Suspended (world s) k) /\ inflight s = pool ++ [Some k]).
Proof.
  destruct o as [[w|w k]|]; simpl; intros [= <-]; simpl; eauto.
Qed.

Section RunSteps.
Variable guardAct : list Event -> GuardId -> Route -> Route -> GuardAct.
Variable resolveAsyncComponents : list RouteRecord -> GuardId.
Variables (P : World -> Prop) (Q : World -> Kont -> Prop).
Hypothesis HP : Stable P.
Hypothesis HQpush : forall w k c t, Q w k -> Q (array_push c t w) k.
Hypothesis Hoc : forall route oc,
  known_onComplete oc -> keeps P (transitionTo_onComplete route oc).
Hypothesis Hoa : forall oa err,
  known_onAbort oa -> keeps P (transitionTo_onAbort oa err).
Hypothesis Hgo : forall targetIndex route, keeps P (go_onComplete targetIndex route).
Hypothesis HQt : forall route current_ oc oa w stage hook rest,
  known_onComplete oc -> known_onAbort oa ->
  P w -> is_pending route w = true ->
  guardAct (trace w) (hook_guard hook) route current_ = Suspend ->
  Q (emit (EvHook (hook_guard hook) route current_) w)
    {| k_ctx := transition_ctx route current_ oc oa;
       k_stage := stage; k_hook := hook; k_rest := rest |}.
Hypothesis HQg : forall route current_ targetIndex w stage hook rest,
  P w -> is_pending route w = true ->
  guardAct (trace w) (hook_guard hook) route current_ = Suspend ->
  Q (emit (EvHook (hook_guard hook) route current_) w)
    {| k_ctx := go_ctx route current_ targetIndex;
       k_stage := stage; k_hook := hook; k_rest := rest |}.

Lemma step_run_good fuel op s o :
  sys_known s -> P (world s) ->
  step_run guardAct resolveAsyncComponents fuel op s = Some o -> good P Q o.
Proof.
  assert (forall w0 location oc,
             P w0 -> known_onComplete oc ->
             keeps P (transitionTo_onComplete
                        (r_match (router w0) location (current (this w0))) oc))
    as Hmatched by (intros; by apply Hoc).
  intros Hk Hw. destruct op; simpl; try done.
  - intros [= <-].
    by apply (push_replace_sound guardAct resolveAsyncComponents P Q
                HP HQpush Hmatched Hoa HQt).
  - intros [= <-].
    by apply (push_replace_sound guardAct resolveAsyncComponents P Q
                HP HQpush Hmatched Hoa HQt).
  - intros [= <-].
    by apply (go_sound guardAct resolveAsyncComponents P Q
                HP HQpush Hmatched Hoa HQt Hgo HQg).
  - intros [= <-].
    apply (transitionTo_sound guardAct resolveAsyncComponents P Q
             HP HQpush Hmatched Hoa HQt); try done.
    + intros. by apply this_push_good.
    + intros. by apply this_replace_good.
    + apply known_user_onComplete.
    + apply known_user_onAbort.
  - destruct (inflight s !! i) as [[k|]|] eqn:E; try done. intros [= <-].
    apply (resume_sound guardAct resolveAsyncComponents P Q
             HP HQpush Hmatched Hoa HQt Hoc Hgo HQg); try done.
    by apply (Hk i).
Qed.

Lemma step_run_settle fuel op s o s' :
  step_run guardAct resolveAsyncComponents fuel op s = Some o ->
  step guardAct resolveAsyncComponents fuel op s = Some s' ->
  exists pool, settle pool o = Some s' /\
    length pool = length (inflight s) /\
    forall j k, pool !! j = Some (Some k) -> inflight s !! j = Some (Some k).
Proof.
  destruct op; simpl; try done; try (intros [= <-] H; by eauto).
  destruct (inflight s !! i) as [[k|]|] eqn:E; try done. intros [= <-] H.
  eexists; split; [exact H|]. split; [apply length_insert|]. intros j k' Hj.
  destruct (decide (i = j)) as [->|Hne].
  - rewrite list_lookup_insert_eq in Hj; [done|]. by eapply lookup_lt_Some.
  - by rewrite list_lookup_insert_ne in Hj.
Qed.

Lemma step_run_world fuel op s o s' :
  sys_known s -> P (world s) ->
  step_run guardAct resolveAsyncComponents fuel op s = Some o ->
  step guardAct resolveAsyncComponents fuel op s = Some s' ->
  P (world s').
Proof.
  intros Hk Hw Hr Hs.
  pose proof (step_run_good _ _ _ _ Hk Hw Hr) as Hg.
  destruct (step_run_settle _ _ _ _ _ Hr Hs) as (pool & Hset & _ & _).
  destruct (settle_inv _ _ _ Hset) as [[-> _]|(k & -> & _)]; simpl in Hg; tauto.
Qed.

End RunSteps.

Lemma sys_known_snoc pool k :
  (forall i k', pool !! i = Some (Some k') -> known_ctx (k_ctx k')) ->
  known_ctx (k_ctx k) ->
  forall i k', (pool ++ [Some k]) !! i = Some (Some k') -> known_ctx (k_ctx k').
Proof.
  intros Hp Hk i k' H. apply lookup_app_Some in H as [H|[_ H]]; [by eapply Hp|].
  apply list_lookup_singleton_Some in H as [_ [= <-]]. done.
Qed.

Lemma step_known guardAct resolveAsyncComponents fuel op s s' :
  sys_known s -> step guardAct resolveAsyncComponents fuel op s = Some s' ->
  sys_known s'.
Proof.
  intros Hk Hs.
  destruct (step_run guardAct resolveAsyncComponents fuel op s) as [o|] eqn:Hr.
  - assert (good (fun _ => True) (fun _ k => known_ctx (k_ctx k)) o) as Hg.
    { apply (step_run_good guardAct resolveAsyncComponents
               (fun _ => True) (fun _ k => known_ctx (k_ctx k)))
        with (fuel := fuel) (op := op) (s := s); try done;
        try (split; by intros); intros; simpl; by constructor. }
    destruct (step_run_settle _ _ _ _ _ _ _ Hr Hs) as (pool & Hset & _ & Hpool).
    assert (forall i k', pool !! i = Some (Some k') -> known_ctx (k_ctx k')) as Hp.
    { intros i k' Hi. apply (Hk i). by apply Hpool. }
    destruct (settle_inv _ _ _ Hset) as [[_ E]|(k & -> & E)]; unfold sys_known;
      rewrite E; [done|].
    apply sys_known_snoc; [done|]. simpl in Hg. tauto.
  - destruct op; simpl in Hr, Hs; try done;
      try (injection Hs as <-; exact Hk).
    + destruct (inflight s !! i) as [[k|]|]; try done; injection Hs as <-; exact Hk.
    + destruct (ticks (world s)); injection Hs as <-; exact Hk.
    + destruct (timers (world s)); injection Hs as <-; exact Hk.
Qed.

Lemma reachable_known guardAct resolveAsyncComponents r s :
  reachable guardAct resolveAsyncComponents r s -> sys_known s.
Proof.
  induction 1 as [|fuel op s s' _ IH Hs].
  - intros i k H. simpl in H. by rewrite lookup_nil in H.
  - by eapply step_known.
Qed.

(** ** The current route follows [updateRoute] *)

Lemma last_update_app evs1 evs2 d :
  last_update (evs1 ++ evs2) d = last_update evs2 (last_update evs1 d).
Proof. unfold last_update. apply foldl_app. Qed.

Lemma last_update_quiet evs d : quiet evs = true -> last_update evs d = d.
Proof.
  revert d. induction evs as [|e evs IH]; intros d; simpl; [done|].
  intros [He Hq]%andb_prop. destruct e; try done; by apply IH.
Qed.

Lemma core_quiet evs : forallb core_event evs = true -> quiet evs = true.
Proof.
  induction evs as [|e evs IH]; simpl; [done|].
  intros [He Hq]%andb_prop. rewrite IH; [|done]. by destruct e.
Qed.

Lemma quiet_map {A} (f : A -> Event) l :
  (forall x, is_update (f x) = false) -> quiet (map f l) = true.
Proof. intros H. induction l; simpl; [done|]. by rewrite H. Qed.

Lemma quiet_app evs1 evs2 :
  quiet evs1 = true -> quiet evs2 = true -> quiet (evs1 ++ evs2) = true.
Proof. unfold quiet. intros H1 H2. rewrite forallb_app. by rewrite H1, H2. Qed.

Lemma quiet_update_events f hooks route prev :
  quiet (update_events f hooks route prev) = true.
Proof.
  unfold update_events. apply quiet_app; [by destruct f|].
  induction hooks as [|[h|] hooks IH]; simpl; done.
Qed.

Lemma quiet_not_in evs route : quiet evs = true -> ~ In (EvUpdateRoute route) evs.
Proof.
  induction evs as [|e evs IH]; simpl; [tauto|].
  intros [He Hq]%andb_prop [->|Hin]; [done|]. by apply IH.
Qed.

Lemma updateRoute_unfold route w :
  updateRoute route w =
  emits (update_events (cb (this w)) (afterHooks (router w)) route (current (this w)))
    (on_this (set_current route) (emit (EvUpdateRoute route) w)).
Proof.
  unfold updateRoute, update_events. simpl. destruct (cb (this w)); simpl; [|done].
  unfold emits, emit, emits. simpl. by rewrite <- app_assoc.
Qed.

Section LoggedProps.
Variable P : World -> Prop.
Hypothesis HL : Logged P.

Lemma logged_stable : Stable P.
Proof.
  split.
  - intros evs H. by apply (logged_emits _ HL), core_quiet.
  - intros p. by apply (logged_frame _ HL).
  - intros a. by apply (logged_frame _ HL).
  - intros t. by apply (logged_frame _ HL).
Qed.

Lemma logged_known_onComplete oc route :
  known_onComplete oc ->
  keeps P (match oc with Some f => f route | None => id end).
Proof.
  intros [|f|c|c] w Hw; [done|by apply (logged_emits _ HL)| |].
  - unfold push_onComplete.
    assert (P (on_this (fun h => set_index (index h + 1) h)
                 (on_this (fun h => set_stack
                                      (slice (stack h) 0 (index h + 1) ++ [route]) h) w))).
    { by do 2 (apply (logged_frame _ HL); [done|]). }
    destruct c; [by apply (logged_emits _ HL)|done].
  - unfold replace_onComplete.
    assert (P (on_this (fun h => set_stack
                                   (slice (stack h) 0 (index h) ++ [route]) h) w)).
    { by apply (logged_frame _ HL). }
    destruct c; [by apply (logged_emits _ HL)|done].
Qed.

Lemma logged_onComplete route oc :
  keeps P (updateRoute route) -> known_onComplete oc ->
  keeps P (transitionTo_onComplete route oc).
Proof.
  intros Hup Hoc w Hw. unfold transitionTo_onComplete.
  apply Hup in Hw. revert Hw.
  generalize (updateRoute route w). clear w. intros w Hw.
  apply (logged_known_onComplete oc route Hoc) in Hw.
  assert (P (ensureURL false (match oc with Some f => f route w | None => w end))) as H.
  { apply (logged_emits _ HL); [done|]. by destruct oc. }
  revert H. generalize (ensureURL false (match oc with Some f => f route w | None => w end)).
  intros w1 Hw1. destruct (ready (this w1)); simpl; [done|].
  apply (logged_emits _ HL); [by apply quiet_map|]. by apply (logged_frame _ HL).
Qed.

Lemma logged_onAbort oa err :
  known_onAbort oa -> keeps P (transitionTo_onAbort oa err).
Proof.
  intros Hoa w Hw. unfold transitionTo_onAbort.
  assert (P (match oa with Some f => f err w | None => w end)) as H.
  { destruct Hoa; [done|]. by apply (logged_emits _ HL). }
  revert H. generalize (match oa with Some f => f err w | None => w end).
  intros w1 Hw1. destruct (truthy err && negb (ready (this w1))); [|done].
  apply (logged_emits _ HL); [by apply quiet_map|]. by apply (logged_frame _ HL).
Qed.

Lemma logged_abort ctx err :
  known_ctx ctx -> keeps P (abort (c_onAbort ctx) err).
Proof.
  intros Hk w Hw. unfold abort.
  assert (P (if isError err
             then if negb (length (errorCbs (this w)) =? 0)
                  then emits (map (fun cb => EvErrorCb cb err) (errorCbs (this w))) w
                  else emit (EvConsoleError err)
                         (emit (EvWarn "uncaught error during route navigation:") w)
             else w)) as H.
  { destruct (isError err); [|done]. destruct (negb _).
    - apply (logged_emits _ HL); [by apply quiet_map|done].
    - by do 2 (apply (logged_emits _ HL); [done|]). }
  destruct Hk; simpl; [|done]. by apply logged_onAbort.
Qed.

Lemma logged_go targetIndex route :
  keeps P (updateRoute route) -> keeps P (go_onComplete targetIndex route).
Proof.
  intros Hup w Hw. unfold go_onComplete. apply Hup. by apply (logged_frame _ HL).
Qed.

Lemma logged_run_task t : keeps P (run_task t).
Proof.
  intros w Hw. unfold run_task, poll.
  destruct (instances w !! _); [by apply (logged_emits _ HL)|].
  destruct (isValid _ w); [|done]. by apply (logged_frame _ HL).
Qed.

Lemma logged_run_array cbs : keeps P (run_array cbs).
Proof.
  intros w Hw. unfold run_array. destruct (arrays w !! cbs) as [a|]; [|done].
  clear cbs. revert w Hw. induction a as [|t a IH]; intros w Hw; simpl; [done|].
  apply IH. by apply logged_run_task.
Qed.

(** The steps that neither start nor resume a navigation. *)
Lemma logged_other_step guardAct resolveAsyncComponents fuel op s s' :
  step_run guardAct resolveAsyncComponents fuel op s = None ->
  step guardAct resolveAsyncComponents fuel op s = Some s' ->
  P (world s) -> P (world s').
Proof.
  intros Hr Hs H0. destruct op; simpl in Hr, Hs; try done.
  - injection Hs as <-. by apply (logged_frame _ HL).
  - injection Hs as <-. simpl. unfold onReady.
    destruct (ready _); [by apply (logged_emits _ HL)|].
    destruct errorCb; by repeat (apply (logged_frame _ HL); [done|]).
  - injection Hs as <-. by apply (logged_frame _ HL).
  - destruct (inflight s !! i) as [[k|]|]; try done; by injection Hs as <-.
  - destruct (ticks (world s)); injection Hs as <-; [done|]. simpl.
    apply logged_run_array. by apply (logged_frame _ HL).
  - destruct (timers (world s)); injection Hs as <-; [done|]. simpl.
    apply logged_run_task. by apply (logged_frame _ HL).
  - injection Hs as <-. by apply (logged_frame _ HL).
  - injection Hs as <-. by apply (logged_frame _ HL).
Qed.

End LoggedProps.

Lemma commit_log_logged t0 c0 : Logged (commit_log t0 c0).
Proof.
  split.
  - intros evs Hq w (evs0 & Ht & Hc). exists (evs0 ++ evs). simpl. split.
    + by rewrite Ht, app_assoc.
    + by rewrite last_update_app, last_update_quiet.
  - intros f Hf w (evs0 & Ht & Hc). destruct (Hf w) as (Et & Ec & _).
    exists evs0. by rewrite Et, Ec.
Qed.

Lemma commit_log_updateRoute t0 c0 route : keeps (commit_log t0 c0) (updateRoute route).
Proof.
  intros w (evs0 & Ht & Hc). rewrite updateRoute_unfold.
  apply (logged_emits _ (commit_log_logged t0 c0)); [apply quiet_update_events|].
  exists (evs0 ++ [EvUpdateRoute route]). simpl. split.
  - by rewrite Ht, app_assoc.
  - by rewrite last_update_app.
Qed.

Lemma commit_log_step guardAct resolveAsyncComponents fuel op s s' :
  sys_known s -> step guardAct resolveAsyncComponents fuel op s = Some s' ->
  commit_log (trace (world s)) (current (this (world s))) (world s').
Proof.
  intros Hk Hs.
  set (t0 := trace (world s)). set (c0 := current (this (world s))).
  pose proof (commit_log_logged t0 c0) as HL.
  assert (commit_log t0 c0 (world s)) as H0.
  { exists []. by rewrite app_nil_r. }
  destruct (step_run guardAct resolveAsyncComponents fuel op s) as [o|] eqn:Hr.
  - eapply (step_run_world guardAct resolveAsyncComponents
              (commit_log t0 c0) (fun _ _ => True)); try done.
    + by apply logged_stable.
    + intros route oc. apply logged_onComplete; [done|apply commit_log_updateRoute].
    + intros oa err. by apply logged_onAbort.
    + intros targetIndex route. apply logged_go; [done|apply commit_log_updateRoute].
  - by eapply logged_other_step.
Qed.

Lemma uncommitted_logged t0 c0 : Logged (uncommitted t0 c0).
Proof.
  split.
  - intros evs Hq w (evs0 & Ht & Hq0 & Hc). exists (evs0 ++ evs). simpl.
    split; [by rewrite Ht, app_assoc|]. split; [by apply quiet_app|done].
  - intros f Hf w (evs0 & Ht & Hq & Hc). destruct (Hf w) as (Et & Ec & _).
    exists evs0. by rewrite Et, Ec.
Qed.

Lemma uncommitted_abort t0 c0 ctx err :
  known_ctx ctx -> keeps (uncommitted t0 c0) (abort (c_onAbort ctx) err).
Proof. apply logged_abort, uncommitted_logged. Qed.

Lemma matcher_made_logged rt t0 : Logged (matcher_made rt t0).
Proof.
  split.
  - intros evs Hq w (Hr & evs0 & Ht & H). split; [done|].
    exists (evs0 ++ evs). simpl. split; [by rewrite Ht, app_assoc|].
    intros route [Hin|Hin]%in_app_or; [by apply H|].
    by destruct (quiet_not_in evs route Hq).
  - intros f Hf w (Hr & evs0 & Ht & H). destruct (Hf w) as (Et & _ & Er).
    split; [congruence|]. exists evs0. by rewrite Et.
Qed.

Lemma matcher_made_updateRoute rt t0 location current_ :
  keeps (matcher_made rt t0) (updateRoute (r_match rt location current_)).
Proof.
  intros w (Hr & evs0 & Ht & H). rewrite updateRoute_unfold.
  apply (logged_emits _ (matcher_made_logged rt t0)); [apply quiet_update_events|].
  split; [done|]. exists (evs0 ++ [EvUpdateRoute (r_match rt location current_)]).
  simpl. split; [by rewrite Ht, app_assoc|].
  intros route [Hin|[[= <-]|[]]]%in_app_or; [by apply H|eauto].
Qed.

(** Navigations started through [push] or [replace] commit only routes
    made by the matcher. *)
Lemma push_replace_matcher_made guardAct resolveAsyncComponents rt t0 fuel :
  (forall location oc oa,
      sound (matcher_made rt t0) (matcher_made rt t0) (fun _ _ => True)
        (push guardAct resolveAsyncComponents fuel location oc oa)) /\
  (forall location oc oa,
      sound (matcher_made rt t0) (matcher_made rt t0) (fun _ _ => True)
        (replace guardAct resolveAsyncComponents fuel location oc oa)).
Proof.
  pose proof (matcher_made_logged rt t0) as HL.
  apply push_replace_sound; try done.
  - by apply logged_stable.
  - intros w0 location oc Hw0 Hoc. destruct Hw0 as [-> _].
    apply logged_onComplete; [done|apply matcher_made_updateRoute|done].
  - intros oa err. by apply logged_onAbort.
Qed.

(** C8. The current route changes only where [updateRoute] is entered,
    which no abort path does.  [updateRoute route] makes [route]
    current, touches no other field of the controller and leaves, in
    this order: its own entry, the call of the listener with [route]
    if one is registered, and the call of each after hook with
    [route] and the previous current route, in registration order.
    The abort closure of a known context leaves the current route as
    it is with no entry into [updateRoute].  Across every step of a
    reachable system the current route is that of the last
    [updateRoute] entered during the step, and is unchanged when
    there was none. *)
Theorem current_follows_updateRoute
    (guardAct : list Event -> GuardId -> Route -> Route -> GuardAct)
    (resolveAsyncComponents : list RouteRecord -> GuardId) (r : Router) :
  (forall route w,
      current (this (updateRoute route w)) = route /\
      set_current (current (this w)) (this (updateRoute route w)) = this w /\
      trace (updateRoute route w) =
        trace w ++ EvUpdateRoute route ::
          update_events (cb (this w)) (afterHooks (router w)) route (current (this w))) /\
  (forall ctx err w,
      known_ctx ctx ->
      current (this (abort (c_onAbort ctx) err w)) = current (this w) /\
      exists evs, trace (abort (c_onAbort ctx) err w) = trace w ++ evs /\
                  quiet evs = true) /\
  (forall fuel op s s',
      reachable guardAct resolveAsyncComponents r s ->
      step guardAct resolveAsyncComponents fuel op s = Some s' ->
      exists evs,
        trace (world s') = trace (world s) ++ evs /\
        current (this (world s')) = last_update evs (current (this (world s)))).
Proof.
  split; [|split].
  - intros route w. rewrite updateRoute_unfold. simpl. split; [done|].
    split; [by destruct w as [[] ? ? ? ? ? ?]|]. by rewrite <- app_assoc.
  - intros ctx err w Hk.
    destruct (uncommitted_abort (trace w) (current (this w)) ctx err Hk w)
      as (evs & Ht & Hq & Hc).
    { exists []. by rewrite app_nil_r. }
    split; [done|]. by exists evs.
  - intros fuel op s s' Hr Hs.
    apply (commit_log_step guardAct resolveAsyncComponents fuel op); [|done].
    by eapply reachable_known.
Qed.

(** ** The ready bookkeeping *)

Lemma drains_app evs1 evs2 : drains (evs1 ++ evs2) = drains evs1 ++ drains evs2.
Proof. apply filter_app. Qed.

Lemma drains_calm evs : calm evs = true -> drains evs = [].
Proof.
  induction evs as [|e evs IH]; simpl; [done|].
  intros [He Hq]%andb_prop. unfold drains. rewrite filter_cons.
  destruct (decide (is_drain e = true)) as [E|_]; [by rewrite E in He|].
  by apply IH.
Qed.

Lemma core_calm evs : forallb core_event evs = true -> calm evs = true.
Proof.
  induction evs as [|e evs IH]; simpl; [done|].
  intros [He Hq]%andb_prop. rewrite IH; [|done]. by destruct e.
Qed.

Lemma calm_app evs1 evs2 :
  calm evs1 = true -> calm evs2 = true -> calm (evs1 ++ evs2) = true.
Proof. unfold calm. intros H1 H2. rewrite forallb_app. by rewrite H1, H2. Qed.

Lemma calm_update_events f hooks route prev :
  calm (update_events f hooks route prev) = true.
Proof.
  unfold update_events. apply calm_app; [by destruct f|].
  induction hooks as [|[h|] hooks IH]; simpl; done.
Qed.

Lemma drains_ready_map route l :
  drains (map (fun cb => EvReadyCb cb (Some route)) l) =
  map (fun cb => EvReadyCb cb (Some route)) l.
Proof.
  induction l as [|x l IH]; [done|]. simpl. unfold drains in *.
  rewrite filter_cons. simpl. by rewrite IH.
Qed.

Lemma drains_ready_error_map err l :
  drains (map (fun cb => EvReadyErrorCb cb err) l) =
  map (fun cb => EvReadyErrorCb cb err) l.
Proof.
  induction l as [|x l IH]; [done|]. simpl. unfold drains in *.
  rewrite filter_cons. simpl. by rewrite IH.
Qed.

(** What [transitionTo]'s completion callback does before it looks at
    the ready flag. *)
Lemma onComplete_prefix route oc w :
  known_onComplete oc ->
  let w1 := ensureURL false
              (match oc with Some f => f route (updateRoute route w)
                           | None => updateRoute route w end) in
  exists evs, calm evs = true /\
    trace w1 = trace w ++ EvUpdateRoute route :: evs /\
    ready (this w1) = ready (this w) /\
    readyCbs (this w1) = readyCbs (this w) /\
    readyErrorCbs (this w1) = readyErrorCbs (this w).
Proof.
  intros Hoc. rewrite updateRoute_unfold.
  set (ue := update_events _ _ _ _).
  assert (calm ue = true) as Hue by apply calm_update_events.
  destruct Hoc as [|f|[c|]|[c|]]; simpl.
  - exists (ue ++ [EvEnsureURL false]). split; [by apply calm_app|].
    by rewrite <- !app_assoc.
  - exists (ue ++ [EvOnComplete f route; EvEnsureURL false]).
    split; [by apply calm_app|]. by rewrite <- !app_assoc.
  - exists (ue ++ [EvOnComplete c route; EvEnsureURL false]).
    split; [by apply calm_app|]. by rewrite <- !app_assoc.
  - exists (ue ++ [EvEnsureURL false]). split; [by apply calm_app|].
    by rewrite <- !app_assoc.
  - exists (ue ++ [EvOnComplete c route; EvEnsureURL false]).
    split; [by apply calm_app|]. by rewrite <- !app_assoc.
  - exists (ue ++ [EvEnsureURL false]). split; [by apply calm_app|].
    by rewrite <- !app_assoc.
Qed.

Section ReadyLog.
Variables (t0 : list Event) (h0 : History).

Lemma ready_log_emits evs :
  calm evs = true -> keeps (ready_log t0 h0) (emits evs).
Proof.
  intros Hq w (Hrc & Hre & evs0 & Ht & H). split; [done|]. split; [done|].
  exists (evs0 ++ evs). simpl. split; [by rewrite Ht, app_assoc|].
  rewrite drains_app, (drains_calm evs Hq), app_nil_r.
  destruct (ready h0); [done|].
  destruct H as [H|[Hr [(route & Hin & Hd)|H]]]; [by left|right..].
  - split; [done|]. left. exists route. split; [|done].
    apply in_or_app. by left.
  - split; [done|]. by right.
Qed.

Lemma ready_log_frame (f : Act) :
  (forall w, trace (f w) = trace w /\ ready (this (f w)) = ready (this w) /\
             readyCbs (this (f w)) = readyCbs (this w) /\
             readyErrorCbs (this (f w)) = readyErrorCbs (this w)) ->
  keeps (ready_log t0 h0) f.
Proof.
  intros Hf w (Hrc & Hre & evs0 & Ht & H).
  destruct (Hf w) as (Et & Er & Ec & Ee).
  unfold ready_log. rewrite Et, Er, Ec, Ee. eauto.
Qed.

Lemma ready_log_stable : Stable (ready_log t0 h0).
Proof.
  split.
  - intros evs H. by apply ready_log_emits, core_calm.
  - intros p. by apply ready_log_frame.
  - intros a. by apply ready_log_frame.
  - intros t. by apply ready_log_frame.
Qed.

Lemma ready_log_onComplete route oc :
  known_onComplete oc -> keeps (ready_log t0 h0) (transitionTo_onComplete route oc).
Proof.
  intros Hoc w (Hrc & Hre & evs0 & Ht & H). unfold transitionTo_onComplete.
  destruct (onComplete_prefix route oc w Hoc) as (evs1 & Hcalm & Ht1 & Hr1 & Hc1 & He1).
  revert Ht1 Hr1 Hc1 He1.
  generalize (ensureURL false
                (match oc with Some f => f route (updateRoute route w)
                             | None => updateRoute route w end)).
  intros w1 Ht1 Hr1 Hc1 He1.
  assert (drains (evs0 ++ EvUpdateRoute route :: evs1) = drains evs0) as Hd.
  { rewrite drains_app. change (EvUpdateRoute route :: evs1) with ([EvUpdateRoute route] ++ evs1).
    rewrite drains_app, (drains_calm evs1 Hcalm). simpl. by rewrite app_nil_r. }
  destruct (ready (this w1)) eqn:Er; simpl.
  - split; [congruence|]. split; [congruence|].
    exists (evs0 ++ EvUpdateRoute route :: evs1).
    split; [by rewrite Ht1, Ht, <- app_assoc|]. rewrite Hd, Er.
    rewrite <- Hr1 in H.
    destruct (ready h0); [done|].
    destruct H as [[H _]|[Hr [(route' & Hin & Hd')|H]]]; [congruence|right..].
    + split; [done|]. left. exists route'. split; [|done].
      apply in_or_app. by left.
    + split; [done|]. by right.
  - split; [simpl; congruence|]. split; [simpl; congruence|].
    exists ((evs0 ++ EvUpdateRoute route :: evs1) ++
            map (fun cb => EvReadyCb cb (Some route)) (readyCbs (this w1))).
    simpl. split; [by rewrite Ht1, Ht, <- !app_assoc|].
    rewrite drains_app, Hd, drains_ready_map.
    rewrite <- Hr1 in H.
    destruct (ready h0); [destruct H; congruence|].
    destruct H as [[_ H]|[Hr _]]; [|congruence]. right. split; [done|].
    left. exists route. rewrite H. simpl. split; [|congruence].
    apply in_or_app. left. apply in_or_app. right. by left.
Qed.

Lemma ready_log_onAbort oa err :
  known_onAbort oa -> keeps (ready_log t0 h0) (transitionTo_onAbort oa err).
Proof.
  intros Hoa w Hw. unfold transitionTo_onAbort.
  assert (ready_log t0 h0 (match oa with Some f => f err w | None => w end)) as H.
  { destruct Hoa; [done|]. by apply ready_log_emits. }
  revert H. generalize (match oa with Some f => f err w | None => w end).
  clear. intros w Hw.
  destruct (truthy err) eqn:Etr; simpl; [|done].
  destruct (ready (this w)) eqn:Er; simpl; [done|].
  destruct Hw as (Hrc & Hre & evs0 & Ht & H).
  split; [done|]. split; [done|].
  exists (evs0 ++ map (fun cb => EvReadyErrorCb cb err) (readyErrorCbs (this w))).
  simpl. split; [by rewrite Ht, <- app_assoc|].
  rewrite drains_app, drains_ready_error_map.
  destruct (ready h0); [destruct H; congruence|].
  destruct H as [[_ H]|[Hr _]]; [|congruence]. right. split; [done|].
  right. exists err. rewrite H. simpl. split; [done|congruence].
Qed.

Lemma ready_log_go targetIndex route :
  keeps (ready_log t0 h0) (go_onComplete targetIndex route).
Proof.
  intros w Hw. unfold go_onComplete. rewrite updateRoute_unfold.
  apply ready_log_emits; [apply calm_update_events|].
  apply ready_log_frame; [done|].
  apply ready_log_emits; [done|]. by apply ready_log_frame.
Qed.

Lemma ready_log_run_task t : keeps (ready_log t0 h0) (run_task t).
Proof.
  intros w Hw. unfold run_task, poll.
  destruct (instances w !! _); [by apply ready_log_emits|].
  destruct (isValid _ w); [|done]. by apply ready_log_frame.
Qed.

Lemma ready_log_run_array cbs : keeps (ready_log t0 h0) (run_array cbs).
Proof.
  intros w Hw. unfold run_array. destruct (arrays w !! cbs) as [a|]; [|done].
  clear cbs. revert w Hw. induction a as [|t a IH]; intros w Hw; simpl; [done|].
  apply IH. by apply ready_log_run_task.
Qed.

End ReadyLog.

Lemma ready_log_refl w : ready_log (trace w) (this w) w.
Proof.
  split; [done|]. split; [done|]. exists []. rewrite app_nil_r. split; [done|].
  destruct (ready (this w)) eqn:E; [done|]. by left.
Qed.

Lemma ready_log_step guardAct resolveAsyncComponents fuel op s s' :
  sys_known s -> step guardAct resolveAsyncComponents fuel op s = Some s' ->
  (forall f errorCb, op <> OpOnReady f errorCb) ->
  ready_log (trace (world s)) (this (world s)) (world s').
Proof.
  intros Hk Hs Hop.
  set (t0 := trace (world s)). set (h0 := this (world s)).
  assert (ready_log t0 h0 (world s)) as H0 by apply ready_log_refl.
  destruct (step_run guardAct resolveAsyncComponents fuel op s) as [o|] eqn:Hr.
  - eapply (step_run_world guardAct resolveAsyncComponents
              (ready_log t0 h0) (fun _ _ => True)); try done.
    + apply ready_log_stable.
    + apply ready_log_onComplete.
    + intros oa err. apply ready_log_onAbort.
    + apply ready_log_go.
  - destruct op; simpl in Hr, Hs; try done.
    + injection Hs as <-. by apply ready_log_frame.
    + by destruct (Hop f errorCb).
    + injection Hs as <-. by apply ready_log_frame.
    + destruct (inflight s !! i) as [[k|]|]; try done; by injection Hs as <-.
    + destruct (ticks (world s)); injection Hs as <-; [done|]. simpl.
      apply ready_log_run_array. by apply ready_log_frame.
    + destruct (timers (world s)); injection Hs as <-; [done|]. simpl.
      apply ready_log_run_task. by apply ready_log_frame.
    + injection Hs as <-. by apply ready_log_frame.
    + injection Hs as <-. by apply ready_log_frame.
Qed.

Lemma steps_reachable guardAct resolveAsyncComponents r fuel ops s s' :
  reachable guardAct resolveAsyncComponents r s ->
  steps guardAct resolveAsyncComponents fuel ops s = Some s' ->
  reachable guardAct resolveAsyncComponents r s'.
Proof.
  revert s. induction ops as [|op ops IH]; intros s Hr; simpl.
  - by intros [= <-].
  - destruct (step _ _ fuel op s) as [s1|] eqn:E; [|done].
    apply IH. by eapply reachable_step.
Qed.

(** C7 (as amended). A registration made while the ready flag is set
    calls the callback at once, with no argument, and queues nothing; a
    registration made while it is unset only queues.  Across every step
    of a reachable system the flag, once set, stays set; and across
    every step other than a registration the account of [ready_log]
    holds: nothing is drained while the flag keeps its value, and a
    step that sets the flag drains exactly one queue, each of its
    callbacks once: the ready queue with a route committed in that
    step, or the ready-error queue with a truthy error value. *)
Theorem ready_queues_drained_once
    (guardAct : list Event -> GuardId -> Route -> Route -> GuardAct)
    (resolveAsyncComponents : list RouteRecord -> GuardId) (r : Router) :
  (forall f errorCb w,
      ready (this w) = true -> onReady f errorCb w = emit (EvReadyCb f None) w) /\
  (forall f errorCb w,
      ready (this w) = false ->
      trace (onReady f errorCb w) = trace w /\
      ready (this (onReady f errorCb w)) = false /\
      readyCbs (this (onReady f errorCb w)) = readyCbs (this w) ++ [f] /\
      readyErrorCbs (this (onReady f errorCb w)) =
        readyErrorCbs (this w) ++ match errorCb with Some e => [e] | None => [] end) /\
  (forall fuel op s s',
      reachable guardAct resolveAsyncComponents r s ->
      step guardAct resolveAsyncComponents fuel op s = Some s' ->
      (ready (this (world s)) = true -> ready (this (world s')) = true) /\
      ((forall f errorCb, op <> OpOnReady f errorCb) ->
       ready_log (trace (world s)) (this (world s)) (world s'))).
Proof.
  split; [|split].
  - intros f errorCb w Hr. unfold onReady. by rewrite Hr.
  - intros f errorCb w Hr. unfold onReady. rewrite Hr.
    destruct errorCb; simpl; by rewrite ?app_nil_r.
  - intros fuel op s s' Hreach Hs.
    assert (sys_known s) as Hk by (by eapply reachable_known).
    assert ((forall f errorCb, op <> OpOnReady f errorCb) ->
            ready_log (trace (world s)) (this (world s)) (world s')) as Hlog.
    { by apply (ready_log_step guardAct resolveAsyncComponents fuel). }
    split; [|done]. intros Hr.
    assert ((exists f errorCb, op = OpOnReady f errorCb) \/
            (forall f errorCb, op <> OpOnReady f errorCb)) as [(f & errorCb & ->)|Hne].
    { destruct op; try (right; intros; discriminate). left. eauto. }
    + simpl in Hs. injection Hs as <-. simpl. unfold onReady. by rewrite Hr.
    + destruct (Hlog Hne) as (_ & _ & evs & _ & H).
      rewrite Hr in H. tauto.
Qed.

(** ** The cursor of the stack *)

Lemma slice_bound_le len i : slice_bound len i <= len.
Proof. unfold slice_bound. destruct (i <? 0)%Z eqn:E; lia. Qed.

Lemma slice_length_from_0 {A} (l : list A) e :
  length (slice l 0 e) = slice_bound (length l) e.
Proof.
  unfold slice. assert (slice_bound (length l) 0 = 0) as -> by (unfold slice_bound; simpl; lia).
  rewrite drop_0, Nat.sub_0_r, length_take. pose proof (slice_bound_le (length l) e). lia.
Qed.

Lemma cursor_ok_frame (f : Act) :
  (forall w, stack (this (f w)) = stack (this w) /\ index (this (f w)) = index (this w)) ->
  keeps cursor_ok f.
Proof. intros Hf w Hw. unfold cursor_ok. destruct (Hf w) as [-> ->]. done. Qed.

Lemma cursor_ok_stable : Stable cursor_ok.
Proof. split; intros; by apply cursor_ok_frame. Qed.

Lemma updateRoute_stack route w :
  stack (this (updateRoute route w)) = stack (this w) /\
  index (this (updateRoute route w)) = index (this w).
Proof. by rewrite updateRoute_unfold. Qed.

Lemma push_onComplete_cursor c route w :
  cursor_ok w ->
  cursor_ok (push_onComplete c route w) /\
  index (this (push_onComplete c route w)) =
    (Z.of_nat (length (stack (this (push_onComplete c route w)))) - 1)%Z.
Proof.
  unfold cursor_ok, push_onComplete. intros Hw.
  assert (length (slice (stack (this w)) 0 (index (this w) + 1) ++ [route])
          = Z.to_nat (index (this w) + 2)) as Hlen.
  { rewrite length_app, slice_length_from_0. simpl. unfold slice_bound.
    destruct (index (this w) + 1 <? 0)%Z eqn:E; lia. }
  destruct c; simpl; rewrite Hlen; lia.
Qed.

Lemma replace_onComplete_cursor c route w :
  cursor_ok w -> cursor_ok (replace_onComplete c route w).
Proof.
  unfold cursor_ok, replace_onComplete. intros Hw.
  assert (Z.of_nat (length (slice (stack (this w)) 0 (index (this w)) ++ [route]))
          >= index (this w) + 1)%Z as Hlen.
  { rewrite length_app, slice_length_from_0. simpl. unfold slice_bound.
    destruct (index (this w) <? 0)%Z eqn:E; lia. }
  destruct c; simpl; lia.
Qed.

Lemma cursor_ok_onComplete route oc :
  known_onComplete oc -> keeps cursor_ok (transitionTo_onComplete route oc).
Proof.
  intros Hoc w Hw. unfold transitionTo_onComplete.
  assert (cursor_ok (updateRoute route w)) as H1.
  { revert Hw. apply cursor_ok_frame. apply updateRoute_stack. }
  revert H1. generalize (updateRoute route w). clear w Hw. intros w Hw.
  assert (cursor_ok (ensureURL false
            (match oc with Some f => f route w | None => w end))) as H.
  { apply cursor_ok_frame; [done|].
    destruct Hoc as [|f|c|c]; [done|by apply cursor_ok_frame| |].
    - by apply push_onComplete_cursor.
    - by apply replace_onComplete_cursor. }
  revert H. generalize (ensureURL false (match oc with Some f => f route w | None => w end)).
  clear. intros w Hw. destruct (ready (this w)); simpl; [done|].
  by do 2 (apply cursor_ok_frame; [done|]).
Qed.

Lemma cursor_ok_onAbort oa err :
  known_onAbort oa -> keeps cursor_ok (transitionTo_onAbort oa err).
Proof.
  intros Hoa w Hw. unfold transitionTo_onAbort.
  assert (cursor_ok (match oa with Some f => f err w | None => w end)) as H.
  { destruct Hoa; [done|]. by apply cursor_ok_frame. }
  revert H. generalize (match oa with Some f => f err w | None => w end).
  clear. intros w Hw. destruct (truthy err && negb (ready (this w))); [|done].
  by do 2 (apply cursor_ok_frame; [done|]).
Qed.

Lemma go_onComplete_cursor targetIndex route w :
  (0 <= targetIndex < Z.of_nat (length (stack (this w))))%Z ->
  cursor_ok (go_onComplete targetIndex route w).
Proof.
  intros Hb. unfold go_onComplete, cursor_ok.
  destruct (updateRoute_stack route (on_this (set_index targetIndex) w)) as [-> ->].
  simpl. lia.
Qed.

Lemma run_task_stack t w :
  stack (this (run_task t w)) = stack (this w) /\
  index (this (run_task t w)) = index (this w).
Proof.
  unfold run_task, poll. destruct (instances w !! _); [done|].
  by destruct (isValid _ w).
Qed.

Lemma run_array_stack cbs w :
  stack (this (run_array cbs w)) = stack (this w) /\
  index (this (run_array cbs w)) = index (this w).
Proof.
  unfold run_array. destruct (arrays w !! cbs) as [a|]; [|done]. clear cbs.
  revert w. induction a as [|t a IH]; intros w; simpl; [done|].
  destruct (IH (run_task t w)) as [-> ->]. apply run_task_stack.
Qed.

Lemma array_push_stack c t w : stack (this (array_push c t w)) = stack (this w).
Proof. unfold array_push. by destruct (arrays w !! c). Qed.

Section Sequential.
Variable guardAct : list Event -> GuardId -> Route -> Route -> GuardAct.
Variable resolveAsyncComponents : list RouteRecord -> GuardId.

Local Abbreviation Qf :=
  (fun (w : World) (k : Kont) => completion_fits (k_ctx k) (stack (this w))).

Lemma transition_fits route current_ oc oa st :
  known_onComplete oc -> completion_fits (transition_ctx route current_ oc oa) st.
Proof. intros Hoc w _ Hw. simpl. by apply cursor_ok_onComplete. Qed.

Lemma go_fits route current_ targetIndex st :
  (0 <= targetIndex < Z.of_nat (length st))%Z ->
  completion_fits (go_ctx route current_ targetIndex) st.
Proof. intros Hb w Hst _. simpl. apply go_onComplete_cursor. by rewrite Hst. Qed.

Lemma push_replace_cursor fuel :
  (forall location oc oa,
      sound cursor_ok cursor_ok Qf
        (push guardAct resolveAsyncComponents fuel location oc oa)) /\
  (forall location oc oa,
      sound cursor_ok cursor_ok Qf
        (replace guardAct resolveAsyncComponents fuel location oc oa)).
Proof.
  apply push_replace_sound.
  - apply cursor_ok_stable.
  - intros w k c t H. by rewrite array_push_stack.
  - intros w0 location oc _. apply cursor_ok_onComplete.
  - intros oa err. apply cursor_ok_onAbort.
  - intros. by apply transition_fits.
Qed.

Lemma within_stable st : Stable (within st).
Proof.
  split; intros; intros w [Hc Hs]; (split; [by apply cursor_ok_stable|done]).
Qed.

Lemma go_cursor fuel n w :
  cursor_ok w -> good cursor_ok Qf (go guardAct resolveAsyncComponents fuel n w).
Proof.
  intros Hw. unfold go, go_body.
  destruct (_ || _) eqn:Hb; [done|].
  destruct (stack (this w) !! _) as [route|]; [|done].
  apply orb_false_elim in Hb as [Hb1 Hb2].
  assert (0 <= index (this w) + n < Z.of_nat (length (stack (this w))))%Z as Hb by lia.
  apply (confirmTransition_sound guardAct resolveAsyncComponents
           cursor_ok (within (stack (this w))) Qf); try done.
  - apply cursor_ok_stable.
  - apply within_stable.
  - by intros w' [].
  - intros w' k c t H. by rewrite array_push_stack.
  - intros to w' Hw'. by apply (push_replace_cursor fuel).
  - intros to w' Hw'. by apply (push_replace_cursor fuel).
  - intros w' [_ Hst]. apply go_onComplete_cursor. by rewrite Hst.
  - intros current_ w' stage hook rest [_ Hst] _ _. simpl. rewrite Hst.
    by apply go_fits.
Qed.

Lemma resume_cursor fuel k v w :
  known_ctx (k_ctx k) -> completion_fits (k_ctx k) (stack (this w)) ->
  cursor_ok w -> good cursor_ok Qf (resume guardAct resolveAsyncComponents fuel k v w).
Proof.
  intros Hk Hfit Hw. unfold resume.
  apply (resume_body_sound guardAct cursor_ok (within (stack (this w))) Qf)
    with (ctx := k_ctx k); try done.
  - apply cursor_ok_stable.
  - apply within_stable.
  - by intros w' [].
  - intros w' k' c t H. by rewrite array_push_stack.
  - intros to w' Hw'. by apply (push_replace_cursor fuel).
  - intros to w' Hw'. by apply (push_replace_cursor fuel).
  - intros w' [Hc' Hst']. by apply Hfit.
  - destruct Hk; simpl; [|done]. intros f [= <-] err. by apply cursor_ok_onAbort.
  - intros w' stage hook rest [Hc' Hst'] _ _. simpl. by rewrite Hst'.
Qed.

End Sequential.

Lemma seq_inv_settle pool o s :
  (forall i k, pool !! i <> Some (Some k)) ->
  good cursor_ok (fun w k => completion_fits (k_ctx k) (stack (this w))) o ->
  settle pool o = Some s -> sys_known s -> seq_inv s.
Proof.
  intros Hpool Hg Hset Hk.
  destruct (settle_inv _ _ _ Hset) as [[-> E]|(k & -> & E)]; simpl in Hg.
  - split; [done|]. split; [done|]. intros i k. rewrite E. intros H.
    by destruct (Hpool i k).
  - destruct Hg as [Hc Hfit]. split; [done|]. split; [done|].
    assert (forall j k', (pool ++ [Some k]) !! j = Some (Some k') ->
                         j = length pool /\ k' = k) as Hl.
    { intros j k' H. apply lookup_app_Some in H as [H|[Hge H]];
        [by destruct (Hpool j k')|].
      apply list_lookup_singleton_Some in H as [H [= <-]]. split; [lia|done]. }
    intros i k0. rewrite E. intros H. destruct (Hl _ _ H) as [-> ->].
    split; [done|]. intros j k' H'. by destruct (Hl _ _ H').
Qed.

Lemma seq_inv_act (f : Act) s :
  (forall w, stack (this (f w)) = stack (this w) /\ index (this (f w)) = index (this w)) ->
  seq_inv s -> seq_inv {| world := f (world s); inflight := inflight s |}.
Proof.
  intros Hf (Hc & Hk & Hl). split; [by apply cursor_ok_frame|]. split; [done|].
  simpl. destruct (Hf (world s)) as [-> _]. done.
Qed.

Lemma seq_inv_step guardAct resolveAsyncComponents fuel op s s' :
  seq_inv s -> (starts_navigation op = true -> idle s) ->
  step guardAct resolveAsyncComponents fuel op s = Some s' ->
  seq_inv s'.
Proof.
  intros Hinv Hidle Hs.
  assert (sys_known s') as Hk'.
  { eapply step_known; [|done]. apply Hinv. }
  destruct Hinv as (Hc & Hk & Hl).
  assert (forall f : Act,
            (forall w, stack (this (f w)) = stack (this w) /\
                       index (this (f w)) = index (this w)) ->
            Some {| world := f (world s); inflight := inflight s |} = Some s' ->
            seq_inv s') as Hact.
  { intros f Hf [= <-]. by apply (seq_inv_act f s). }
  destruct op; simpl in Hs.
  - apply (seq_inv_settle (inflight s) _ s' (Hidle eq_refl)) in Hs; try done.
    by apply (push_replace_cursor guardAct resolveAsyncComponents fuel).
  - apply (seq_inv_settle (inflight s) _ s' (Hidle eq_refl)) in Hs; try done.
    by apply (push_replace_cursor guardAct resolveAsyncComponents fuel).
  - apply (seq_inv_settle (inflight s) _ s' (Hidle eq_refl)) in Hs; try done.
    by apply go_cursor.
  - apply (seq_inv_settle (inflight s) _ s' (Hidle eq_refl)) in Hs; try done.
    apply (transitionTo_sound guardAct resolveAsyncComponents cursor_ok); try done.
    + apply cursor_ok_stable.
    + intros w k c t H. by rewrite array_push_stack.
    + intros w0 location0 oc0 _. apply cursor_ok_onComplete.
    + intros oa err. apply cursor_ok_onAbort.
    + intros. by apply transition_fits.
    + intros to w Hw. by apply (push_replace_cursor guardAct resolveAsyncComponents fuel).
    + intros to w Hw. by apply (push_replace_cursor guardAct resolveAsyncComponents fuel).
    + apply known_user_onComplete.
    + apply known_user_onAbort.
  - by apply (Hact (listen f)).
  - apply (Hact (onReady f errorCb)); [|done]. intros w. unfold onReady.
    destruct (ready (this w)); [done|]. by destruct errorCb.
  - by apply (Hact (onError f)).
  - destruct (inflight s !! i) as [[k|]|] eqn:E;
      try (injection Hs as <-; by split).
    destruct (Hl i k E) as [Hfit Huniq].
    apply (seq_inv_settle (<[i := None]> (inflight s)) _ s') in Hs; try done.
    + intros j k' Hj. destruct (decide (i = j)) as [->|Hne].
      * rewrite list_lookup_insert_eq in Hj; [done|]. by eapply lookup_lt_Some.
      * rewrite list_lookup_insert_ne in Hj; [|done]. by apply Huniq in Hj.
    + apply resume_cursor; try done. by apply (Hk i).
  - destruct (ticks (world s)) as [|cbs rest]; injection Hs as <-; [by split|].
    apply (seq_inv_act (fun w => run_array cbs (set_ticks rest w)) s); [|by split].
    intros w. exact (run_array_stack cbs (set_ticks rest w)).
  - destruct (timers (world s)) as [|t rest]; injection Hs as <-; [by split|].
    apply (seq_inv_act (fun w => run_task (snd t) (set_timers rest w)) s); [|by split].
    intros w. exact (run_task_stack (snd t) (set_timers rest w)).
  - by eapply Hact; [|exact Hs].
  - by eapply Hact; [|exact Hs].
Qed.

Lemma sequential_inv guardAct resolveAsyncComponents r s :
  sequential guardAct resolveAsyncComponents r s -> seq_inv s.
Proof.
  induction 1 as [|fuel op s s' _ IH Hidle Hs].
  - split; [unfold cursor_ok; simpl; lia|]. split.
    + intros i k H. simpl in H. by rewrite lookup_nil in H.
    + intros i k H. simpl in H. by rewrite lookup_nil in H.
  - by eapply seq_inv_step.
Qed.

(** C10. Let navigations follow one another, each started only when
    no guard of an earlier one is still waiting, with any guards and
    any other events in between.  Then in every state reached from
    the initial one the cursor satisfies -1 <= index <= length - 1.
    The bounds check of [go] makes its read of the stack succeed.
    When the completion callback of [push] has run on such a state,
    the cursor is on the last element; those of [replace] and of [go]
    (the latter for an index within the stack) also keep the cursor
    within the stack. *)
Theorem cursor_within_stack
    (guardAct : list Event -> GuardId -> Route -> Route -> GuardAct)
    (resolveAsyncComponents : list RouteRecord -> GuardId) (r : Router) :
  (forall s, sequential guardAct resolveAsyncComponents r s -> cursor_ok (world s)) /\
  (forall w n,
      ((index (this w) + n <? 0)%Z
       || (index (this w) + n >=? Z.of_nat (length (stack (this w))))%Z) = false ->
      is_Some (stack (this w) !! Z.to_nat (index (this w) + n))) /\
  (forall c route w,
      cursor_ok w ->
      cursor_ok (push_onComplete c route w) /\
      index (this (push_onComplete c route w)) =
        (Z.of_nat (length (stack (this (push_onComplete c route w)))) - 1)%Z) /\
  (forall c route w, cursor_ok w -> cursor_ok (replace_onComplete c route w)) /\
  (forall targetIndex route w,
      (0 <= targetIndex < Z.of_nat (length (stack (this w))))%Z ->
      cursor_ok (go_onComplete targetIndex route w)).
Proof.
  split; [|split; [|split; [|split]]].
  - intros s H. apply (sequential_inv guardAct resolveAsyncComponents r s H).
  - intros w n H. apply orb_false_elim in H as [H1 H2].
    apply lookup_lt_is_Some. lia.
  - intros c route w. apply push_onComplete_cursor.
  - intros c route w. apply replace_onComplete_cursor.
  - intros targetIndex route w. apply go_onComplete_cursor.
Qed.

(** ** Single reactions of the result handler *)

Lemma emits_nil w : emits [] w = w.
Proof. destruct w. unfold emits. simpl. by rewrite app_nil_r. Qed.

Lemma emits_emits evs1 evs2 w : emits evs2 (emits evs1 w) = emits (evs1 ++ evs2) w.
Proof. unfold emits. simpl. by rewrite app_assoc. Qed.

Lemma user_abort_silent oa w :
  abort (Some (transitionTo_onAbort (option_map user_onAbort oa))) VUndefined w =
  emits (onAbort_events oa VUndefined) w.
Proof. destruct oa; simpl; [done|]. by rewrite emits_nil. Qed.

Lemma user_abort_false oa w :
  abort (Some (transitionTo_onAbort (option_map user_onAbort oa))) (VBool false) w =
  emits (onAbort_events oa (VBool false)) w.
Proof. destruct oa; simpl; [done|]. by rewrite emits_nil. Qed.

Lemma hookNext_not_function push_ replace_ ctx hook next v w :
  typeof_function v = false ->
  hookNext push_ replace_ ctx hook next v w = resultHandler push_ replace_ ctx next v w.
Proof.
  intros Hv. destruct hook; simpl; [done|].
  destruct (resultHandler _ _ _ _ _ _) as [o|]; [|done]. by destruct v.
Qed.

(** C5. When the target is the same location as the current one
    (same path, query and hash) and matches as many records,
    [confirmTransition] only resyncs the address backend and aborts
    with no error: no guard is invoked, the pending slot and the
    current route are untouched, nothing is committed.  For a call
    through [transitionTo] the whole effect is the resync followed by
    the user abort callback, if any, called with no error; for [go] it
    is the resync alone. *)
Theorem same_route_short_circuit
    (guardAct : list Event -> GuardId -> Route -> Route -> GuardAct)
    (resolveAsyncComponents : list RouteRecord -> GuardId)
    (push_ replace_ : Value -> Run) (route : Route) (w : World)
    (Hsame : isSameRoute route (current (this w)) = true)
    (Hcount : length (matched route) = length (matched (current (this w)))) :
  (forall onComplete onAbort,
      confirmTransition guardAct resolveAsyncComponents push_ replace_
        route onComplete onAbort w =
      Some (Settled (abort onAbort VUndefined (ensureURL false w)))) /\
  (forall oc oa,
      confirmTransition guardAct resolveAsyncComponents push_ replace_ route
        (fun _ => transitionTo_onComplete route oc)
        (Some (transitionTo_onAbort (option_map user_onAbort oa))) w =
      Some (Settled (emits (EvEnsureURL false :: onAbort_events oa VUndefined) w))) /\
  (forall targetIndex,
      confirmTransition guardAct resolveAsyncComponents push_ replace_ route
        (fun _ => go_onComplete targetIndex route) None w =
      Some (Settled (emit (EvEnsureURL false) w))).
Proof.
  assert (forall onComplete onAbort,
      confirmTransition guardAct resolveAsyncComponents push_ replace_
        route onComplete onAbort w =
      Some (Settled (abort onAbort VUndefined (ensureURL false w)))) as H.
  { intros onComplete onAbort. unfold confirmTransition.
    by rewrite Hsame, Hcount, Nat.eqb_refl. }
  split; [done|]. split.
  - intros oc oa. rewrite H, user_abort_silent. unfold ensureURL, emit.
    by rewrite emits_emits.
  - intros targetIndex. by rewrite H.
Qed.

(** C3 (as amended). When a guard calls its continuation with [false]
    the address backend is resynced with the force flag and the
    transition aborts with the value [false]: no global error callback
    is called, the user abort callback of the call, if any, is called
    once with [false], and nothing else changes: the current route,
    the pending slot, the ready flag and the queues stay as they are.
    This holds when the guard answers at once and when a suspended
    guard answers later, for a transition started through
    [transitionTo] and for one started by [go] (which has no abort
    callback). *)
Theorem veto_false_aborts
    (guardAct : list Event -> GuardId -> Route -> Route -> GuardAct)
    (resolveAsyncComponents : list RouteRecord -> GuardId)
    (push_ replace_ : Value -> Run) :
  (forall route current_ oc oa stage hook next rest w,
      is_pending route w = true ->
      guardAct (trace w) (hook_guard hook) route current_ = Call (VBool false) ->
      iterator guardAct push_ replace_
        (transition_ctx route current_ oc (option_map user_onAbort oa))
        stage hook next rest w =
      Some (Settled (emits (EvHook (hook_guard hook) route current_ ::
                            EvEnsureURL true :: onAbort_events oa (VBool false)) w))) /\
  (forall route current_ targetIndex stage hook next rest w,
      is_pending route w = true ->
      guardAct (trace w) (hook_guard hook) route current_ = Call (VBool false) ->
      iterator guardAct push_ replace_ (go_ctx route current_ targetIndex)
        stage hook next rest w =
      Some (Settled (emits [EvHook (hook_guard hook) route current_;
                            EvEnsureURL true] w))) /\
  (forall route current_ oc oa stage hook rest w,
      resume_body guardAct push_ replace_
        {| k_ctx := transition_ctx route current_ oc (option_map user_onAbort oa);
           k_stage := stage; k_hook := hook; k_rest := rest |} (VBool false) w =
      Some (Settled (emits (EvEnsureURL true :: onAbort_events oa (VBool false)) w))) /\
  (forall route current_ targetIndex stage hook rest w,
      resume_body guardAct push_ replace_
        {| k_ctx := go_ctx route current_ targetIndex;
           k_stage := stage; k_hook := hook; k_rest := rest |} (VBool false) w =
      Some (Settled (emit (EvEnsureURL true) w))).
Proof.
  split; [|split; [|split]].
  - intros route current_ oc oa stage hook next rest w Hp Hact.
    unfold iterator. cbn [c_route c_current transition_ctx]. rewrite Hp, Hact.
    cbn [negb]. rewrite hookNext_not_function; [|done]. unfold resultHandler.
    cbn [is_false isError orb c_onAbort transition_ctx].
    rewrite user_abort_false. unfold ensureURL, emit. by rewrite !emits_emits.
  - intros route current_ targetIndex stage hook next rest w Hp Hact.
    unfold iterator. cbn [c_route c_current go_ctx]. rewrite Hp, Hact.
    cbn [negb]. rewrite hookNext_not_function; [|done]. unfold resultHandler.
    cbn [is_false isError orb c_onAbort go_ctx abort].
    unfold ensureURL, emit. by rewrite !emits_emits.
  - intros route current_ oc oa stage hook rest w. unfold resume_body.
    cbn [k_ctx k_hook k_rest k_stage].
    rewrite hookNext_not_function; [|done]. unfold resultHandler.
    cbn [is_false isError orb c_onAbort transition_ctx].
    rewrite user_abort_false. unfold ensureURL, emit. by rewrite !emits_emits.
  - intros route current_ targetIndex stage hook rest w. unfold resume_body.
    cbn [k_ctx k_hook k_rest k_stage].
    rewrite hookNext_not_function; [|done]. by unfold resultHandler.
Qed.

Lemma redirects_not_function to : redirects to = true -> typeof_function to = false.
Proof. by destruct to. Qed.

Lemma redirects_not_veto to : redirects to = true -> is_false to || isError to = false.
Proof. destruct to as [|[]| | | |]; try done. Qed.

(** C4. When a guard calls its continuation with a redirect target (a
    string, or an object with a path or a name), what follows is: the
    abort path with no error value (no global error callback; the user
    abort callback, if any, called once with no error), and then
    exactly the navigation [replace(to)] if [to] is an object whose
    replace flag is set, [push(to)] otherwise.  The continuation of
    the original queue is dropped, so the original transition invokes
    no further guard and never reaches its completion callback.  This
    holds for a transition started through [transitionTo] and for one
    started by [go].  Whatever route is committed in the course of the
    new navigation is one its matcher made, for the redirect target
    or for a target of a further redirect. *)
Theorem redirect_starts_one_navigation
    (guardAct : list Event -> GuardId -> Route -> Route -> GuardAct)
    (resolveAsyncComponents : list RouteRecord -> GuardId)
    (fuel : nat) (to : Value) (Hto : redirects to = true) :
  let navigate := if typeof_object to && replace_flag to
                  then replace guardAct resolveAsyncComponents fuel to None None
                  else push guardAct resolveAsyncComponents fuel to None None in
  let push_ := this_push guardAct resolveAsyncComponents fuel in
  let replace_ := this_replace guardAct resolveAsyncComponents fuel in
  (forall route current_ oc oa stage hook next rest w,
      is_pending route w = true ->
      guardAct (trace w) (hook_guard hook) route current_ = Call to ->
      iterator guardAct push_ replace_
        (transition_ctx route current_ oc (option_map user_onAbort oa))
        stage hook next rest w =
      navigate (emits (EvHook (hook_guard hook) route current_ ::
                       onAbort_events oa VUndefined) w)) /\
  (forall route current_ targetIndex stage hook next rest w,
      is_pending route w = true ->
      guardAct (trace w) (hook_guard hook) route current_ = Call to ->
      iterator guardAct push_ replace_ (go_ctx route current_ targetIndex)
        stage hook next rest w =
      navigate (emit (EvHook (hook_guard hook) route current_) w)) /\
  (forall route current_ oc oa stage hook rest w,
      resume guardAct resolveAsyncComponents fuel
        {| k_ctx := transition_ctx route current_ oc (option_map user_onAbort oa);
           k_stage := stage; k_hook := hook; k_rest := rest |} to w =
      navigate (emits (onAbort_events oa VUndefined) w)) /\
  (forall route current_ targetIndex stage hook rest w,
      resume guardAct resolveAsyncComponents fuel
        {| k_ctx := go_ctx route current_ targetIndex;
           k_stage := stage; k_hook := hook; k_rest := rest |} to w =
      navigate w) /\
  (forall w o,
      navigate w = Some o ->
      exists evs,
        trace (outcome_world o) = trace w ++ evs /\
        forall committed,
          In (EvUpdateRoute committed) evs ->
          exists location current_, committed = r_match (router w) location current_).
Proof.
  intros navigate push_ replace_. subst navigate push_ replace_.
  pose proof (redirects_not_function to Hto) as Hf.
  pose proof (redirects_not_veto to Hto) as Hv.
  unfold redirects in Hto.
  split; [|split; [|split; [|split]]].
  - intros route current_ oc oa stage hook next rest w Hp Hact.
    unfold iterator. cbn [c_route c_current transition_ctx]. rewrite Hp, Hact.
    cbn [negb]. rewrite hookNext_not_function; [|done]. unfold resultHandler.
    rewrite Hv, Hto. cbn [c_onAbort transition_ctx]. rewrite user_abort_silent.
    unfold emit. rewrite emits_emits.
    by destruct (typeof_object to && replace_flag to).
  - intros route current_ targetIndex stage hook next rest w Hp Hact.
    unfold iterator. cbn [c_route c_current go_ctx]. rewrite Hp, Hact.
    cbn [negb]. rewrite hookNext_not_function; [|done]. unfold resultHandler.
    rewrite Hv, Hto. cbn [c_onAbort go_ctx abort isError].
    by destruct (typeof_object to && replace_flag to).
  - intros route current_ oc oa stage hook rest w. unfold resume, resume_body.
    cbn [k_ctx k_hook k_rest k_stage].
    rewrite hookNext_not_function; [|done]. unfold resultHandler.
    rewrite Hv, Hto. cbn [c_onAbort transition_ctx]. rewrite user_abort_silent.
    by destruct (typeof_object to && replace_flag to).
  - intros route current_ targetIndex stage hook rest w. unfold resume, resume_body.
    cbn [k_ctx k_hook k_rest k_stage].
    rewrite hookNext_not_function; [|done]. unfold resultHandler.
    rewrite Hv, Hto. cbn [c_onAbort go_ctx abort isError].
    by destruct (typeof_object to && replace_flag to).
  - intros w o Ho.
    assert (matcher_made (router w) (trace w) w) as H0.
    { split; [done|]. exists []. rewrite app_nil_r. split; [done|]. by intros ? []. }
    assert (good (matcher_made (router w) (trace w)) (fun _ _ => True) (Some o)) as Hg.
    { rewrite <- Ho.
      destruct (typeof_object to && replace_flag to);
        by apply (push_replace_matcher_made guardAct resolveAsyncComponents
                    (router w) (trace w) fuel). }
    assert (matcher_made (router w) (trace w) (outcome_world o)) as (_ & evs & Ht & H).
    { destruct o; simpl in Hg; simpl; tauto. }
    by exists evs.
Qed.

(** ** Supersession *)

Lemma same_but_arrays_refl w : same_but_arrays w w [].
Proof. unfold same_but_arrays. by rewrite app_nil_r. Qed.

Lemma same_but_arrays_trans w w1 w2 evs1 evs2 :
  same_but_arrays w w1 evs1 -> same_but_arrays w1 w2 evs2 ->
  same_but_arrays w w2 (evs1 ++ evs2).
Proof.
  unfold same_but_arrays. intros (-> & -> & -> & -> & -> & H1) (-> & -> & -> & -> & -> & H2).
  rewrite H2, H1. by rewrite app_assoc.
Qed.

Lemma same_but_arrays_push c t w : same_but_arrays w (array_push c t w) [].
Proof.
  unfold array_push. destruct (arrays w !! c); [|apply same_but_arrays_refl].
  unfold same_but_arrays. simpl. by rewrite app_nil_r.
Qed.

Lemma same_but_arrays_emits evs w : same_but_arrays w (emits evs w) evs.
Proof. by unfold same_but_arrays. Qed.

Section Superseded.
Variable guardAct : list Event -> GuardId -> Route -> Route -> GuardAct.
Variable resolveAsyncComponents : list RouteRecord -> GuardId.
Variables push_ replace_ : Value -> Run.
Variable ctx : Ctx.

Lemma runQueue_superseded queue stage cb w :
  is_pending (c_route ctx) w = false ->
  runQueue queue (iterator guardAct push_ replace_ ctx stage) cb w = cb w \/
  runQueue queue (iterator guardAct push_ replace_ ctx stage) cb w =
    Some (Settled (abort (c_onAbort ctx) VUndefined w)).
Proof.
  intros Hp. induction queue as [|[hook|] rest IH]; simpl; [by left| |done].
  right. unfold iterator. by rewrite Hp.
Qed.

Lemma confirmed_superseded cbs w :
  is_pending (c_route ctx) w = false ->
  confirmed ctx cbs w = Some (Settled (abort (c_onAbort ctx) VUndefined w)).
Proof. intros Hp. unfold confirmed. by rewrite Hp. Qed.

Lemma stage_done_superseded stage w :
  is_pending (c_route ctx) w = false ->
  exists w0,
    stage_done guardAct push_ replace_ ctx stage w =
      Some (Settled (abort (c_onAbort ctx) VUndefined w0)) /\
    same_but_arrays w w0 [].
Proof.
  intros Hp. destruct stage as [activated|cbs]; simpl.
  - exists (set_arrays (arrays w ++ [[]]) w). split.
    + unfold resolved.
      match goal with
      | |- runQueue ?q ?f ?cb ?w1 = _ =>
          destruct (runQueue_superseded q (StageB (length (arrays w))) cb w1 Hp)
            as [->| ->]; [|done]
      end.
      by apply confirmed_superseded.
    + unfold same_but_arrays. simpl. by rewrite app_nil_r.
  - exists w. split; [by apply confirmed_superseded|apply same_but_arrays_refl].
Qed.

Lemma next_superseded stage rest w :
  is_pending (c_route ctx) w = false ->
  exists w0,
    runQueue rest (iterator guardAct push_ replace_ ctx stage)
      (stage_done guardAct push_ replace_ ctx stage) w =
      Some (Settled (abort (c_onAbort ctx) VUndefined w0)) /\
    same_but_arrays w w0 [].
Proof.
  intros Hp.
  destruct (runQueue_superseded rest stage
              (stage_done guardAct push_ replace_ ctx stage) w Hp) as [->| ->].
  - by apply stage_done_superseded.
  - exists w. split; [done|apply same_but_arrays_refl].
Qed.

Lemma resume_superseded k v w :
  k_ctx k = ctx ->
  is_pending (c_route ctx) w = false -> forwarded v = true ->
  exists w0 w',
    resume_body guardAct push_ replace_ k v w = Some (Settled w') /\
    same_but_arrays w w0 [] /\
    same_but_arrays (abort (c_onAbort ctx) VUndefined w0) w' [].
Proof.
  intros Hk Hp Hv. unfold resume_body. rewrite Hk.
  destruct (next_superseded (k_stage k) (k_rest k) w Hp) as (w0 & Hnext & Hw0).
  unfold forwarded, vetoes, redirects in Hv.
  apply andb_prop in Hv as [Hv1 Hv2].
  apply negb_true_iff in Hv1. apply negb_true_iff in Hv2.
  exists w0. destruct (k_hook k) as [g|g mtch key cbs valid]; simpl.
  - exists (abort (c_onAbort ctx) VUndefined w0).
    unfold resultHandler. rewrite Hv1, Hv2, Hnext.
    split; [done|]. split; [done|apply same_but_arrays_refl].
  - unfold resultHandler. rewrite Hv1, Hv2, Hnext.
    destruct v; simpl; try (eexists; split; [done|];
                             split; [done|apply same_but_arrays_refl]).
    eexists; split; [done|]. split; [done|apply same_but_arrays_push].
Qed.

End Superseded.

Lemma is_pending_array_push route c t w :
  is_pending route (array_push c t w) = is_pending route w.
Proof. unfold array_push. by destruct (arrays w !! c). Qed.

Lemma suspended_owns_pending guardAct resolveAsyncComponents fuel op s o :
  sys_known s ->
  step_run guardAct resolveAsyncComponents fuel op s = Some o ->
  good (fun _ => True) (fun w k => is_pending (c_route (k_ctx k)) w = true) o.
Proof.
  intros Hk Hr.
  apply (step_run_good guardAct resolveAsyncComponents (fun _ => True)
           (fun w k => is_pending (c_route (k_ctx k)) w = true))
    with (fuel := fuel) (op := op) (s := s); try done.
  intros w k c t H. by rewrite is_pending_array_push.
Qed.

(** C1 (as amended). Let a guard of a transition be waiting, and let
    it call its continuation with a value that is passed on (not
    [false], not an error, not a redirect) at a moment when the
    pending slot does not hold the route of the transition.  Then the
    transition ends there by the abort path with no error value: for
    a transition started through [transitionTo] the only event is the
    user abort callback, if any, called with no error; for one
    started by [go] there is no event; the controller (current route,
    pending slot, ready flag, queues, stack, cursor) is unchanged, no
    guard is invoked, the completion callback is not called, and no
    deferred callback is scheduled.  A continuation called with
    [false] or with an error aborts the transition with that value,
    after a forced resync of the address backend, whatever the pending
    slot holds.  Moreover, whenever a step of a reachable system
    leaves a new guard waiting, the pending slot holds the route of
    that guard's transition. *)
Theorem superseded_transition_aborts_silently
    (guardAct : list Event -> GuardId -> Route -> Route -> GuardAct)
    (resolveAsyncComponents : list RouteRecord -> GuardId) (r : Router) :
  (forall fuel route current_ oc oa stage hook rest v w,
      is_pending route w = false -> forwarded v = true ->
      exists w',
        resume guardAct resolveAsyncComponents fuel
          {| k_ctx := transition_ctx route current_ oc (option_map user_onAbort oa);
             k_stage := stage; k_hook := hook; k_rest := rest |} v w =
          Some (Settled w') /\
        same_but_arrays w w' (onAbort_events oa VUndefined)) /\
  (forall fuel route current_ targetIndex stage hook rest v w,
      is_pending route w = false -> forwarded v = true ->
      exists w',
        resume guardAct resolveAsyncComponents fuel
          {| k_ctx := go_ctx route current_ targetIndex;
             k_stage := stage; k_hook := hook; k_rest := rest |} v w =
          Some (Settled w') /\
        same_but_arrays w w' []) /\
  (forall fuel k v w,
      vetoes v = true ->
      resume guardAct resolveAsyncComponents fuel k v w =
      Some (Settled (abort (c_onAbort (k_ctx k)) v (ensureURL true w)))) /\
  (forall fuel op s s' k,
      reachable guardAct resolveAsyncComponents r s ->
      step guardAct resolveAsyncComponents fuel op s = Some s' ->
      length (inflight s') = S (length (inflight s)) ->
      inflight s' !! length (inflight s) = Some (Some k) ->
      is_pending (c_route (k_ctx k)) (world s') = true).
Proof.
  split; [|split; [|split]].
  - intros fuel route current_ oc oa stage hook rest v w Hp Hv.
    destruct (resume_superseded guardAct
                (this_push guardAct resolveAsyncComponents fuel)
                (this_replace guardAct resolveAsyncComponents fuel)
                (transition_ctx route current_ oc (option_map user_onAbort oa))
                {| k_ctx := transition_ctx route current_ oc (option_map user_onAbort oa);
                   k_stage := stage; k_hook := hook; k_rest := rest |}
                v w eq_refl Hp Hv)
      as (w0 & w' & Hres & H0 & H1).
    exists w'. split; [exact Hres|].
    cbn [c_onAbort transition_ctx] in H1. rewrite user_abort_silent in H1.
    pose proof (same_but_arrays_trans _ _ _ _ _ H0
                  (same_but_arrays_trans _ _ _ _ _
                     (same_but_arrays_emits (onAbort_events oa VUndefined) w0) H1)) as H.
    simpl in H. by rewrite app_nil_r in H.
  - intros fuel route current_ targetIndex stage hook rest v w Hp Hv.
    destruct (resume_superseded guardAct
                (this_push guardAct resolveAsyncComponents fuel)
                (this_replace guardAct resolveAsyncComponents fuel)
                (go_ctx route current_ targetIndex)
                {| k_ctx := go_ctx route current_ targetIndex;
                   k_stage := stage; k_hook := hook; k_rest := rest |}
                v w eq_refl Hp Hv)
      as (w0 & w' & Hres & H0 & H1).
    exists w'. split; [exact Hres|].
    cbn [c_onAbort go_ctx abort isError] in H1.
    apply (same_but_arrays_trans _ _ _ _ _ H0 H1).
  - intros fuel k v w Hv. unfold resume, resume_body.
    rewrite hookNext_not_function; [|by destruct v as [|[]| | | |]].
    unfold resultHandler. unfold vetoes in Hv. by rewrite Hv.
  - intros fuel op s s' k Hreach Hs Hlen Hk.
    assert (sys_known s) as Hkn by (by eapply reachable_known).
    destruct (step_run guardAct resolveAsyncComponents fuel op s) as [o|] eqn:Hr.
    + pose proof (suspended_owns_pending _ _ _ _ _ _ Hkn Hr) as Hg.
      destruct (step_run_settle _ _ _ _ _ _ _ Hr Hs) as (pool & Hset & Hpl & _).
      destruct (settle_inv _ _ _ Hset) as [[_ E]|(k' & -> & E)].
      * rewrite E in Hlen. lia.
      * rewrite E, <- Hpl in Hk. rewrite lookup_app_r in Hk; [|lia].
        rewrite Nat.sub_diag in Hk. simpl in Hk. injection Hk as <-.
        simpl in Hg. tauto.
    + assert (inflight s' = inflight s) as E.
      { destruct op; simpl in Hr, Hs; try done; try (by injection Hs as <-).
        - destruct (inflight s !! i) as [[?|]|]; try done; by injection Hs as <-.
        - destruct (ticks (world s)); by injection Hs as <-.
        - destruct (timers (world s)); by injection Hs as <-. }
      rewrite E in Hlen. lia.
Qed.

(** ** Deferred enter callbacks *)

(** C9 (as amended). A function that a [beforeRouteEnter] guard hands
    to its continuation is passed on like any other value and is not
    called then: a poll task for it is added to the array of deferred
    callbacks once the continuation returns.  Each poll looks up the
    slot of the owning record: if the instance is there the callback
    is called with it and polling ends, whether or not the route is
    still current; if it is absent and the current route is
    identically the route of the guard, one timer of 16 ms is set for
    the next poll; if it is absent and the current route is another
    one, nothing happens and the callback is dropped.  The pending
    slot plays no part in this. *)
Theorem enter_callback_delivery (push_ replace_ : Value -> Run) :
  (forall ctx g mtch key cbs valid next f w,
      hookNext push_ replace_ ctx (RouteEnterGuard g mtch key cbs valid) next
        (VFunction f) w =
      option_map
        (outcome_map (array_push cbs {| pt_cb := f; pt_match := mtch;
                                        pt_key := key; pt_route := valid |}))
        (next w)) /\
  (forall f mtch key valid w instance,
      instances w !! (mtch, key) = Some instance ->
      poll f mtch key valid w = emit (EvEnterCb f instance) w) /\
  (forall f mtch key valid w,
      instances w !! (mtch, key) = None ->
      rid (current (this w)) = rid valid ->
      poll f mtch key valid w =
      set_timers (timers w ++ [(16, {| pt_cb := f; pt_match := mtch;
                                       pt_key := key; pt_route := valid |})]) w) /\
  (forall f mtch key valid w,
      instances w !! (mtch, key) = None ->
      rid (current (this w)) <> rid valid ->
      poll f mtch key valid w = w) /\
  (forall f mtch key valid p w,
      poll f mtch key valid (on_this (set_pending p) w) =
      on_this (set_pending p) (poll f mtch key valid w)).
Proof.
  split; [|split; [|split; [|split]]].
  - intros ctx g mtch key cbs valid next f w. simpl. unfold resultHandler. simpl.
    by destruct (next w).
  - intros f mtch key valid w instance H. unfold poll. by rewrite H.
  - intros f mtch key valid w H Hc. unfold poll, isValid. rewrite H.
    by rewrite Hc, Nat.eqb_refl.
  - intros f mtch key valid w H Hc. unfold poll, isValid. rewrite H.
    apply Nat.eqb_neq in Hc. by rewrite Hc.
  - intros f mtch key valid p w. unfold poll, isValid. simpl.
    destruct (instances w !! (mtch, key)); [done|].
    by destruct (rid (current (this w)) =? rid valid).
Qed.

(** ** The stack scenario *)

Lemma go_out_of_range guardAct resolveAsyncComponents fuel n w :
  ((index (this w) + n <? 0)%Z
   || (index (this w) + n >=? Z.of_nat (length (stack (this w))))%Z) = true ->
  go guardAct resolveAsyncComponents fuel n w = Some (Settled w).
Proof. intros H. unfold go, go_body. by rewrite H. Qed.

(** C6 (as amended). [getCurrentLocation] returns the full path of
    the last element of the stack, or the root path when the stack is
    empty; it does not look at the cursor.  Starting from the empty
    stack, after [push('/a')], [push('/b')] and [go(-1)] have
    completed, the stack holds [/a] and [/b], the cursor is 0, the
    current route is [/a], and [getCurrentLocation] returns [/b].  A
    [go] whose target index is out of range returns at once and leaves
    the world as it is; so does [go(-5)] in that state. *)
Theorem stack_scenario :
  (forall w,
      getCurrentLocation w =
      match last (stack (this w)) with
      | Some current_ => fullPath current_
      | None => "/"
      end) /\
  option_map observe_stack
    (demo_steps [OpPush (VString "/a") None None; OpPush (VString "/b") None None;
                 OpGo (-1)] (Sys_new (demo_router []))) =
    Some ("/b", "/a", 0%Z, ["/a"; "/b"]) /\
  (forall guardAct resolveAsyncComponents fuel n w,
      ((index (this w) + n <? 0)%Z
       || (index (this w) + n >=? Z.of_nat (length (stack (this w))))%Z) = true ->
      go guardAct resolveAsyncComponents fuel n w = Some (Settled w)) /\
  option_map observe_stack
    (demo_steps [OpPush (VString "/a") None None; OpPush (VString "/b") None None;
                 OpGo (-1); OpGo (-5)] (Sys_new (demo_router []))) =
    Some ("/b", "/a", 0%Z, ["/a"; "/b"]).
Proof.
  split; [|split; [|split]].
  - intros w. unfold getCurrentLocation. rewrite last_lookup.
    by replace (length (stack (this w)) - 1) with (pred (length (stack (this w)))) by lia.
  - by vm_compute.
  - apply go_out_of_range.
  - by vm_compute.
Qed.

(** ** Runs of the example application *)

(** C6, as stated, fails: after [push('/a')], [push('/b')] and
    [go(-1)], [getCurrentLocation] returns [/b], not [/a]. *)
Lemma getCurrentLocation_ignores_cursor :
  option_map (fun s => getCurrentLocation (world s))
    (demo_steps [OpPush (VString "/a") None None; OpPush (VString "/b") None None;
                 OpGo (-1)] (Sys_new (demo_router []))) =
  Some "/b".
Proof. by vm_compute. Qed.

(** C1, as stated, fails, in two ways.  Guard 1 keeps every
    transition waiting; the push to [/a] is superseded by the push to
    [/b]; when the guard of the first then answers with an error, the
    first transition aborts with that error: the address backend is
    resynced, the global error callback 9 and the abort callback 8 are
    called.  And with guard 4, [go(-1)] issued twice from [/b] starts
    two transitions to the same stored route; the second overwrites
    the pending slot with that same route, so when the guard of the
    first lets through, the first completes: [/a] becomes current and
    the cursor moves to 0, while the second is still waiting. *)
Lemma superseded_guard_error_is_reported :
  option_map (fun s => (option_map fullPath (pending (this (world s))),
                        map label (reactions (trace (world s)))))
    (demo_steps [OpOnError 9; OpPush (VString "/a") None (Some 8);
                 OpPush (VString "/b") None None; OpResume 0 (VError "boom")]
       (Sys_new (demo_router [1]))) =
  Some (Some "/b", [("ensureURL", 1); ("errorCb", 9); ("onAbort", 8)]) /\
  option_map (fun s => (observe_stack s, length (inflight s)))
    (demo_steps [OpPush (VString "/a") None None; OpPush (VString "/b") None None;
                 OpGo (-1); OpGo (-1)]
       (Sys_new (demo_router [4]))) =
  Some (("/b", "/b", 1%Z, ["/a"; "/b"]), 2) /\
  option_map (fun s => (observe_stack s, map (fun k => bool_decide (k = None)) (inflight s)))
    (demo_steps [OpPush (VString "/a") None None; OpPush (VString "/b") None None;
                 OpGo (-1); OpGo (-1); OpResume 0 VUndefined]
       (Sys_new (demo_router [4]))) =
  Some (("/b", "/a", 0%Z, ["/a"; "/b"]), [true; false]).
Proof. repeat split; by vm_compute. Qed.

(** C3, as stated, fails: with the error callback 9 registered, a
    guard that answers [false] makes the push abort with the abort
    callback 8 called once, and the error callback never called. *)
Lemma veto_false_skips_error_callbacks :
  option_map (fun s => (errorCbs (this (world s)), map label (trace (world s))))
    (demo_steps [OpOnError 9; OpPush (VString "/a") None (Some 8)]
       (Sys_new (demo_router [2]))) =
  Some ([9], [("guard", 2); ("ensureURL", 1); ("onAbort", 8)]).
Proof. by vm_compute. Qed.

(** C7, as stated, fails: callback 70 is queued; the first push fails
    with an error, which sets the ready flag; the second push is the
    first transition ever to complete, and it leaves the ready queue
    as it is: callback 70 is never called. *)
Lemma ready_queue_skipped_after_failure :
  option_map (fun s => (fullPath (current (this (world s))), ready (this (world s)),
                        readyCbs (this (world s)), map label (trace (world s))))
    (demo_steps [OpOnReady 70 None; OpPush (VString "/b") None None;
                 OpPush (VString "/a") None None]
       (Sys_new (demo_router [7]))) =
  Some ("/a", true, [70],
        [("guard", 7); ("ensureURL", 1); ("warn", 0); ("console.error", 0);
         ("guard", 7); ("guard", 0); ("updateRoute", 0); ("ensureURL", 0)]).
Proof. by vm_compute. Qed.

(** C9, as stated, fails.  The enter guard of [/e] passes a callback
    (60).  After the commit the pending slot is empty, so it no longer
    holds the route of the guard, yet after three polls a timer is
    still set.  And once [/a] has become current, the instance being
    mounted by then, the next poll calls the callback. *)
Lemma polling_ignores_pending_slot :
  option_map (fun s => (option_map fullPath (pending (this (world s))),
                        map fst (timers (world s)),
                        map label (reactions (trace (world s)))))
    (demo_steps [OpPush (VString "/e") None None; OpNextTick; OpTimer; OpTimer]
       (Sys_new (demo_router []))) =
  Some (None, [16], [("updateRoute", 0); ("ensureURL", 0)]) /\
  option_map (fun s => (fullPath (current (this (world s))),
                        map fst (timers (world s)),
                        map label (reactions (trace (world s)))))
    (demo_steps [OpPush (VString "/e") None None; OpNextTick; OpTimer;
                 OpPush (VString "/a") None None; OpMount 6 "default" 77; OpTimer]
       (Sys_new (demo_router []))) =
  Some ("/a", [],
        [("updateRoute", 0); ("ensureURL", 0); ("updateRoute", 0); ("ensureURL", 0);
         ("enterCb", 60)]).
Proof. split; by vm_compute. Qed.

(** The scenario of the specification for redirects: the entry guard
    of [/x] answers with an object whose path is [/y]; the push to
    [/x] aborts with no error and [/y] ends up current. *)
Example redirect_scenario :
  option_map (fun s => (fullPath (current (this (world s))),
                        map fullPath (stack (this (world s))),
                        map label (trace (world s))))
    (demo_steps [OpPush (VString "/x") None (Some 8)] (Sys_new (demo_router []))) =
  Some ("/y", ["/y"],
        [("guard", 5); ("onAbort", 8); ("guard", 0); ("updateRoute", 0);
         ("ensureURL", 0)]).
Proof. by vm_compute. Qed.

(** The diff at work: [/a] then [/b] then [/c] against [/a] then [/b]
    then [/x] then [/y] share the first two records. *)
Example resolveQueue_example :
  let q := resolveQueue [demo_record "/a"; demo_record "/b"; demo_record "/c"]
             [demo_record "/a"; demo_record "/b"; demo_record "/x"; demo_record "/y"] in
  (map recid (updated q), map recid (activated q), map recid (deactivated q)) =
  ([1; 2], [4; 5], [3]).
Proof. by vm_compute. Qed.

(** ** The statements above at work on the example application *)

Lemma same_route_short_circuit_witness :
  confirmTransition demo_guards demo_async
    (this_push demo_guards demo_async 3) (this_replace demo_guards demo_async 3)
    (demo_match (VString "/a") (current (this (world demo_at_a))))
    (fun _ => transitionTo_onComplete
                (demo_match (VString "/a") (current (this (world demo_at_a)))) None)
    (Some (transitionTo_onAbort (option_map user_onAbort (Some 8))))
    (world demo_at_a) =
  Some (Settled (emits (EvEnsureURL false :: onAbort_events (Some 8) VUndefined)
                   (world demo_at_a))).
Proof.
  refine (proj1 (proj2 (same_route_short_circuit demo_guards demo_async
                          (this_push demo_guards demo_async 3)
                          (this_replace demo_guards demo_async 3)
                          (demo_match (VString "/a") (current (this (world demo_at_a))))
                          (world demo_at_a) _ _)) None (Some 8)).
  - vm_compute. reflexivity.
  - vm_compute. reflexivity.
Defined.

Lemma redirect_starts_one_navigation_witness :
  resume demo_guards demo_async 3
    {| k_ctx := transition_ctx (demo_route "/x") START None
                  (option_map user_onAbort (Some 8));
       k_stage := StageA []; k_hook := PlainGuard 5; k_rest := [] |}
    (VObject (Some "/y") None false) (World_new (demo_router [])) =
  push demo_guards demo_async 3 (VObject (Some "/y") None false) None None
    (emits (onAbort_events (Some 8) VUndefined) (World_new (demo_router []))).
Proof.
  exact (proj1 (proj2 (proj2
           (redirect_starts_one_navigation demo_guards demo_async 3
              (VObject (Some "/y") None false) eq_refl)))
           (demo_route "/x") START None (Some 8) (StageA []) (PlainGuard 5) []
           (World_new (demo_router []))).
Defined.

Lemma superseded_transition_aborts_silently_witness :
  exists w',
    resume demo_guards demo_async 3
      {| k_ctx := transition_ctx (demo_route "/a") START (Some (push_onComplete None))
                    (option_map user_onAbort (Some 8));
         k_stage := StageA [demo_record "/a"]; k_hook := PlainGuard 1; k_rest := [] |}
      VUndefined (world demo_two_waiting) = Some (Settled w') /\
    same_but_arrays (world demo_two_waiting) w' (onAbort_events (Some 8) VUndefined).
Proof.
  refine (proj1 (superseded_transition_aborts_silently demo_guards demo_async
                   (demo_router [1]))
            3 (demo_route "/a") START (Some (push_onComplete None)) (Some 8)
            (StageA [demo_record "/a"]) (PlainGuard 1) [] VUndefined
            (world demo_two_waiting) _ _).
  - vm_compute. reflexivity.
  - reflexivity.
Defined.

Lemma veto_false_aborts_witness :
  iterator demo_guards (this_push demo_guards demo_async 3)
    (this_replace demo_guards demo_async 3)
    (transition_ctx (demo_route "/a") START None (option_map user_onAbort (Some 8)))
    (StageA []) (PlainGuard 2) (fun w => Some (Settled w)) []
    (on_this (set_pending (Some (demo_route "/a"))) (World_new (demo_router [2]))) =
  Some (Settled
          (emits (EvHook 2 (demo_route "/a") START :: EvEnsureURL true ::
                  onAbort_events (Some 8) (VBool false))
             (on_this (set_pending (Some (demo_route "/a")))
                (World_new (demo_router [2]))))).
Proof.
  refine (proj1 (veto_false_aborts demo_guards demo_async
                   (this_push demo_guards demo_async 3)
                   (this_replace demo_guards demo_async 3))
            (demo_route "/a") START None (Some 8) (StageA []) (PlainGuard 2)
            (fun w => Some (Settled w)) []
            (on_this (set_pending (Some (demo_route "/a"))) (World_new (demo_router [2])))
            _ _).
  - vm_compute. reflexivity.
  - reflexivity.
Defined.

Lemma step_to_demo_at_a :
  step demo_guards demo_async 8 (OpPush (VString "/a") None None)
    (Sys_new (demo_router [])) = Some demo_at_a.
Proof. vm_compute. reflexivity. Defined.

Lemma ready_queues_drained_once_witness :
  ready_log (trace (world (Sys_new (demo_router []))))
    (this (world (Sys_new (demo_router [])))) (world demo_at_a).
Proof.
  refine (proj2 (proj2 (proj2 (ready_queues_drained_once demo_guards demo_async
                                 (demo_router [])))
                   8 (OpPush (VString "/a") None None) (Sys_new (demo_router []))
                   demo_at_a (reachable_new _ _ _) step_to_demo_at_a) _).
  intros f errorCb. discriminate.
Defined.

Lemma current_follows_updateRoute_witness :
  exists evs,
    trace (world demo_at_a) = trace (world (Sys_new (demo_router []))) ++ evs /\
    current (this (world demo_at_a)) =
      last_update evs (current (this (world (Sys_new (demo_router []))))).
Proof.
  exact (proj2 (proj2 (current_follows_updateRoute demo_guards demo_async
                         (demo_router [])))
           8 (OpPush (VString "/a") None None) (Sys_new (demo_router []))
           demo_at_a (reachable_new _ _ _) step_to_demo_at_a).
Defined.

Lemma cursor_within_stack_witness : cursor_ok (world demo_at_a).
Proof.
  refine (proj1 (cursor_within_stack demo_guards demo_async (demo_router []))
            demo_at_a _).
  refine (sequential_step _ _ _ 8 (OpPush (VString "/a") None None)
            (Sys_new (demo_router [])) demo_at_a (sequential_new _ _ _) _
            step_to_demo_at_a).
  intros _ i k. simpl. rewrite lookup_nil. discriminate.
Defined.

Lemma enter_callback_delivery_witness :
  poll 60 6 "default" (demo_route "/e")
    (set_instances {[ (6, "default") := 77 ]} (World_new (demo_router []))) =
  emit (EvEnterCb 60 77)
    (set_instances {[ (6, "default") := 77 ]} (World_new (demo_router []))).
Proof.
  refine (proj1 (proj2 (enter_callback_delivery
                          (this_push demo_guards demo_async 3)
                          (this_replace demo_guards demo_async 3)))
            60 6 "default" (demo_route "/e")
            (set_instances {[ (6, "default") := 77 ]} (World_new (demo_router [])))
            77 _).
  vm_compute. reflexivity.
Defined.

Lemma resolveQueue_spec_witness :
  differ ([demo_record "/a"; demo_record "/b"] !! 0)
         ([demo_record "/a"; demo_record "/x"] !! 0) = false.
Proof.
  refine (proj1 (proj2 (proj2 (proj2 (proj2 (proj2
            (resolveQueue_spec [demo_record "/a"; demo_record "/b"]
                               [demo_record "/a"; demo_record "/x"]))))))
            0 _).
  vm_compute. lia.
Defined.

Lemma stack_scenario_witness :
  go demo_guards demo_async 3 (-5)
    (world (demo_state [] [OpPush (VString "/a") None None;
                           OpPush (VString "/b") None None; OpGo (-1)])) =
  Some (Settled
          (world (demo_state [] [OpPush (VString "/a") None None;
                                 OpPush (VString "/b") None None; OpGo (-1)]))).
Proof.
  refine (proj1 (proj2 (proj2 stack_scenario)) demo_guards demo_async 3 (-5)%Z
            (world (demo_state [] [OpPush (VString "/a") None None;
                                   OpPush (VString "/b") None None; OpGo (-1)])) _).
  vm_compute. reflexivity.
Defined.

(** * Further properties *)

(** ** normalizeBase *)

Lemma strip_trailing_slash_leading s :
  strip_trailing_slash (String slash s) = "" \/
  starts_with_slash (strip_trailing_slash (String slash s)) = true.
Proof. destruct s; simpl; auto. Qed.

Lemma strip_trailing_slash_keep s :
  ends_with_slash s = false -> strip_trailing_slash s = s.
Proof.
  induction s as [|c s IH]; simpl; [done|]. destruct s as [|c' s'].
  - by intros ->.
  - intros H. by rewrite IH.
Qed.

Lemma strip_trailing_slash_cut s :
  strip_trailing_slash (s ++ "/") = s.
Proof.
  induction s as [|c s IH]; simpl; [done|]. rewrite IH.
  by destruct s.
Qed.

Lemma starts_with_slash_inv s :
  starts_with_slash s = true -> exists s', s = String slash s'.
Proof.
  destruct s as [|c s]; simpl; [done|]. intros H.
  apply Ascii.eqb_eq in H as ->. eauto.
Qed.

Lemma skip_to_slash_host host path :
  no_slash host = true ->
  (path = "" \/ starts_with_slash path = true) ->
  skip_to_slash (host ++ path) = path.
Proof.
  intros Hh Hp. induction host as [|c host IH]; simpl in *.
  - destruct Hp as [->|Hp]; [done|].
    destruct (starts_with_slash_inv _ Hp) as [p ->]. done.
  - apply andb_prop in Hh as [Hc Hh]. apply negb_true_iff in Hc. rewrite Hc.
    by apply IH.
Qed.

Lemma ends_with_slash_cons c s :
  s <> ""%string -> ends_with_slash (String c s) = ends_with_slash s.
Proof. by destruct s. Qed.

(** X1. Whatever the base given, the environment and the [base]
    element of the document, [normalizeBase] returns the empty string
    or a string that begins with a slash. *)
Theorem normalizeBase_shape (inBrowser : bool) (baseHref base : option string) :
  normalizeBase inBrowser baseHref base = ""%string \/
  starts_with_slash (normalizeBase inBrowser baseHref base) = true.
Proof.
  unfold normalizeBase.
  match goal with
  | |- context [if starts_with_slash ?b then _ else _] =>
      destruct (starts_with_slash b) eqn:E; [|apply strip_trailing_slash_leading];
      destruct (starts_with_slash_inv _ E) as [s' ->]
  end.
  apply strip_trailing_slash_leading.
Qed.

(** X2. A non-empty base given to [normalizeBase] is used whatever
    the environment and the [base] element of the document.  If it
    begins with a slash and does not end with one it is returned as it
    is; if it does not begin with a slash and does not end with one,
    a slash is put in front; and a base that begins with a slash gives
    itself back when one more slash is appended to it: exactly one
    trailing slash is removed. *)
Theorem normalizeBase_explicit (b : string) (Hb : b <> ""%string) :
  (forall inBrowser baseHref inBrowser' baseHref',
      normalizeBase inBrowser baseHref (Some b) =
      normalizeBase inBrowser' baseHref' (Some b)) /\
  (forall inBrowser baseHref,
      starts_with_slash b = true -> ends_with_slash b = false ->
      normalizeBase inBrowser baseHref (Some b) = b) /\
  (forall inBrowser baseHref,
      starts_with_slash b = false -> ends_with_slash b = false ->
      normalizeBase inBrowser baseHref (Some b) = String slash b) /\
  (forall inBrowser baseHref,
      starts_with_slash b = true ->
      normalizeBase inBrowser baseHref (Some (b ++ "/")%string) = b).
Proof.
  assert (forall inBrowser baseHref,
            normalizeBase inBrowser baseHref (Some b) =
            strip_trailing_slash (if starts_with_slash b then b else String slash b))
    as Hn.
  { intros inBrowser baseHref. unfold normalizeBase.
    by rewrite bool_decide_eq_false_2. }
  split; [|split; [|split]].
  - intros. by rewrite !Hn.
  - intros ib h Hs He. rewrite Hn, Hs. by apply strip_trailing_slash_keep.
  - intros ib h Hs He. rewrite Hn, Hs. apply strip_trailing_slash_keep.
    by rewrite ends_with_slash_cons.
  - intros ib h Hs. unfold normalizeBase.
    rewrite bool_decide_eq_false_2 by (by destruct b).
    replace (starts_with_slash (b ++ "/")%string) with true by (by destruct b).
    apply strip_trailing_slash_cut.
Qed.

(** X3. When no base is given (or an empty one) and the code runs in
    a browser, the [href] of the [base] element is used with its
    origin removed: for [href] a scheme [http://] or [https://], a
    non-empty host without a slash, and a path that is empty or begins
    with a slash, the result is the path without one trailing slash.
    Without a [base] element, with an empty [href], or outside a
    browser, the result is the empty string. *)
Theorem normalizeBase_base_tag (host path : string) (base : option string)
    (Hbase : base = None \/ base = Some ""%string)
    (Hhost : host <> ""%string) (Hno : no_slash host = true)
    (Hpath : path = ""%string \/ starts_with_slash path = true) :
  normalizeBase true (Some ("https://" ++ host ++ path)%string) base =
    strip_trailing_slash path /\
  normalizeBase true (Some ("http://" ++ host ++ path)%string) base =
    strip_trailing_slash path /\
  normalizeBase true None base = ""%string /\
  normalizeBase true (Some ""%string) base = ""%string /\
  (forall baseHref, normalizeBase false baseHref base = ""%string).
Proof.
  destruct host as [|c host]; [done|]. simpl in Hno.
  apply andb_prop in Hno as [Hc Hno]. apply negb_true_iff in Hc.
  assert (forall href, href <> ""%string ->
            normalizeBase true (Some href) base =
            strip_trailing_slash
              (if starts_with_slash (strip_origin href) then strip_origin href
               else String slash (strip_origin href))) as Hn.
  { intros href Hh. unfold normalizeBase.
    destruct Hbase as [-> | ->]; simpl; by rewrite bool_decide_eq_false_2. }
  assert (strip_trailing_slash
            (if starts_with_slash path then path else String slash path) =
          strip_trailing_slash path) as Hp.
  { destruct Hpath as [-> | ->]; done. }
  split; [|split; [|split; [|split]]].
  - rewrite Hn by done. unfold strip_origin. simpl. rewrite Hc.
    by rewrite skip_to_slash_host.
  - rewrite Hn by done. unfold strip_origin. simpl. rewrite Hc.
    by rewrite skip_to_slash_host.
  - by destruct Hbase as [-> | ->].
  - by destruct Hbase as [-> | ->].
  - intros baseHref. by destruct Hbase as [-> | ->].
Qed.

(** ** Guard extraction *)

Lemma extractGuards_app records1 records2 name bind reverse w :
  extractGuards (records1 ++ records2) name bind reverse w =
  if reverse
  then extractGuards records2 name bind reverse w ++
       extractGuards records1 name bind reverse w
  else extractGuards records1 name bind reverse w ++
       extractGuards records2 name bind reverse w.
Proof.
  unfold extractGuards, flatten, flatMapComponents.
  rewrite map_app, concat_app.
  destruct reverse.
  - by rewrite rev_app_distr, map_app, concat_app.
  - by rewrite map_app, concat_app.
Qed.

Lemma extractGuards_In (P : option Hook -> Prop) records name bind reverse w :
  P None ->
  (forall g m k, In m records -> P (bind g (instances w !! (recid m, k)) m k)) ->
  Forall P (extractGuards records name bind reverse w).
Proof.
  intros Hn Hb. unfold extractGuards, flatten.
  apply Forall_concat, Forall_fmap.
  assert (Forall (fun it : Item =>
            Forall P (match it with Single h => [h] | Many hs => hs end))
            (flatMapComponents records (fun def instance mtch key =>
               match extractGuard def name with
               | Some (GuardArray gs) =>
                   Many (map (fun guard => bind guard instance mtch key) gs)
               | Some (OneGuard guard) => Single (bind guard instance mtch key)
               | None => Single None
               end) w)) as H.
  { unfold flatMapComponents. apply Forall_concat, Forall_fmap, Forall_forall.
    intros m Hm. apply list_elem_of_In in Hm.
    apply Forall_fmap, Forall_forall. intros kd _. simpl.
    destruct (extractGuard (snd kd) name) as [[g|gs]|].
    - apply Forall_singleton. by apply Hb.
    - apply Forall_fmap, Forall_forall. intros g _. by apply Hb.
    - by apply Forall_singleton. }
  destruct reverse; [|exact H]. by apply Forall_rev.
Qed.

Lemma queue_guards_absent queue :
  Forall (fun h => h = None) queue -> queue_guards queue = [].
Proof. induction 1 as [|h rest -> _ IH]; [done|]. exact IH. Qed.

Lemma extractGuards_Forall (P : option Hook -> Prop) records name bind reverse w :
  P None -> (forall g i m k, P (bind g i m k)) ->
  Forall P (extractGuards records name bind reverse w).
Proof. intros Hn Hb. apply extractGuards_In; [done|]. intros. apply Hb. Qed.

Lemma queue_guards_app q1 q2 :
  queue_guards (q1 ++ q2) = queue_guards q1 ++ queue_guards q2.
Proof. apply omap_app. Qed.

Lemma queue_guards_plain gs :
  queue_guards (map (fun g => Some (PlainGuard g)) gs) = gs.
Proof.
  unfold queue_guards. induction gs as [|g gs IH]; [done|].
  change (g :: omap (option_map hook_guard) (map (fun g => Some (PlainGuard g)) gs) =
          g :: gs).
  by rewrite IH.
Qed.

Lemma queue_guards_beforeEnter records :
  queue_guards (map (fun m => option_map PlainGuard (beforeEnter m)) records) =
  omap beforeEnter records.
Proof.
  unfold queue_guards. induction records as [|m ms IH]; [done|].
  cbn [map omap list_omap]. rewrite <- IH. by destruct (beforeEnter m).
Qed.

Lemma plain_guards_plain gs :
  Forall is_plain (map (fun g => Some (PlainGuard g)) gs).
Proof. apply Forall_fmap, Forall_forall. by intros. Qed.

(** X4. Guard extraction follows the list of records: the leave
    guards of a list of records are those of its later records
    followed by those of its earlier ones (deepest first), the update
    hooks and the enter guards those of its earlier records followed
    by those of its later ones. *)
Theorem guards_deepest_first (records1 records2 : list RouteRecord)
    (cbs : nat) (valid : Route) (w : World) :
  extractLeaveGuards (records1 ++ records2) w =
    extractLeaveGuards records2 w ++ extractLeaveGuards records1 w /\
  extractUpdateHooks (records1 ++ records2) w =
    extractUpdateHooks records1 w ++ extractUpdateHooks records2 w /\
  extractEnterGuards (records1 ++ records2) cbs valid w =
    extractEnterGuards records1 cbs valid w ++ extractEnterGuards records2 cbs valid w.
Proof.
  unfold extractLeaveGuards, extractUpdateHooks, extractEnterGuards.
  by rewrite !extractGuards_app.
Qed.

(** X5. Leave guards and update hooks are bound to live instances:
    for records none of whose slots has a registered instance, no
    leave guard and no update hook is extracted, whatever the
    components declare.  Enter guards are extracted without looking
    at the instances. *)
Theorem unmounted_guards_skipped (records : list RouteRecord) (w : World) :
  (forall m k, In m records -> instances w !! (recid m, k) = None) ->
  queue_guards (extractLeaveGuards records w) = [] /\
  queue_guards (extractUpdateHooks records w) = [] /\
  forall cbs valid w',
    extractEnterGuards records cbs valid w = extractEnterGuards records cbs valid w'.
Proof.
  intros H. split; [|split].
  - apply queue_guards_absent, extractGuards_In; [done|].
    intros g m k Hm. by rewrite H.
  - apply queue_guards_absent, extractGuards_In; [done|].
    intros g m k Hm. by rewrite H.
  - done.
Qed.

(** ** Runs in which every guard lets through *)

Lemma outcome_map_id o : outcome_map (fun w => w) o = o.
Proof. by destruct o. Qed.

Lemma is_pending_emits route evs w : is_pending route (emits evs w) = is_pending route w.
Proof. done. Qed.

Lemma forwarded_inv v :
  forwarded v = true ->
  is_false v || isError v = false /\
  typeof_string v || (typeof_object v && (has_path v || has_name v)) = false.
Proof.
  unfold forwarded, vetoes, redirects. intros H. apply andb_prop in H as [H1 H2].
  by apply negb_true_iff in H1, H2.
Qed.

Lemma hookNext_forward push_ replace_ ctx hook next v w :
  forwarded v = true ->
  hookNext push_ replace_ ctx hook next v w =
  option_map (outcome_map (own_push hook v)) (next w).
Proof.
  intros Hv. destruct (forwarded_inv _ Hv) as [Hv1 Hv2].
  destruct hook as [g|g mtch key cbs valid]; simpl.
  - unfold resultHandler. rewrite Hv1, Hv2. destruct (next w) as [o|]; [|done].
    simpl. destruct v; by rewrite outcome_map_id.
  - unfold resultHandler. rewrite Hv1, Hv2. destruct (next w) as [o|]; [|done].
    simpl. destruct v; by rewrite ?outcome_map_id.
Qed.

Lemma runQueue_forward_app guardAct push_ replace_ ans ctx stage q1 q2 cb w :
  (forall t g, In g (queue_guards q1) ->
     guardAct t g (c_route ctx) (c_current ctx) = Call (ans g)) ->
  (forall g, In g (queue_guards q1) -> forwarded (ans g) = true) ->
  is_pending (c_route ctx) w = true ->
  runQueue (q1 ++ q2) (iterator guardAct push_ replace_ ctx stage) cb w =
  option_map (outcome_map (enter_pushes ans q1))
    (runQueue q2 (iterator guardAct push_ replace_ ctx stage) cb
       (emits (hook_events (c_route ctx) (c_current ctx) (queue_guards q1)) w)).
Proof.
  revert w. induction q1 as [|[hook|] rest IH]; intros w Hans Hfwd Hp.
  - simpl. rewrite emits_nil.
    destruct (runQueue q2 _ cb w) as [o|]; [|done]. simpl.
    by rewrite outcome_map_id.
  - assert (In (hook_guard hook) (queue_guards (Some hook :: rest))) as Hin
      by (simpl; by left).
    assert (forall g, In g (queue_guards rest) -> In g (queue_guards (Some hook :: rest)))
      as Hrest by (intros g Hg; simpl; by right).
    rewrite <- app_comm_cons. cbn [runQueue]. unfold iterator at 1. rewrite Hp. cbn [negb].
    rewrite (Hans _ _ Hin). rewrite hookNext_forward by (by apply Hfwd).
    specialize (IH (emit (EvHook (hook_guard hook) (c_route ctx) (c_current ctx)) w)
                  (fun t g Hg => Hans t g (Hrest g Hg))
                  (fun g Hg => Hfwd g (Hrest g Hg)) Hp).
    unfold emit in IH. rewrite emits_emits in IH. unfold emit. rewrite IH.
    change (queue_guards (Some hook :: rest))
      with (hook_guard hook :: queue_guards rest).
    change (hook_events (c_route ctx) (c_current ctx)
              (hook_guard hook :: queue_guards rest))
      with ([EvHook (hook_guard hook) (c_route ctx) (c_current ctx)] ++
            hook_events (c_route ctx) (c_current ctx) (queue_guards rest)).
    destruct (runQueue q2 _ cb _) as [o|]; [|done]. cbn [option_map].
    f_equal. destruct hook as [g|g mtch key cbs valid]; cbn [own_push enter_pushes].
    + by destruct o.
    + cbn [hook_guard]. destruct (ans g); by destruct o.
  - rewrite <- app_comm_cons. cbn [runQueue]. by apply IH.
Qed.

Lemma runQueue_forward guardAct push_ replace_ ans ctx stage queue cb w :
  (forall t g, In g (queue_guards queue) ->
     guardAct t g (c_route ctx) (c_current ctx) = Call (ans g)) ->
  (forall g, In g (queue_guards queue) -> forwarded (ans g) = true) ->
  is_pending (c_route ctx) w = true ->
  runQueue queue (iterator guardAct push_ replace_ ctx stage) cb w =
  option_map (outcome_map (enter_pushes ans queue))
    (cb (emits (hook_events (c_route ctx) (c_current ctx) (queue_guards queue)) w)).
Proof.
  intros Hans Hfwd Hp.
  pose proof (runQueue_forward_app guardAct push_ replace_ ans ctx stage
                queue [] cb w Hans Hfwd Hp) as H.
  rewrite app_nil_r in H. exact H.
Qed.

Lemma enter_pushes_plain ans queue w :
  Forall is_plain queue -> enter_pushes ans queue w = w.
Proof.
  induction 1 as [|[[g|g mtch key cbs valid]|] rest Hh _ IH]; simpl; try done.
Qed.

Lemma enter_pushes_app ans q1 q2 w :
  enter_pushes ans (q1 ++ q2) w = enter_pushes ans q1 (enter_pushes ans q2 w).
Proof.
  induction q1 as [|[[g|g mtch key cbs valid]|] rest IH]; simpl; try done.
  destruct (ans g); try done. by rewrite IH.
Qed.

Lemma confirmTransition_forward
    (guardAct : list Event -> GuardId -> Route -> Route -> GuardAct)
    (resolveAsyncComponents : list RouteRecord -> GuardId)
    (push_ replace_ : Value -> Run) (ans : GuardId -> Value)
    (route : Route) (onComplete : Route -> Act) (onAbort : option (Value -> Act))
    (w : World)
    (Hdiff : isSameRoute route (current (this w)) &&
             (length (matched route) =? length (matched (current (this w)))) = false)
    (Hans : forall t g, In g (guard_order resolveAsyncComponents route w) ->
              guardAct t g route (current (this w)) = Call (ans g))
    (Hfwd : forall g, In g (guard_order resolveAsyncComponents route w) ->
              forwarded (ans g) = true) :
  confirmTransition guardAct resolveAsyncComponents push_ replace_
    route onComplete onAbort w =
  Some (Settled
    (enter_pushes ans
       (extractEnterGuards
          (activated (resolveQueue (matched (current (this w))) (matched route)))
          (length (arrays w)) route w)
       (nextTick (length (arrays w))
          (onComplete route
             (on_this (set_pending None)
                (emits (hook_events route (current (this w))
                          (guard_order resolveAsyncComponents route w))
                   (set_arrays (arrays w ++ [[]]) w))))))).
Proof.
  unfold confirmTransition. rewrite Hdiff.
  set (q := resolveQueue (matched (current (this w))) (matched route)) in *.
  set (ctx := {| c_route := route; c_current := current (this w);
                 c_onComplete := onComplete; c_onAbort := onAbort |}).
  set (q1 := extractLeaveGuards (deactivated q) w ++
             map (fun g => Some (PlainGuard g)) (beforeHooks (router w)) ++
             extractUpdateHooks (updated q) w ++
             map (fun m => option_map PlainGuard (beforeEnter m)) (activated q) ++
             [Some (PlainGuard (resolveAsyncComponents (activated q)))]).
  set (q2 := extractEnterGuards (activated q) (length (arrays w)) route w ++
             map (fun g => Some (PlainGuard g)) (resolveHooks (router w))).
  assert (guard_order resolveAsyncComponents route w =
          queue_guards q1 ++ queue_guards q2) as Hgo.
  { unfold guard_order, q1, q2. fold q.
    rewrite !queue_guards_app, !queue_guards_plain, queue_guards_beforeEnter.
    simpl. by rewrite <- !app_assoc. }
  assert (Forall is_plain q1) as Hq1.
  { assert (forall g i m k, is_plain (bindGuard g i m k)) as Hb
      by (by intros g [i|] m k).
    unfold q1. apply Forall_app_2; [by apply extractGuards_Forall|].
    apply Forall_app_2; [apply plain_guards_plain|].
    apply Forall_app_2; [by apply extractGuards_Forall|].
    apply Forall_app_2; [|by apply Forall_singleton].
    apply Forall_fmap, Forall_forall. intros m _. simpl. by destruct (beforeEnter m). }
  rewrite Hgo in Hans, Hfwd.
  rewrite (runQueue_forward guardAct push_ replace_ ans ctx); cycle 1.
  { intros t g Hg. apply Hans, in_app_iff. by left. }
  { intros g Hg. apply Hfwd, in_app_iff. by left. }
  { unfold is_pending. simpl. by rewrite Nat.eqb_refl. }
  unfold resolved at 1.
  match goal with
  | |- context [runQueue ?qq _ _ _] => replace qq with q2
  end; cycle 1.
  { reflexivity. }
  rewrite (runQueue_forward guardAct push_ replace_ ans ctx); cycle 1.
  { intros t g Hg. apply Hans, in_app_iff. by right. }
  { intros g Hg. apply Hfwd, in_app_iff. by right. }
  { unfold is_pending. simpl. by rewrite Nat.eqb_refl. }
  unfold confirmed. rewrite !is_pending_emits.
  replace (is_pending (c_route ctx) _) with true
    by (unfold is_pending; simpl; by rewrite Nat.eqb_refl).
  cbn [negb option_map outcome_map c_onComplete c_route c_current ctx].
  do 2 f_equal. rewrite enter_pushes_plain by done.
  unfold q2. rewrite enter_pushes_app.
  rewrite (enter_pushes_plain ans (map _ _)) by apply plain_guards_plain.
  f_equal. unfold nextTick, hook_events. rewrite Hgo, map_app.
  assert (forall e1 e2,
            on_this (set_pending None)
              (emits e2
                 (set_arrays
                    (arrays (emits e1 (on_this (set_pending (Some route)) w)) ++ [[]])
                    (emits e1 (on_this (set_pending (Some route)) w)))) =
            on_this (set_pending None)
              (emits (e1 ++ e2) (set_arrays (arrays w ++ [[]]) w))) as HW.
  { intros e1 e2. unfold on_this, emits, set_arrays, set_pending. simpl.
    by rewrite app_assoc. }
  by rewrite HW.
Qed.

(** X6. Let the target of [confirmTransition] not be short-circuited
    and let every guard on the way answer at once with a value that
    is passed on.  Then the transition settles with no abort: the
    guards are invoked in the order of [guard_order] (leave guards,
    global before hooks, update hooks, entry guards of the activated
    records, the async-component step, enter guards, global resolve
    hooks), each once; then the pending slot is cleared and the
    completion callback is called once with the target; then, if
    there is an app, the tick for the deferred callbacks is
    scheduled; and the enter guards that answered with a function
    have their poll tasks pushed. *)
Theorem guards_run_in_order
    (guardAct : list Event -> GuardId -> Route -> Route -> GuardAct)
    (resolveAsyncComponents : list RouteRecord -> GuardId)
    (push_ replace_ : Value -> Run) (ans : GuardId -> Value)
    (route : Route) (onComplete : Route -> Act) (onAbort : option (Value -> Act))
    (w : World)
    (Hthrough : lets_through guardAct resolveAsyncComponents ans route w) :
  confirmTransition guardAct resolveAsyncComponents push_ replace_
    route onComplete onAbort w =
  Some (Settled
    (enter_pushes ans (enter_queue route w)
       (nextTick (length (arrays w))
          (onComplete route (before_commit resolveAsyncComponents route w))))).
Proof.
  destruct Hthrough as (Hdiff & Hans & Hfwd).
  by apply confirmTransition_forward.
Qed.

Lemma slice_take {A} (l : list A) e :
  (0 <= e)%Z -> slice l 0 e = take (Z.to_nat e) l.
Proof.
  intros He. unfold slice.
  assert (slice_bound (length l) 0 = 0) as -> by (unfold slice_bound; simpl; lia).
  rewrite drop_0, Nat.sub_0_r. unfold slice_bound.
  destruct (e <? 0)%Z eqn:E; [lia|].
  destruct (decide (e <= Z.of_nat (length l))%Z) as [Hle|Hgt].
  - by rewrite Z.min_l.
  - rewrite Z.min_r, Nat2Z.id by lia. rewrite !take_ge; [done|lia|lia].
Qed.

Lemma slice_drop_last {A} (l : list A) :
  slice l 0 (-1) = take (length l - 1) l.
Proof.
  unfold slice.
  assert (slice_bound (length l) 0 = 0) as -> by (unfold slice_bound; simpl; lia).
  rewrite drop_0, Nat.sub_0_r. unfold slice_bound. simpl. f_equal. lia.
Qed.

Lemma enter_pushes_same ans queue w :
  same_but_arrays w (enter_pushes ans queue w) [].
Proof.
  induction queue as [|[[g|g mtch key cbs valid]|] rest IH]; simpl;
    try done; try apply same_but_arrays_refl.
  destruct (ans g); try done.
  apply (same_but_arrays_trans _ _ _ [] [] IH), same_but_arrays_push.
Qed.

Lemma nextTick_same cbs w :
  this (nextTick cbs w) = this w /\ trace (nextTick cbs w) = trace w /\
  arrays (nextTick cbs w) = arrays w.
Proof. unfold nextTick. by destruct (app (router w)). Qed.

Lemma transitionTo_onComplete_push route c w :
  let w' := transitionTo_onComplete route (Some (push_onComplete c)) w in
  current (this w') = route /\ pending (this w') = pending (this w) /\
  ready (this w') = true /\
  stack (this w') = slice (stack (this w)) 0 (index (this w) + 1) ++ [route] /\
  index (this w') = (index (this w) + 1)%Z /\
  trace w' = trace w ++
    commit_events (this w) (router w) route (onComplete_events c route) /\
  arrays w' = arrays w.
Proof.
  unfold transitionTo_onComplete. rewrite updateRoute_unfold.
  unfold commit_events.
  generalize (update_events (cb (this w)) (afterHooks (router w)) route
                (current (this w))) as evs.
  intros evs. destruct w as [h rt ins arr tk tm tr].
  destruct h as [cur pen lst rdy rcbs recbs ecbs stk idx]. simpl.
  destruct c, rdy; simpl; repeat split; rewrite <- ?app_assoc; simpl;
    rewrite <- ?app_assoc; done.
Qed.

Lemma transitionTo_onComplete_replace route c w :
  let w' := transitionTo_onComplete route (Some (replace_onComplete c)) w in
  current (this w') = route /\ pending (this w') = pending (this w) /\
  ready (this w') = true /\
  stack (this w') = slice (stack (this w)) 0 (index (this w)) ++ [route] /\
  index (this w') = index (this w) /\
  trace w' = trace w ++
    commit_events (this w) (router w) route (onComplete_events c route) /\
  arrays w' = arrays w.
Proof.
  unfold transitionTo_onComplete. rewrite updateRoute_unfold.
  unfold commit_events.
  generalize (update_events (cb (this w)) (afterHooks (router w)) route
                (current (this w))) as evs.
  intros evs. destruct w as [h rt ins arr tk tm tr].
  destruct h as [cur pen lst rdy rcbs recbs ecbs stk idx]. simpl.
  destruct c, rdy; simpl; repeat split; rewrite <- ?app_assoc; simpl;
    rewrite <- ?app_assoc; done.
Qed.

Lemma transition_forward guardAct resolveAsyncComponents push_ replace_
    ans location oc oa w :
  let route := r_match (router w) location (current (this w)) in
  lets_through guardAct resolveAsyncComponents ans route w ->
  transitionTo guardAct resolveAsyncComponents push_ replace_ location oc oa w =
  Some (Settled
    (enter_pushes ans (enter_queue route w)
       (nextTick (length (arrays w))
          (transitionTo_onComplete route oc
             (before_commit resolveAsyncComponents route w))))).
Proof.
  intros route (Hdiff & Hans & Hfwd). unfold transitionTo.
  by rewrite (confirmTransition_forward guardAct resolveAsyncComponents
                push_ replace_ ans).
Qed.

Lemma enter_pushes_arrays ans n queue a w :
  Forall (pushes_to n) queue -> arrays w !! n = Some a ->
  arrays (enter_pushes ans queue w) =
  <[n := a ++ rev (enter_tasks ans queue)]> (arrays w).
Proof.
  intros Hq Ha. induction Hq as [|[[g|g mtch key cbs valid]|] rest Hh _ IH].
  - simpl. by rewrite app_nil_r, list_insert_id.
  - exact IH.
  - simpl in Hh. subst cbs. cbn [enter_pushes enter_tasks omap list_omap].
    fold (enter_tasks ans rest).
    destruct (ans g); try exact IH.
    unfold array_push. rewrite IH.
    rewrite list_lookup_insert_eq by (by eapply lookup_lt_Some). simpl.
    rewrite list_insert_insert_eq. by rewrite <- app_assoc.
  - exact IH.
Qed.

Lemma enter_queue_pushes_to route w :
  Forall (pushes_to (length (arrays w))) (enter_queue route w).
Proof. unfold enter_queue, extractEnterGuards. by apply extractGuards_Forall. Qed.

Lemma last_entry_snoc (l : list Route) route :
  match (l ++ [route]) !! (length (l ++ [route]) - 1) with
  | Some current_ => fullPath current_
  | None => "/"
  end = fullPath route.
Proof.
  rewrite length_app. simpl.
  replace (length l + 1 - 1) with (length l) by lia.
  by rewrite lookup_app_r, Nat.sub_diag by lia.
Qed.

Lemma before_commit_this resolveAsyncComponents route w :
  this (before_commit resolveAsyncComponents route w) = set_pending None (this w) /\
  router (before_commit resolveAsyncComponents route w) = router w /\
  trace (before_commit resolveAsyncComponents route w) =
    trace w ++ hook_events route (current (this w))
                 (guard_order resolveAsyncComponents route w) /\
  arrays (before_commit resolveAsyncComponents route w) = arrays w ++ [[]].
Proof. done. Qed.

(** X7. Let the cursor be within the stack, and let the target of a
    [push] not be short-circuited and every guard on the way answer at
    once with a value that is passed on.  Then the push settles within
    one level of nesting: the target is the current route, the pending
    slot is empty, the ready flag is set, the stack is its part up to
    the old cursor followed by the target (entries after the cursor
    are dropped), the cursor has moved one up and the target is the
    entry under it and the last one, so [getCurrentLocation] returns
    its full path.  The events are, in order: the guards in the order
    of [guard_order], each once; the entry into [updateRoute] with the
    listener and the after hooks; the completion callback of the call
    if any; the resync of the address backend; and the ready callbacks
    if the flag was not set.  The abort callback is not called. *)
Theorem push_completes
    (guardAct : list Event -> GuardId -> Route -> Route -> GuardAct)
    (resolveAsyncComponents : list RouteRecord -> GuardId)
    (fuel : nat) (ans : GuardId -> Value) (location : Value)
    (onComplete onAbort : option nat) (w : World) :
  let route := r_match (router w) location (current (this w)) in
  cursor_ok w ->
  lets_through guardAct resolveAsyncComponents ans route w ->
  exists w',
    push guardAct resolveAsyncComponents (S fuel) location onComplete onAbort w =
      Some (Settled w') /\
    current (this w') = route /\
    pending (this w') = None /\
    ready (this w') = true /\
    stack (this w') =
      take (Z.to_nat (index (this w) + 1)) (stack (this w)) ++ [route] /\
    index (this w') = (index (this w) + 1)%Z /\
    stack (this w') !! Z.to_nat (index (this w')) = Some route /\
    getCurrentLocation w' = fullPath route /\
    trace w' =
      trace w ++
      hook_events route (current (this w))
        (guard_order resolveAsyncComponents route w) ++
      commit_events (this w) (router w) route (onComplete_events onComplete route).
Proof.
  intros route Hc Hl. cbn [push]. unfold push_body, getCurrentLocation.
  rewrite (transition_forward guardAct resolveAsyncComponents _ _ ans) by done.
  fold route. eexists. split; [reflexivity|].
  destruct (enter_pushes_same ans (enter_queue route w)
              (nextTick (length (arrays w))
                 (transitionTo_onComplete route (Some (push_onComplete onComplete))
                    (before_commit resolveAsyncComponents route w))))
    as (-> & _ & _ & _ & _ & ->).
  destruct (nextTick_same (length (arrays w))
              (transitionTo_onComplete route (Some (push_onComplete onComplete))
                 (before_commit resolveAsyncComponents route w)))
    as (-> & -> & _).
  destruct (transitionTo_onComplete_push route onComplete
              (before_commit resolveAsyncComponents route w))
    as (-> & -> & -> & Hst & -> & -> & _).
  destruct (before_commit_this resolveAsyncComponents route w)
    as (-> & -> & -> & _).
  unfold cursor_ok in Hc.
  assert (stack (this (transitionTo_onComplete route (Some (push_onComplete onComplete))
                         (before_commit resolveAsyncComponents route w))) =
          take (Z.to_nat (index (this w) + 1)) (stack (this w)) ++ [route]) as Hst'.
  { rewrite Hst. destruct (before_commit_this resolveAsyncComponents route w)
      as (-> & _). cbn [stack index set_pending]. by rewrite slice_take by lia. }
  rewrite Hst'. repeat split.
  - cbn [index set_pending]. rewrite lookup_app_r; rewrite length_take; [|lia].
    replace (Z.to_nat (index (this w) + 1) -
             Z.to_nat (index (this w) + 1) `min` length (stack (this w))) with 0 by lia.
    done.
  - apply last_entry_snoc.
  - by rewrite app_nil_r, <- app_assoc.
Qed.

(** X8. Under the same conditions a [replace] settles with the
    target as current route, the pending slot empty, the ready flag
    set and the cursor where it was.  If the cursor was at an entry,
    the stack is its part before the cursor followed by the target:
    the entry under the cursor is replaced and the entries after it
    are dropped.  If the cursor was at -1 it stays there, and the
    target replaces the last entry of the stack, or becomes its only
    entry.  The events are as for [push]. *)
Theorem replace_completes
    (guardAct : list Event -> GuardId -> Route -> Route -> GuardAct)
    (resolveAsyncComponents : list RouteRecord -> GuardId)
    (fuel : nat) (ans : GuardId -> Value) (location : Value)
    (onComplete onAbort : option nat) (w : World) :
  let route := r_match (router w) location (current (this w)) in
  cursor_ok w ->
  lets_through guardAct resolveAsyncComponents ans route w ->
  exists w',
    replace guardAct resolveAsyncComponents (S fuel) location onComplete onAbort w =
      Some (Settled w') /\
    current (this w') = route /\
    pending (this w') = None /\
    ready (this w') = true /\
    index (this w') = index (this w) /\
    ((0 <= index (this w))%Z ->
       stack (this w') = take (Z.to_nat (index (this w))) (stack (this w)) ++ [route] /\
       stack (this w') !! Z.to_nat (index (this w')) = Some route) /\
    (index (this w) = (-1)%Z ->
       stack (this w') = take (length (stack (this w)) - 1) (stack (this w)) ++ [route]) /\
    getCurrentLocation w' = fullPath route /\
    trace w' =
      trace w ++
      hook_events route (current (this w))
        (guard_order resolveAsyncComponents route w) ++
      commit_events (this w) (router w) route (onComplete_events onComplete route).
Proof.
  intros route Hc Hl. cbn [replace]. unfold replace_body, getCurrentLocation.
  rewrite (transition_forward guardAct resolveAsyncComponents _ _ ans) by done.
  fold route. eexists. split; [reflexivity|].
  destruct (enter_pushes_same ans (enter_queue route w)
              (nextTick (length (arrays w))
                 (transitionTo_onComplete route (Some (replace_onComplete onComplete))
                    (before_commit resolveAsyncComponents route w))))
    as (-> & _ & _ & _ & _ & ->).
  destruct (nextTick_same (length (arrays w))
              (transitionTo_onComplete route (Some (replace_onComplete onComplete))
                 (before_commit resolveAsyncComponents route w)))
    as (-> & -> & _).
  destruct (transitionTo_onComplete_replace route onComplete
              (before_commit resolveAsyncComponents route w))
    as (-> & -> & -> & Hst & -> & -> & _).
  destruct (before_commit_this resolveAsyncComponents route w)
    as (Hthis & -> & -> & _).
  rewrite Hthis in Hst. cbn [stack index set_pending] in Hst.
  rewrite Hthis. cbn [pending index set_pending].
  unfold cursor_ok in Hc. rewrite Hst.
  split; [done|]. split; [done|]. split; [done|]. split; [done|].
  split; [|split; [|split]].
  - intros Hi. rewrite slice_take by done. split; [done|].
    rewrite lookup_app_r; rewrite length_take; [|lia].
    replace (Z.to_nat (index (this w)) -
             Z.to_nat (index (this w)) `min` length (stack (this w))) with 0 by lia.
    done.
  - intros ->. by rewrite slice_drop_last.
  - apply last_entry_snoc.
  - by rewrite app_nil_r, <- app_assoc.
Qed.

Lemma go_onComplete_effect targetIndex route w :
  let w' := go_onComplete targetIndex route w in
  current (this w') = route /\ pending (this w') = pending (this w) /\
  ready (this w') = ready (this w) /\ stack (this w') = stack (this w) /\
  index (this w') = targetIndex /\
  trace w' = trace w ++
    EvUpdateRoute route ::
    update_events (cb (this w)) (afterHooks (router w)) route (current (this w)).
Proof.
  unfold go_onComplete. rewrite updateRoute_unfold. simpl.
  repeat split. by rewrite <- app_assoc.
Qed.

(** X9. Let [go(n)] find the route [route] at the target index, let
    it not be short-circuited and let every guard on the way answer at
    once with a value that is passed on.  Then [go] settles, whatever
    the nesting allowed: the route found is the current route, the
    cursor is at the target index, the pending slot is empty, and the
    stack and the ready flag are as before.  The events are the
    guards in order, each once, and the entry into [updateRoute] with
    the listener and the after hooks: no ready callback is called and
    the address backend is not resynced. *)
Theorem go_completes
    (guardAct : list Event -> GuardId -> Route -> Route -> GuardAct)
    (resolveAsyncComponents : list RouteRecord -> GuardId)
    (fuel : nat) (ans : GuardId -> Value) (n : Z) (route : Route) (w : World) :
  (0 <= index (this w) + n)%Z ->
  stack (this w) !! Z.to_nat (index (this w) + n) = Some route ->
  lets_through guardAct resolveAsyncComponents ans route w ->
  exists w',
    go guardAct resolveAsyncComponents fuel n w = Some (Settled w') /\
    current (this w') = route /\
    pending (this w') = None /\
    index (this w') = (index (this w) + n)%Z /\
    stack (this w') = stack (this w) /\
    ready (this w') = ready (this w) /\
    trace w' =
      trace w ++
      hook_events route (current (this w))
        (guard_order resolveAsyncComponents route w) ++
      EvUpdateRoute route ::
      update_events (cb (this w)) (afterHooks (router w)) route (current (this w)).
Proof.
  intros Hlo Hroute (Hdiff & Hans & Hfwd). unfold go, go_body.
  pose proof (lookup_lt_Some _ _ _ Hroute) as Hlt.
  replace ((index (this w) + n <? 0)%Z
           || (index (this w) + n >=? Z.of_nat (length (stack (this w))))%Z)
    with false by (symmetry; apply orb_false_iff; split; lia).
  rewrite Hroute.
  rewrite (confirmTransition_forward guardAct resolveAsyncComponents _ _ ans) by done.
  eexists. split; [reflexivity|].
  fold (enter_queue route w). fold (before_commit resolveAsyncComponents route w).
  destruct (enter_pushes_same ans (enter_queue route w)
              (nextTick (length (arrays w))
                 (go_onComplete (index (this w) + n) route
                    (before_commit resolveAsyncComponents route w))))
    as (-> & _ & _ & _ & _ & ->).
  destruct (nextTick_same (length (arrays w))
              (go_onComplete (index (this w) + n) route
                 (before_commit resolveAsyncComponents route w)))
    as (-> & -> & _).
  destruct (go_onComplete_effect (index (this w) + n) route
              (before_commit resolveAsyncComponents route w))
    as (-> & -> & -> & -> & -> & ->).
  destruct (before_commit_this resolveAsyncComponents route w)
    as (-> & -> & -> & _).
  repeat split. by rewrite app_nil_r, <- app_assoc.
Qed.

Lemma transitionTo_onComplete_user route f w :
  let w' := transitionTo_onComplete route (option_map user_onComplete f) w in
  current (this w') = route /\ pending (this w') = pending (this w) /\
  ready (this w') = true /\ stack (this w') = stack (this w) /\
  index (this w') = index (this w) /\
  trace w' = trace w ++
    commit_events (this w) (router w) route (onComplete_events f route).
Proof.
  unfold transitionTo_onComplete. rewrite updateRoute_unfold.
  unfold commit_events.
  generalize (update_events (cb (this w)) (afterHooks (router w)) route
                (current (this w))) as evs.
  intros evs. destruct w as [h rt ins arr tk tm tr].
  destruct h as [cur pen lst rdy rcbs recbs ecbs stk idx]. simpl.
  destruct f, rdy; simpl; repeat split; rewrite <- ?app_assoc; simpl;
    rewrite <- ?app_assoc; done.
Qed.

(** X10. Let the target of a navigation started through
    [transitionTo] itself, with user callbacks, not be short-circuited
    and let every guard on the way answer at once with a value that
    is passed on.  Then the navigation settles with the target as
    current route, the pending slot empty and the ready flag set, and
    leaves the stack and the cursor as they are, so
    [getCurrentLocation] returns what it returned before.  The events
    are as for [push]. *)
Theorem transitionTo_completes
    (guardAct : list Event -> GuardId -> Route -> Route -> GuardAct)
    (resolveAsyncComponents : list RouteRecord -> GuardId)
    (push_ replace_ : Value -> Run) (ans : GuardId -> Value) (location : Value)
    (onComplete onAbort : option nat) (w : World) :
  let route := r_match (router w) location (current (this w)) in
  lets_through guardAct resolveAsyncComponents ans route w ->
  exists w',
    transitionTo guardAct resolveAsyncComponents push_ replace_ location
      (option_map user_onComplete onComplete) (option_map user_onAbort onAbort) w =
      Some (Settled w') /\
    current (this w') = route /\
    pending (this w') = None /\
    ready (this w') = true /\
    stack (this w') = stack (this w) /\
    index (this w') = index (this w) /\
    getCurrentLocation w' = getCurrentLocation w /\
    trace w' =
      trace w ++
      hook_events route (current (this w))
        (guard_order resolveAsyncComponents route w) ++
      commit_events (this w) (router w) route (onComplete_events onComplete route).
Proof.
  intros route Hl. unfold getCurrentLocation.
  rewrite (transition_forward guardAct resolveAsyncComponents _ _ ans) by done.
  fold route. eexists. split; [reflexivity|].
  destruct (enter_pushes_same ans (enter_queue route w)
              (nextTick (length (arrays w))
                 (transitionTo_onComplete route (option_map user_onComplete onComplete)
                    (before_commit resolveAsyncComponents route w))))
    as (-> & _ & _ & _ & _ & ->).
  destruct (nextTick_same (length (arrays w))
              (transitionTo_onComplete route (option_map user_onComplete onComplete)
                 (before_commit resolveAsyncComponents route w)))
    as (-> & -> & _).
  destruct (transitionTo_onComplete_user route onComplete
              (before_commit resolveAsyncComponents route w))
    as (-> & -> & -> & -> & -> & ->).
  destruct (before_commit_this resolveAsyncComponents route w)
    as (-> & -> & -> & _).
  repeat split. by rewrite app_nil_r, <- app_assoc.
Qed.

(** ** A waiting guard lets through *)

(** X11. Let a waiting guard call its continuation with a value that
    is passed on while the pending slot still holds the route of its
    transition, and let the guards after it in its queue (and, if it
    belongs to the first queue, the enter guards and the global
    resolve hooks) answer at once with values that are passed on.
    Then the transition completes: exactly the guards after the
    waiting one are invoked, in order, the waiting one is not invoked
    again, the pending slot is cleared, the completion callback is
    called once, and the tick for the deferred callbacks is scheduled
    if there is an app. *)
Theorem waiting_guard_lets_through
    (guardAct : list Event -> GuardId -> Route -> Route -> GuardAct)
    (resolveAsyncComponents : list RouteRecord -> GuardId)
    (push_ replace_ : Value -> Run) (ans : GuardId -> Value)
    (ctx : Ctx) (hook : Hook) (rest : list (option Hook)) (v : Value) (w : World)
    (Hp : is_pending (c_route ctx) w = true)
    (Hv : forwarded v = true) :
  (forall cbs,
      (forall t g, In g (queue_guards rest) ->
         guardAct t g (c_route ctx) (c_current ctx) = Call (ans g)) ->
      (forall g, In g (queue_guards rest) -> forwarded (ans g) = true) ->
      resume_body guardAct push_ replace_
        {| k_ctx := ctx; k_stage := StageB cbs; k_hook := hook; k_rest := rest |} v w =
      Some (Settled
        (own_push hook v
           (enter_pushes ans rest
              (nextTick cbs
                 (c_onComplete ctx (c_route ctx)
                    (on_this (set_pending None)
                       (emits (hook_events (c_route ctx) (c_current ctx)
                                 (queue_guards rest)) w)))))))) /\
  (forall activated,
      let queue :=
        extractEnterGuards activated (length (arrays w)) (c_route ctx) w ++
        map (fun g => Some (PlainGuard g)) (resolveHooks (router w)) in
      (forall t g, In g (queue_guards rest ++ queue_guards queue) ->
         guardAct t g (c_route ctx) (c_current ctx) = Call (ans g)) ->
      (forall g, In g (queue_guards rest ++ queue_guards queue) ->
         forwarded (ans g) = true) ->
      resume_body guardAct push_ replace_
        {| k_ctx := ctx; k_stage := StageA activated; k_hook := hook;
           k_rest := rest |} v w =
      Some (Settled
        (own_push hook v
           (enter_pushes ans rest
              (enter_pushes ans queue
                 (nextTick (length (arrays w))
                    (c_onComplete ctx (c_route ctx)
                       (on_this (set_pending None)
                          (emits (hook_events (c_route ctx) (c_current ctx)
                                    (queue_guards rest ++ queue_guards queue))
                             (set_arrays (arrays w ++ [[]]) w)))))))))).
Proof.
  split.
  - intros cbs Hans Hfwd. unfold resume_body. cbn [k_ctx k_stage k_hook k_rest].
    rewrite hookNext_forward by done.
    rewrite (runQueue_forward guardAct push_ replace_ ans ctx) by done.
    cbn [stage_done]. unfold confirmed. rewrite is_pending_emits, Hp.
    cbn [negb option_map outcome_map]. done.
  - intros activated queue Hans Hfwd. unfold resume_body.
    cbn [k_ctx k_stage k_hook k_rest]. rewrite hookNext_forward by done.
    rewrite (runQueue_forward guardAct push_ replace_ ans ctx); cycle 1.
    { intros t g Hg. apply Hans, in_app_iff. by left. }
    { intros g Hg. apply Hfwd, in_app_iff. by left. }
    { done. }
    cbn [stage_done]. unfold resolved.
    change (runQueue _ _ _ _) with
      (runQueue queue (iterator guardAct push_ replace_ ctx (StageB (length (arrays w))))
         (confirmed ctx (length (arrays w)))
         (set_arrays (arrays w ++ [[]])
            (emits (hook_events (c_route ctx) (c_current ctx) (queue_guards rest)) w))).
    rewrite (runQueue_forward guardAct push_ replace_ ans ctx); cycle 1.
    { intros t g Hg. apply Hans, in_app_iff. by right. }
    { intros g Hg. apply Hfwd, in_app_iff. by right. }
    { done. }
    unfold confirmed. rewrite is_pending_emits.
    replace (is_pending (c_route ctx) (set_arrays _ _)) with true by (by rewrite <- Hp).
    cbn [negb option_map outcome_map]. do 5 f_equal.
    unfold hook_events. rewrite map_app.
    unfold on_this, emits, set_arrays. simpl. by rewrite app_assoc.
Qed.

(** ** Guards that do not let through *)

(** X12. A queue stops at its first guard that does not let through.
    Let the guards before [hook] in a queue answer at once with values
    that are passed on, and look at the answer of [hook] when its turn
    comes.  If it is a veto ([false] or an error), the address backend
    is resynced with the force flag and the transition aborts with
    that value; if the guard throws, the transition aborts with the
    thrown value; if the guard does not answer, the run is left
    waiting with exactly the steps after [hook] as its continuation.
    In each case the guards up to [hook] have been invoked once each,
    in order, no guard after [hook] has been invoked, and the
    completion callback of the queue has not been called. *)
Theorem queue_stops_at_refusal
    (guardAct : list Event -> GuardId -> Route -> Route -> GuardAct)
    (push_ replace_ : Value -> Run) (ans : GuardId -> Value)
    (ctx : Ctx) (stage : Stage) (q1 q2 : list (option Hook)) (hook : Hook)
    (cb : Run) (w : World)
    (Hp : is_pending (c_route ctx) w = true)
    (Hans : forall t g, In g (queue_guards q1) ->
       guardAct t g (c_route ctx) (c_current ctx) = Call (ans g))
    (Hfwd : forall g, In g (queue_guards q1) -> forwarded (ans g) = true) :
  let w1 := emits (hook_events (c_route ctx) (c_current ctx)
                     (queue_guards q1 ++ [hook_guard hook])) w in
  let answer := guardAct
                  (trace w ++ hook_events (c_route ctx) (c_current ctx) (queue_guards q1))
                  (hook_guard hook) (c_route ctx) (c_current ctx) in
  let run := runQueue (q1 ++ Some hook :: q2)
               (iterator guardAct push_ replace_ ctx stage) cb w in
  (forall v, answer = Call v -> vetoes v = true ->
     run = Some (Settled (enter_pushes ans q1
                            (abort (c_onAbort ctx) v (ensureURL true w1))))) /\
  (forall e, answer = Throw e ->
     run = Some (Settled (enter_pushes ans q1 (abort (c_onAbort ctx) e w1)))) /\
  (answer = Suspend ->
     run = Some (Suspended (enter_pushes ans q1 w1)
                   {| k_ctx := ctx; k_stage := stage; k_hook := hook; k_rest := q2 |})).
Proof.
  intros w1 answer run.
  assert (run =
          option_map (outcome_map (enter_pushes ans q1))
            match answer with
            | Call v =>
                hookNext push_ replace_ ctx hook
                  (runQueue q2 (iterator guardAct push_ replace_ ctx stage) cb) v w1
            | Throw e => Some (Settled (abort (c_onAbort ctx) e w1))
            | Suspend =>
                Some (Suspended w1 {| k_ctx := ctx; k_stage := stage;
                                      k_hook := hook; k_rest := q2 |})
            end) as ->.
  { subst run.
    rewrite (runQueue_forward_app guardAct push_ replace_ ans ctx) by done.
    cbn [runQueue]. unfold iterator at 1. rewrite is_pending_emits, Hp. cbn [negb].
    assert (emit (EvHook (hook_guard hook) (c_route ctx) (c_current ctx))
              (emits (hook_events (c_route ctx) (c_current ctx) (queue_guards q1)) w)
            = w1) as ->; [|done].
    unfold w1, emit, hook_events. by rewrite emits_emits, map_app. }
  split; [|split].
  - intros v -> Hv.
    rewrite hookNext_not_function by (by destruct v as [|[]| | | |]).
    unfold resultHandler. unfold vetoes in Hv. by rewrite Hv.
  - by intros e ->.
  - by intros ->.
Qed.

Lemma abort_go err w :
  abort None err w = emits (report_events (errorCbs (this w)) err) w.
Proof.
  unfold abort, report_events. destruct (isError err); [|by rewrite emits_nil].
  destruct (errorCbs (this w)); simpl; [|done].
  unfold emit. by rewrite emits_emits.
Qed.

Lemma abort_transition oa err w :
  abort (Some (transitionTo_onAbort (option_map user_onAbort oa))) err w =
  fail_ready err (emits (failure_events (this w) oa err) w).
Proof.
  unfold failure_events. rewrite <- emits_emits.
  change (abort (Some (transitionTo_onAbort (option_map user_onAbort oa))) err w)
    with (transitionTo_onAbort (option_map user_onAbort oa) err (abort None err w)).
  rewrite abort_go.
  generalize (report_events (errorCbs (this w)) err) as evs. intros evs.
  unfold transitionTo_onAbort, fail_ready.
  assert (ready (this (match option_map user_onAbort oa with
                       | Some f => f err (emits evs w)
                       | None => emits evs w
                       end)) = ready (this w)) as Hr by (by destruct oa).
  rewrite Hr. cbn [emits this]. destruct (truthy err && negb (ready (this w))).
  - destruct oa; simpl; unfold emits, on_this, user_onAbort, emit, emits; simpl;
      by rewrite <- ?app_assoc.
  - destruct oa; simpl; unfold emits, user_onAbort, emit, emits; simpl;
      by rewrite <- ?app_assoc, ?app_nil_r.
Qed.

(** X13. When a guard throws, the transition aborts with the thrown
    value without a resync of the address backend; when a guard calls
    its continuation with an error, the address backend is resynced
    with the force flag first.  In both cases an error is reported to
    every global error callback once, in registration order, or, when
    there is none, by a warning and [console.error]; a thrown value
    that is not an error is not reported.  For a transition started
    through [transitionTo] the user abort callback, if any, is then
    called once with the value, and if the value is truthy and the
    ready flag is not set, the flag is set and every ready-error
    callback is called once with the value.  For a transition started
    by [go] nothing but the report happens.  The current route, the
    pending slot, the stack and the cursor stay as they are. *)
Theorem guard_failure
    (guardAct : list Event -> GuardId -> Route -> Route -> GuardAct)
    (resolveAsyncComponents : list RouteRecord -> GuardId)
    (push_ replace_ : Value -> Run) :
  (forall route current_ oc oa stage hook next rest w e,
      is_pending route w = true ->
      guardAct (trace w) (hook_guard hook) route current_ = Throw e ->
      iterator guardAct push_ replace_
        (transition_ctx route current_ oc (option_map user_onAbort oa))
        stage hook next rest w =
      Some (Settled (fail_ready e
        (emits (EvHook (hook_guard hook) route current_ ::
                failure_events (this w) oa e) w)))) /\
  (forall route current_ targetIndex stage hook next rest w e,
      is_pending route w = true ->
      guardAct (trace w) (hook_guard hook) route current_ = Throw e ->
      iterator guardAct push_ replace_ (go_ctx route current_ targetIndex)
        stage hook next rest w =
      Some (Settled (emits (EvHook (hook_guard hook) route current_ ::
                            report_events (errorCbs (this w)) e) w))) /\
  (forall route current_ oc oa stage hook next rest w e,
      is_pending route w = true -> isError e = true ->
      guardAct (trace w) (hook_guard hook) route current_ = Call e ->
      iterator guardAct push_ replace_
        (transition_ctx route current_ oc (option_map user_onAbort oa))
        stage hook next rest w =
      Some (Settled (fail_ready e
        (emits (EvHook (hook_guard hook) route current_ :: EvEnsureURL true ::
                failure_events (this w) oa e) w)))) /\
  (forall route current_ targetIndex stage hook next rest w e,
      is_pending route w = true -> isError e = true ->
      guardAct (trace w) (hook_guard hook) route current_ = Call e ->
      iterator guardAct push_ replace_ (go_ctx route current_ targetIndex)
        stage hook next rest w =
      Some (Settled (emits (EvHook (hook_guard hook) route current_ ::
                            EvEnsureURL true ::
                            report_events (errorCbs (this w)) e) w))).
Proof.
  split; [|split; [|split]].
  - intros route current_ oc oa stage hook next rest w e Hp Hact.
    unfold iterator. cbn [c_route c_current c_onAbort transition_ctx].
    rewrite Hp, Hact. cbn [negb]. rewrite abort_transition.
    unfold emit. by rewrite emits_emits.
  - intros route current_ targetIndex stage hook next rest w e Hp Hact.
    unfold iterator. cbn [c_route c_current c_onAbort go_ctx].
    rewrite Hp, Hact. cbn [negb]. rewrite abort_go.
    unfold emit. by rewrite emits_emits.
  - intros route current_ oc oa stage hook next rest w e Hp He Hact.
    unfold iterator. cbn [c_route c_current transition_ctx].
    rewrite Hp, Hact. cbn [negb].
    rewrite hookNext_not_function by (by destruct e).
    unfold resultHandler. rewrite He, orb_true_r.
    cbn [c_onAbort transition_ctx]. rewrite abort_transition.
    unfold ensureURL, emit. by rewrite !emits_emits.
  - intros route current_ targetIndex stage hook next rest w e Hp He Hact.
    unfold iterator. cbn [c_route c_current go_ctx].
    rewrite Hp, Hact. cbn [negb].
    rewrite hookNext_not_function by (by destruct e).
    unfold resultHandler. rewrite He, orb_true_r.
    cbn [c_onAbort go_ctx]. rewrite abort_go.
    unfold ensureURL, emit. by rewrite !emits_emits.
Qed.

(** ** Redirects without end *)

Section RedirectLoop.
Variable guardAct : list Event -> GuardId -> Route -> Route -> GuardAct.
Variable resolveAsyncComponents : list RouteRecord -> GuardId.
Variables (rt : Router) (c0 : Route) (to : Value) (r0 : GuardId).
Hypothesis Hto : redirects to = true.
Hypothesis Hr0 : forall t route current_, guardAct t r0 route current_ = Call to.
Hypothesis Hall : forall t g route current_,
  exists v, guardAct t g route current_ = Call v /\ (v = to \/ forwarded v = true).
Variables push_ replace_ : Value -> Run.
Hypothesis Hpush : forall w,
  router w = rt -> current (this w) = c0 -> push_ to w = None.
Hypothesis Hreplace : forall w,
  router w = rt -> current (this w) = c0 -> replace_ to w = None.

Lemma runQueue_redirect_loop route current_ oc oa stage queue cb w :
  In (Some (PlainGuard r0)) queue ->
  is_pending route w = true ->
  router w = rt -> current (this w) = c0 ->
  runQueue queue
    (iterator guardAct push_ replace_
       (transition_ctx route current_ oc (option_map user_onAbort oa)) stage)
    cb w = None.
Proof.
  revert w. induction queue as [|[hook|] rest IH]; intros w Hin Hp Hrt Hc0.
  - destruct Hin.
  - cbn [runQueue]. unfold iterator at 1. cbn [c_route c_current transition_ctx].
    rewrite Hp. cbn [negb].
    destruct (Hall (trace w) (hook_guard hook) route current_) as (v & Hact & Hv).
    rewrite Hact.
    assert (forall next,
              resultHandler push_ replace_
                (transition_ctx route current_ oc (option_map user_onAbort oa))
                next to (emit (EvHook (hook_guard hook) route current_) w) = None)
      as Hredirect.
    { intros next. unfold resultHandler.
      rewrite (redirects_not_veto _ Hto). unfold redirects in Hto. rewrite Hto.
      cbn [c_onAbort transition_ctx]. rewrite user_abort_silent.
      destruct (typeof_object to && replace_flag to); [by apply Hreplace|by apply Hpush]. }
    destruct Hv as [->|Hv].
    + rewrite hookNext_not_function by (by apply redirects_not_function).
      apply Hredirect.
    + assert (In (Some (PlainGuard r0)) rest) as Hrest.
      { destruct Hin as [[= ->]|Hin]; [|done]. simpl in Hact.
        rewrite Hr0 in Hact. injection Hact as <-.
        unfold forwarded in Hv. rewrite Hto in Hv.
        by rewrite andb_false_r in Hv. }
      specialize (IH (emit (EvHook (hook_guard hook) route current_) w) Hrest Hp Hrt Hc0).
      destruct (forwarded_inv _ Hv) as [Hv1 Hv2].
      destruct hook as [g|g mtch key cbs valid]; cbn [hookNext hook_guard] in *.
      * unfold resultHandler. rewrite Hv1, Hv2. exact IH.
      * unfold resultHandler. rewrite Hv1, Hv2. by rewrite IH.
  - cbn [runQueue]. apply IH; try done. by destruct Hin.
Qed.

Lemma transitionTo_redirect_loop location oc oa w :
  In r0 (beforeHooks rt) ->
  (forall location,
      isSameRoute (r_match rt location c0) c0 &&
      (length (matched (r_match rt location c0)) =? length (matched c0)) = false) ->
  router w = rt -> current (this w) = c0 ->
  transitionTo guardAct resolveAsyncComponents push_ replace_ location oc
    (option_map user_onAbort oa) w = None.
Proof.
  intros Hin Hdiff Hrt Hc0. unfold transitionTo, confirmTransition.
  rewrite Hrt, Hc0, Hdiff.
  apply (runQueue_redirect_loop (r_match rt location c0) c0 oc oa); try done.
  - apply in_app_iff. right. apply in_app_iff. left.
    apply in_map_iff. by exists r0.
  - unfold is_pending. simpl. by rewrite Nat.eqb_refl.
Qed.

End RedirectLoop.

(** X14. Redirects are not checked for loops.  Let a global before
    hook answer every invocation with the same redirect target, let
    every guard answer at once with that target or with a value that
    is passed on, and let no location match the current route [c0]
    closely enough to be short-circuited.  Then a [push] or a
    [replace] started while [c0] is current does not settle within any
    depth of nesting. *)
Theorem redirect_loop_unbounded
    (guardAct : list Event -> GuardId -> Route -> Route -> GuardAct)
    (resolveAsyncComponents : list RouteRecord -> GuardId)
    (rt : Router) (c0 : Route) (to : Value) (r0 : GuardId)
    (Hto : redirects to = true)
    (Hin : In r0 (beforeHooks rt))
    (Hr0 : forall t route current_, guardAct t r0 route current_ = Call to)
    (Hall : forall t g route current_,
       exists v, guardAct t g route current_ = Call v /\
                 (v = to \/ forwarded v = true))
    (Hdiff : forall location,
       isSameRoute (r_match rt location c0) c0 &&
       (length (matched (r_match rt location c0)) =? length (matched c0)) = false) :
  forall fuel location onComplete onAbort w,
    router w = rt -> current (this w) = c0 ->
    push guardAct resolveAsyncComponents fuel location onComplete onAbort w = None /\
    replace guardAct resolveAsyncComponents fuel location onComplete onAbort w = None.
Proof.
  induction fuel as [|fuel IH]; intros location oc oa w Hrt Hc0; [done|].
  cbn [push replace]. unfold push_body, replace_body. split.
  - apply (transitionTo_redirect_loop guardAct resolveAsyncComponents rt c0 to r0);
      try done; intros w' Hrt' Hc0'; by apply IH.
  - apply (transitionTo_redirect_loop guardAct resolveAsyncComponents rt c0 to r0);
      try done; intros w' Hrt' Hc0'; by apply IH.
Qed.

(** ** Callbacks of enter guards *)

Lemma transitionTo_onComplete_env route oc w :
  known_onComplete oc ->
  let w' := transitionTo_onComplete route oc w in
  router w' = router w /\ instances w' = instances w /\ arrays w' = arrays w /\
  ticks w' = ticks w /\ timers w' = timers w.
Proof.
  intros Hoc. unfold transitionTo_onComplete. rewrite updateRoute_unfold.
  destruct Hoc as [|f|c|c]; try destruct c; simpl;
    destruct (ready (this w)); done.
Qed.

Lemma run_task_same t w :
  instances (run_task t w) = instances w /\ this (run_task t w) = this w.
Proof.
  unfold run_task, poll. destruct (instances w !! _); [done|].
  by destruct (isValid _ w).
Qed.

Lemma foldl_run_task a w :
  foldl (fun w t => run_task t w) w a =
  set_timers (timers w ++ retried w a) (emits (delivered w a) w).
Proof.
  revert w. induction a as [|t a IH]; intros w.
  - simpl. rewrite app_nil_r. destruct w. unfold set_timers, emits. simpl.
    by rewrite app_nil_r.
  - cbn [foldl]. rewrite IH. destruct (run_task_same t w) as [Hi Ht].
    assert (delivered (run_task t w) a = delivered w a) as ->
      by (unfold delivered; by rewrite Hi).
    assert (retried (run_task t w) a = retried w a) as ->
      by (unfold retried, isValid; by rewrite Hi, Ht).
    unfold delivered at 2, retried at 2.
    cbn [omap list_omap]. fold (delivered w a). fold (retried w a).
    unfold run_task, poll.
    destruct (instances w !! (pt_match t, pt_key t)) as [i|] eqn:E.
    + unfold emit, emits, set_timers. simpl. by rewrite <- app_assoc.
    + destruct (isValid (pt_route t) w) eqn:V; [|done].
      unfold setTimeout, set_timers, emits. simpl.
      rewrite <- app_assoc. by destruct t.
Qed.

(** X15. Let a navigation through [transitionTo] (with no completion
    callback, a user one, or that of [push] or [replace]) not be
    short-circuited, and let every guard on the way answer at once
    with a value that is passed on.  Then one array of deferred
    callbacks is added; it holds one poll task for every function an
    enter guard answered with, in the reverse of the order of the
    guards, since the wrapper of a guard pushes its task after the
    rest of the queue has run.  If there is an app, one tick is
    scheduled for that array, otherwise none; no timer is set and no
    instance is touched.  Running the array then polls the tasks in
    that reversed order. *)
Theorem enter_callbacks_queued
    (guardAct : list Event -> GuardId -> Route -> Route -> GuardAct)
    (resolveAsyncComponents : list RouteRecord -> GuardId)
    (push_ replace_ : Value -> Run) (ans : GuardId -> Value) (location : Value)
    (oc : option (Route -> Act)) (oa : option (Value -> Act)) (w : World) :
  let route := r_match (router w) location (current (this w)) in
  known_onComplete oc ->
  lets_through guardAct resolveAsyncComponents ans route w ->
  exists w',
    transitionTo guardAct resolveAsyncComponents push_ replace_ location oc oa w =
      Some (Settled w') /\
    arrays w' = arrays w ++ [rev (enter_tasks ans (enter_queue route w))] /\
    ticks w' = (if app (router w) then ticks w ++ [length (arrays w)] else ticks w) /\
    timers w' = timers w /\
    instances w' = instances w /\
    run_array (length (arrays w)) w' =
      set_timers
        (timers w' ++ retried w' (rev (enter_tasks ans (enter_queue route w))))
        (emits (delivered w' (rev (enter_tasks ans (enter_queue route w)))) w').
Proof.
  intros route Hoc Hl.
  rewrite (transition_forward guardAct resolveAsyncComponents _ _ ans) by done.
  fold route. eexists. split; [reflexivity|].
  set (wc := transitionTo_onComplete route oc
               (before_commit resolveAsyncComponents route w)).
  destruct (transitionTo_onComplete_env route oc
              (before_commit resolveAsyncComponents route w) Hoc)
    as (Hrt & Hin & Har & Htk & Htm).
  fold wc in Hrt, Hin, Har, Htk, Htm. simpl in Hrt, Hin, Har, Htk, Htm.
  assert (arrays (enter_pushes ans (enter_queue route w)
                    (nextTick (length (arrays w)) wc)) =
          arrays w ++ [rev (enter_tasks ans (enter_queue route w))]) as Harr.
  { rewrite (enter_pushes_arrays ans (length (arrays w)) _ [])
      by (first [apply enter_queue_pushes_to
                |destruct (nextTick_same (length (arrays w)) wc) as (_ & _ & ->);
                 rewrite Har; by rewrite lookup_app_r, Nat.sub_diag by lia]).
    destruct (nextTick_same (length (arrays w)) wc) as (_ & _ & ->).
    rewrite Har. simpl.
    replace (length (arrays w)) with (length (arrays w) + 0) at 1 by lia.
    by rewrite insert_app_r. }
  destruct (enter_pushes_same ans (enter_queue route w)
              (nextTick (length (arrays w)) wc)) as (_ & _ & Hi & Ht & Hm & _).
  split; [exact Harr|]. split; [|split; [|split]].
  - rewrite Ht. unfold nextTick. rewrite Hrt. destruct (app (router w)); simpl; congruence.
  - rewrite Hm. unfold nextTick. destruct (app (router wc)); simpl; congruence.
  - rewrite Hi. unfold nextTick. destruct (app (router wc)); simpl; congruence.
  - unfold run_array. rewrite Harr.
    rewrite lookup_app_r, Nat.sub_diag by lia. simpl. apply foldl_run_task.
Qed.

(** X16. Running an array of deferred callbacks polls each task in
    the order of the array: the callbacks whose instance is
    registered are called with it, in that order; each task whose
    instance is missing while its route is identically the current
    one is left to a timer of 16 ms, in that order; the other tasks
    are dropped.  Nothing else changes. *)
Theorem run_array_effect (cbs : nat) (a : list PollTask) (w : World) :
  arrays w !! cbs = Some a ->
  run_array cbs w = set_timers (timers w ++ retried w a) (emits (delivered w a) w).
Proof. intros H. unfold run_array. rewrite H. apply foldl_run_task. Qed.

(** ** What the stack holds *)

Lemma stack_committed_frame (f : Act) :
  (forall w, stack (this (f w)) = stack (this w) /\
             exists evs, trace (f w) = trace w ++ evs) ->
  keeps stack_committed f.
Proof.
  intros Hf w Hw route Hr. destruct (Hf w) as [Hs [evs Ht]].
  rewrite Hs in Hr. rewrite Ht. apply in_app_iff. left. by apply Hw.
Qed.

Lemma stack_committed_stable : Stable stack_committed.
Proof.
  split.
  - intros evs _. apply stack_committed_frame. intros w. split; [done|by exists evs].
  - intros p. apply stack_committed_frame. intros w. split; [done|].
    exists []. by rewrite app_nil_r.
  - intros a. apply stack_committed_frame. intros w. split; [done|].
    exists []. by rewrite app_nil_r.
  - intros t. apply stack_committed_frame. intros w. split; [done|].
    exists []. by rewrite app_nil_r.
Qed.

Lemma In_take {A} (x : A) n l : In x (take n l) -> In x l.
Proof.
  revert n. induction l as [|y l IH]; intros [|n]; simpl; try done.
  intros [->|H]; [by left|right; by eapply IH].
Qed.

Lemma In_slice_from_0 {A} (x : A) l e : In x (slice l 0 e) -> In x l.
Proof.
  unfold slice.
  assert (slice_bound (length l) 0 = 0) as -> by (unfold slice_bound; simpl; lia).
  rewrite drop_0. apply In_take.
Qed.

Lemma stack_committed_onComplete route oc :
  known_onComplete oc -> keeps stack_committed (transitionTo_onComplete route oc).
Proof.
  intros Hoc w Hw r Hr.
  assert (exists evs,
            trace (transitionTo_onComplete route oc w) =
            trace w ++ EvUpdateRoute route :: evs) as [evs Ht].
  { unfold transitionTo_onComplete. rewrite updateRoute_unfold.
    generalize (update_events (cb (this w)) (afterHooks (router w)) route
                  (current (this w))) as evs. intros evs.
    destruct Hoc as [|f|c|c]; try destruct c; simpl;
      destruct (ready (this w)); simpl; rewrite <- ?app_assoc; simpl;
      rewrite <- ?app_assoc; simpl; eauto. }
  assert (In r (stack (this w)) \/ r = route) as [H| ->].
  { revert Hr. unfold transitionTo_onComplete. rewrite updateRoute_unfold.
    destruct Hoc as [|f|c|c]; try destruct c; simpl;
      destruct (ready (this w)); simpl; auto;
      intros H; apply in_app_iff in H as [H|[<-|[]]]; auto;
      left; by eapply In_slice_from_0. }
  - rewrite Ht. apply in_app_iff. left. by apply Hw.
  - rewrite Ht. apply in_app_iff. right. by left.
Qed.

Lemma stack_committed_onAbort oa err :
  known_onAbort oa -> keeps stack_committed (transitionTo_onAbort oa err).
Proof.
  intros Hoa. apply stack_committed_frame. intros w. unfold transitionTo_onAbort.
  destruct Hoa as [|f]; simpl; destruct (truthy err && negb (ready (this w)));
    simpl; (split; [done|]); rewrite <- ?app_assoc; eauto.
  exists []. by rewrite app_nil_r.
Qed.

Lemma stack_committed_go targetIndex route :
  keeps stack_committed (go_onComplete targetIndex route).
Proof.
  apply stack_committed_frame. intros w.
  destruct (go_onComplete_effect targetIndex route w) as (_ & _ & _ & -> & _ & ->).
  eauto.
Qed.

Lemma stack_committed_run_task t : keeps stack_committed (run_task t).
Proof.
  apply stack_committed_frame. intros w. unfold run_task, poll.
  destruct (instances w !! _); simpl; [eauto|].
  destruct (isValid _ w); simpl; (split; [done|]); exists []; by rewrite app_nil_r.
Qed.

(** X17. In every state reached from the initial one, every route on
    the stack has been committed: [updateRoute] was entered with
    it. *)
Theorem stack_entries_committed
    (guardAct : list Event -> GuardId -> Route -> Route -> GuardAct)
    (resolveAsyncComponents : list RouteRecord -> GuardId)
    (r : Router) (s : Sys) :
  reachable guardAct resolveAsyncComponents r s ->
  forall route, In route (stack (this (world s))) ->
                In (EvUpdateRoute route) (trace (world s)).
Proof.
  intros Hreach. change (stack_committed (world s)).
  induction Hreach as [|fuel op s s' Hreach IH Hs]; [by intros ? []|].
  pose proof (reachable_known _ _ _ _ Hreach) as Hk.
  destruct (step_run guardAct resolveAsyncComponents fuel op s) as [o|] eqn:Hr.
  - apply (step_run_world guardAct resolveAsyncComponents stack_committed
             (fun _ _ => True)) with (fuel := fuel) (op := op) (s := s) (o := o);
      try done.
    + apply stack_committed_stable.
    + intros. by apply stack_committed_onComplete.
    + intros. by apply stack_committed_onAbort.
    + intros. apply stack_committed_go.
  - destruct op; simpl in Hr, Hs; try done.
    + injection Hs as <-. simpl.
      apply (stack_committed_frame (listen f)); [|exact IH].
      intros w. split; [done|]. exists []. by rewrite app_nil_r.
    + injection Hs as <-. simpl.
      apply (stack_committed_frame (onReady f errorCb)); [|exact IH].
      intros w. unfold onReady. destruct (ready (this w)); simpl; [eauto|].
      destruct errorCb; simpl; (split; [done|]); exists []; by rewrite app_nil_r.
    + injection Hs as <-. simpl.
      apply (stack_committed_frame (onError f)); [|exact IH].
      intros w. split; [done|]. exists []. by rewrite app_nil_r.
    + destruct (inflight s !! i) as [[k|]|]; try done; by injection Hs as <-.
    + destruct (ticks (world s)) as [|cbs rest] eqn:E; injection Hs as <-; [done|].
      simpl. unfold run_array. simpl.
      destruct (arrays (world s) !! cbs) as [a|]; [|done].
      assert (forall w, stack_committed w ->
                stack_committed (foldl (fun w t => run_task t w) w a)) as Hfold.
      { induction a as [|t a IHa]; intros w Hw; [done|]. simpl.
        apply IHa. by apply stack_committed_run_task. }
      by apply Hfold.
    + destruct (timers (world s)) as [|t rest] eqn:E; injection Hs as <-; [done|].
      simpl. by apply stack_committed_run_task.
    + injection Hs as <-. simpl.
      apply (stack_committed_frame
               (fun w => set_instances (<[(mtch, key) := instance]> (instances w)) w));
        [|exact IH].
      intros w. split; [done|]. exists []. by rewrite app_nil_r.
    + injection Hs as <-. simpl.
      apply (stack_committed_frame
               (fun w => set_instances (delete (mtch, key) (instances w)) w));
        [|exact IH].
      intros w. split; [done|]. exists []. by rewrite app_nil_r.
Qed.

(** ** The entry under the cursor *)

Lemma at_cursor_frame (f : Act) :
  (forall w, stack (this (f w)) = stack (this w) /\
             index (this (f w)) = index (this w) /\
             current (this (f w)) = current (this w)) ->
  keeps at_cursor f.
Proof.
  intros Hf w [Hc Hat]. destruct (Hf w) as (Hs & Hi & Hcur).
  unfold at_cursor, cursor_ok. rewrite Hs, Hi, Hcur. done.
Qed.

Lemma at_cursor_stable : Stable at_cursor.
Proof. split; intros; by apply at_cursor_frame. Qed.

Lemma at_cursor_in_stable st : Stable (at_cursor_in st).
Proof.
  split; intros; intros w [Hc Hs]; (split; [by apply at_cursor_stable|done]).
Qed.

Lemma at_cursor_push route c w :
  cursor_ok w -> at_cursor (transitionTo_onComplete route (Some (push_onComplete c)) w).
Proof.
  intros Hc. unfold at_cursor, cursor_ok in *.
  destruct (transitionTo_onComplete_push route c w) as (-> & _ & _ & -> & -> & _).
  rewrite slice_take by lia. rewrite length_app, length_take. simpl.
  split; [lia|]. intros _.
  rewrite lookup_app_r; rewrite length_take; [|lia].
  by replace (Z.to_nat (index (this w) + 1) -
              Z.to_nat (index (this w) + 1) `min` length (stack (this w))) with 0 by lia.
Qed.

Lemma at_cursor_replace route c w :
  cursor_ok w -> at_cursor (transitionTo_onComplete route (Some (replace_onComplete c)) w).
Proof.
  intros Hc. unfold at_cursor, cursor_ok in *.
  destruct (transitionTo_onComplete_replace route c w) as (-> & _ & _ & -> & -> & _).
  destruct (decide (0 <= index (this w))%Z) as [Hi|Hi].
  - rewrite slice_take by lia. rewrite length_app, length_take. simpl.
    split; [lia|]. intros _.
    rewrite lookup_app_r; rewrite length_take; [|lia].
    by replace (Z.to_nat (index (this w)) -
                Z.to_nat (index (this w)) `min` length (stack (this w))) with 0 by lia.
  - rewrite length_app. simpl. split; [lia|]. lia.
Qed.

Lemma at_cursor_onAbort oa err :
  keeps at_cursor (transitionTo_onAbort (option_map user_onAbort oa) err).
Proof.
  apply at_cursor_frame. intros w. unfold transitionTo_onAbort.
  destruct oa; simpl; by destruct (truthy err && negb (ready (this w))).
Qed.

Lemma at_cursor_go targetIndex route w :
  (0 <= targetIndex)%Z ->
  stack (this w) !! Z.to_nat targetIndex = Some route ->
  at_cursor (go_onComplete targetIndex route w).
Proof.
  intros Hlo Hr. pose proof (lookup_lt_Some _ _ _ Hr) as Hlt.
  unfold at_cursor, cursor_ok.
  destruct (go_onComplete_effect targetIndex route w) as (-> & _ & _ & -> & -> & _).
  split; [lia|done].
Qed.

Lemma lands_push route current_ c oa st :
  lands_at_cursor
    (transition_ctx route current_ (Some (push_onComplete c)) (option_map user_onAbort oa))
    st.
Proof.
  split.
  - intros w _ [Hc _]. by apply at_cursor_push.
  - intros f [= <-] err. apply at_cursor_onAbort.
Qed.

Lemma lands_replace route current_ c oa st :
  lands_at_cursor
    (transition_ctx route current_ (Some (replace_onComplete c))
       (option_map user_onAbort oa)) st.
Proof.
  split.
  - intros w _ [Hc _]. by apply at_cursor_replace.
  - intros f [= <-] err. apply at_cursor_onAbort.
Qed.

Lemma lands_go route current_ targetIndex st :
  (0 <= targetIndex)%Z -> st !! Z.to_nat targetIndex = Some route ->
  lands_at_cursor (go_ctx route current_ targetIndex) st.
Proof.
  intros Hlo Hr. split; [|done].
  intros w Hst _. simpl. apply at_cursor_go; [done|]. by rewrite Hst.
Qed.

Section AtCursor.
Variable guardAct : list Event -> GuardId -> Route -> Route -> GuardAct.
Variable resolveAsyncComponents : list RouteRecord -> GuardId.

Local Abbreviation Ql :=
  (fun (w : World) (k : Kont) => lands_at_cursor (k_ctx k) (stack (this w))).

Lemma Ql_array_push w k c t : Ql w k -> Ql (array_push c t w) k.
Proof. intros H. cbv beta in *. by rewrite array_push_stack. Qed.

Lemma push_replace_at_cursor fuel :
  (forall location oc oa,
      sound at_cursor at_cursor Ql
        (push guardAct resolveAsyncComponents fuel location oc oa)) /\
  (forall location oc oa,
      sound at_cursor at_cursor Ql
        (replace guardAct resolveAsyncComponents fuel location oc oa)).
Proof.
  induction fuel as [|fuel [IHp IHr]]; [by split|].
  split; intros location oc oa w Hw; cbn [push replace];
    unfold push_body, replace_body, transitionTo.
  - apply (confirmTransition_sound guardAct resolveAsyncComponents
             at_cursor at_cursor Ql); try done.
    + apply at_cursor_stable.
    + apply at_cursor_stable.
    + apply Ql_array_push.
    + intros to w' Hw'. by apply IHp.
    + intros to w' Hw'. by apply IHr.
    + intros w' [Hc' _]. by apply at_cursor_push.
    + intros f [= <-] err. apply at_cursor_onAbort.
    + intros current_ w' stage hook rest _ _ _. apply lands_push.
  - apply (confirmTransition_sound guardAct resolveAsyncComponents
             at_cursor at_cursor Ql); try done.
    + apply at_cursor_stable.
    + apply at_cursor_stable.
    + apply Ql_array_push.
    + intros to w' Hw'. by apply IHp.
    + intros to w' Hw'. by apply IHr.
    + intros w' [Hc' _]. by apply at_cursor_replace.
    + intros f [= <-] err. apply at_cursor_onAbort.
    + intros current_ w' stage hook rest _ _ _. apply lands_replace.
Qed.

Lemma go_at_cursor fuel n w :
  at_cursor w -> good at_cursor Ql (go guardAct resolveAsyncComponents fuel n w).
Proof.
  intros Hw. unfold go, go_body.
  destruct (_ || _) eqn:Hb; [done|].
  destruct (stack (this w) !! _) as [route|] eqn:Hr; [|done].
  apply orb_false_elim in Hb as [Hb1 Hb2].
  assert (0 <= index (this w) + n)%Z as Hlo by lia.
  apply (confirmTransition_sound guardAct resolveAsyncComponents
           at_cursor (at_cursor_in (stack (this w))) Ql); try done.
  - apply at_cursor_stable.
  - apply at_cursor_in_stable.
  - by intros w' [].
  - apply Ql_array_push.
  - intros to w' Hw'. by apply (push_replace_at_cursor fuel).
  - intros to w' Hw'. by apply (push_replace_at_cursor fuel).
  - intros w' [_ Hst]. apply at_cursor_go; [done|]. by rewrite Hst.
  - intros current_ w' stage hook rest [_ Hst] _ _. simpl. rewrite Hst.
    by apply lands_go.
Qed.

Lemma resume_at_cursor fuel k v w :
  lands_at_cursor (k_ctx k) (stack (this w)) ->
  at_cursor w -> good at_cursor Ql (resume guardAct resolveAsyncComponents fuel k v w).
Proof.
  intros [Hoc Hoa] Hw. unfold resume.
  apply (resume_body_sound guardAct at_cursor (at_cursor_in (stack (this w))) Ql)
    with (ctx := k_ctx k); try done.
  - apply at_cursor_stable.
  - apply at_cursor_in_stable.
  - by intros w' [].
  - apply Ql_array_push.
  - intros to w' Hw'. by apply (push_replace_at_cursor fuel).
  - intros to w' Hw'. by apply (push_replace_at_cursor fuel).
  - intros w' [Hc' Hst']. by apply Hoc.
  - intros w' stage hook rest [Hc' Hst'] _ _. simpl. by rewrite Hst'.
Qed.

End AtCursor.

Lemma at_cursor_settle pool o s :
  (forall i k, pool !! i <> Some (Some k)) ->
  good at_cursor (fun w k => lands_at_cursor (k_ctx k) (stack (this w))) o ->
  settle pool o = Some s -> at_cursor_inv s.
Proof.
  intros Hpool Hg Hset.
  destruct (settle_inv _ _ _ Hset) as [[-> E]|(k & -> & E)]; simpl in Hg.
  - split; [done|]. intros i k. rewrite E. intros H. by destruct (Hpool i k).
  - destruct Hg as [Hc Hfit]. split; [done|].
    assert (forall j k', (pool ++ [Some k]) !! j = Some (Some k') ->
                         j = length pool /\ k' = k) as Hl.
    { intros j k' H. apply lookup_app_Some in H as [H|[Hge H]];
        [by destruct (Hpool j k')|].
      apply list_lookup_singleton_Some in H as [H [= <-]]. split; [lia|done]. }
    intros i k0. rewrite E. intros H. destruct (Hl _ _ H) as [-> ->].
    split; [done|]. intros j k' H'. by destruct (Hl _ _ H').
Qed.

Lemma at_cursor_act (f : Act) s :
  (forall w, stack (this (f w)) = stack (this w) /\
             index (this (f w)) = index (this w) /\
             current (this (f w)) = current (this w)) ->
  at_cursor_inv s -> at_cursor_inv {| world := f (world s); inflight := inflight s |}.
Proof.
  intros Hf (Hc & Hl). split; [by apply at_cursor_frame|].
  simpl. destruct (Hf (world s)) as [-> _]. done.
Qed.

Lemma run_task_this t w : this (run_task t w) = this w.
Proof. apply run_task_same. Qed.

Lemma run_array_this cbs w : this (run_array cbs w) = this w.
Proof.
  unfold run_array. destruct (arrays w !! cbs) as [a|]; [|done]. clear cbs.
  revert w. induction a as [|t a IH]; intros w; simpl; [done|].
  by rewrite IH, run_task_this.
Qed.

Lemma at_cursor_step guardAct resolveAsyncComponents fuel op s s' :
  at_cursor_inv s -> (starts_navigation op = true -> idle s) ->
  uses_stack op = true ->
  step guardAct resolveAsyncComponents fuel op s = Some s' ->
  at_cursor_inv s'.
Proof.
  intros Hinv Hidle Hop Hs. destruct Hinv as (Hc & Hl).
  assert (forall f : Act,
            (forall w, stack (this (f w)) = stack (this w) /\
                       index (this (f w)) = index (this w) /\
                       current (this (f w)) = current (this w)) ->
            Some {| world := f (world s); inflight := inflight s |} = Some s' ->
            at_cursor_inv s') as Hact.
  { intros f Hf [= <-]. by apply (at_cursor_act f s). }
  destruct op; simpl in Hs; try discriminate Hop.
  - apply (at_cursor_settle (inflight s) _ s' (Hidle eq_refl)) in Hs; try done.
    by apply (push_replace_at_cursor guardAct resolveAsyncComponents fuel).
  - apply (at_cursor_settle (inflight s) _ s' (Hidle eq_refl)) in Hs; try done.
    by apply (push_replace_at_cursor guardAct resolveAsyncComponents fuel).
  - apply (at_cursor_settle (inflight s) _ s' (Hidle eq_refl)) in Hs; try done.
    by apply go_at_cursor.
  - by apply (Hact (listen f)).
  - apply (Hact (onReady f errorCb)); [|done]. intros w. unfold onReady.
    destruct (ready (this w)); [done|]. by destruct errorCb.
  - by apply (Hact (onError f)).
  - destruct (inflight s !! i) as [[k|]|] eqn:E;
      try (injection Hs as <-; by split).
    destruct (Hl i k E) as [Hfit Huniq].
    apply (at_cursor_settle (<[i := None]> (inflight s)) _ s') in Hs; try done.
    + intros j k' Hj. destruct (decide (i = j)) as [->|Hne].
      * rewrite list_lookup_insert_eq in Hj; [done|]. by eapply lookup_lt_Some.
      * rewrite list_lookup_insert_ne in Hj; [|done]. by apply Huniq in Hj.
    + by apply resume_at_cursor.
  - destruct (ticks (world s)) as [|cbs rest]; injection Hs as <-; [by split|].
    apply (at_cursor_act (fun w => run_array cbs (set_ticks rest w)) s); [|by split].
    intros w. by rewrite run_array_this.
  - destruct (timers (world s)) as [|t rest]; injection Hs as <-; [by split|].
    apply (at_cursor_act (fun w => run_task (snd t) (set_timers rest w)) s); [|by split].
    intros w. by rewrite run_task_this.
  - by eapply Hact; [|exact Hs].
  - by eapply Hact; [|exact Hs].
Qed.

Lemma stack_driven_inv guardAct resolveAsyncComponents r s :
  stack_driven guardAct resolveAsyncComponents r s -> at_cursor_inv s.
Proof.
  induction 1 as [|fuel op s s' _ IH Hidle Hop Hs].
  - split.
    + split; [unfold cursor_ok; simpl; lia|]. simpl. lia.
    + intros i k H. simpl in H. by rewrite lookup_nil in H.
  - by eapply at_cursor_step.
Qed.

Lemma isSameRoute_refl route : isSameRoute route route = true.
Proof. unfold isSameRoute. by rewrite !bool_decide_eq_true_2. Qed.

(** X18. Let the controller be driven through [push], [replace] and
    [go] only (no direct call of [transitionTo]), one navigation after
    the other, with any guards and any other events in between.  Then
    in every state reached, whenever the cursor is at an entry of the
    stack, that entry is the current route; and [go(0)] there is the
    short-circuit: it only resyncs the address backend. *)
Theorem cursor_on_current
    (guardAct : list Event -> GuardId -> Route -> Route -> GuardAct)
    (resolveAsyncComponents : list RouteRecord -> GuardId) (r : Router) (s : Sys) :
  stack_driven guardAct resolveAsyncComponents r s ->
  (0 <= index (this (world s)))%Z ->
  stack (this (world s)) !! Z.to_nat (index (this (world s))) =
    Some (current (this (world s))) /\
  forall fuel,
    go guardAct resolveAsyncComponents fuel 0 (world s) =
    Some (Settled (emit (EvEnsureURL false) (world s))).
Proof.
  intros Hs Hi.
  destruct (stack_driven_inv _ _ _ _ Hs) as [[Hc Hat] _].
  specialize (Hat Hi). split; [exact Hat|].
  intros fuel. unfold go, go_body. rewrite Z.add_0_r.
  pose proof (lookup_lt_Some _ _ _ Hat) as Hlt.
  replace ((index (this (world s)) <? 0)%Z
           || (index (this (world s)) >=? Z.of_nat (length (stack (this (world s)))))%Z)
    with false by (symmetry; apply orb_false_iff; split; lia).
  rewrite Hat. unfold confirmTransition.
  by rewrite isSameRoute_refl, Nat.eqb_refl.
Qed.

(** ** Registrations *)

Lemma registered_frame x (f : Act) :
  (forall w, registered (f w) = registered w) ->
  keeps (fun w => registered w = x) f.
Proof. intros Hf w Hw. by rewrite Hf. Qed.

Lemma registered_stable x : Stable (fun w => registered w = x).
Proof. split; intros; by apply registered_frame. Qed.

Lemma registered_onComplete x route oc :
  known_onComplete oc ->
  keeps (fun w => registered w = x) (transitionTo_onComplete route oc).
Proof.
  intros Hoc. apply registered_frame. intros w.
  unfold transitionTo_onComplete. rewrite updateRoute_unfold.
  destruct Hoc as [|f|c|c]; try destruct c; simpl;
    by destruct (ready (this w)).
Qed.

Lemma registered_onAbort x oa err :
  known_onAbort oa ->
  keeps (fun w => registered w = x) (transitionTo_onAbort oa err).
Proof.
  intros Hoa. apply registered_frame. intros w. unfold transitionTo_onAbort.
  destruct Hoa as [|f]; simpl; by destruct (truthy err && negb (ready (this w))).
Qed.

Lemma registered_go x targetIndex route :
  keeps (fun w => registered w = x) (go_onComplete targetIndex route).
Proof.
  apply registered_frame. intros w. unfold go_onComplete.
  by rewrite updateRoute_unfold.
Qed.

Lemma registered_run_task t w : registered (run_task t w) = registered w.
Proof.
  unfold run_task, poll. destruct (instances w !! _); [done|].
  by destruct (isValid _ w).
Qed.

Lemma registered_run_array cbs w : registered (run_array cbs w) = registered w.
Proof.
  unfold run_array. destruct (arrays w !! cbs) as [a|]; [|done]. clear cbs.
  revert w. induction a as [|t a IH]; intros w; simpl; [done|].
  by rewrite IH, registered_run_task.
Qed.

(** X19. No step of a reachable system removes or reorders an error
    callback, and none but [onError] adds one (at the end, also when
    it is registered already); none but [listen] changes the listener,
    and [listen] replaces it; the router is never replaced.  So
    navigations, whether they complete, abort or wait, leave the
    registrations alone. *)
Theorem registrations_persist
    (guardAct : list Event -> GuardId -> Route -> Route -> GuardAct)
    (resolveAsyncComponents : list RouteRecord -> GuardId)
    (r : Router) (fuel : nat) (op : Op) (s s' : Sys) :
  reachable guardAct resolveAsyncComponents r s ->
  step guardAct resolveAsyncComponents fuel op s = Some s' ->
  errorCbs (this (world s')) =
    errorCbs (this (world s)) ++ match op with OpOnError f => [f] | _ => [] end /\
  cb (this (world s')) =
    match op with OpListen f => Some f | _ => cb (this (world s)) end /\
  router (world s') = router (world s).
Proof.
  intros Hreach Hs.
  pose proof (reachable_known _ _ _ _ Hreach) as Hk.
  assert (registered (world s') = registered (world s) ->
          match op with OpOnError _ | OpListen _ => False | _ => True end ->
          errorCbs (this (world s')) =
            errorCbs (this (world s)) ++ match op with OpOnError f => [f] | _ => [] end /\
          cb (this (world s')) =
            match op with OpListen f => Some f | _ => cb (this (world s)) end /\
          router (world s') = router (world s)) as Hsame.
  { intros [= -> -> ->] Hop. destruct op; try done; by rewrite app_nil_r. }
  destruct (step_run guardAct resolveAsyncComponents fuel op s) as [o|] eqn:Hr.
  - apply Hsame; [|by destruct op].
    apply (step_run_world guardAct resolveAsyncComponents
             (fun w => registered w = registered (world s)) (fun _ _ => True))
      with (fuel := fuel) (op := op) (s := s) (o := o); try done.
    + apply registered_stable.
    + intros. by apply registered_onComplete.
    + intros. by apply registered_onAbort.
    + intros. apply registered_go.
  - destruct op; simpl in Hr, Hs; try done.
    + injection Hs as <-. simpl. by rewrite app_nil_r.
    + injection Hs as <-. apply Hsame; [|done]. simpl. unfold onReady.
      destruct (ready (this (world s))); [done|]. by destruct errorCb.
    + injection Hs as <-. by simpl.
    + apply Hsame; [|done].
      destruct (inflight s !! i) as [[k|]|]; try done; by injection Hs as <-.
    + apply Hsame; [|done].
      destruct (ticks (world s)) as [|cbs rest]; injection Hs as <-; [done|].
      simpl. by rewrite registered_run_array.
    + apply Hsame; [|done].
      destruct (timers (world s)) as [|t rest]; injection Hs as <-; [done|].
      simpl. by rewrite registered_run_task.
    + injection Hs as <-. by apply Hsame.
    + injection Hs as <-. by apply Hsame.
Qed.

(** ** One commit at most *)

(** Runs whose completion callback takes a property [R], kept up to
    then, to a property [P] that holds from then on. *)
Section TwoPhase.
Variable guardAct : list Event -> GuardId -> Route -> Route -> GuardAct.
Variables (P R : World -> Prop) (Q : World -> Kont -> Prop).
Hypothesis HR : Stable R.
Hypothesis HRP : forall w, R w -> P w.
Hypothesis HParr : forall c t, keeps P (array_push c t).
Hypothesis HPticks : forall t, keeps P (set_ticks t).
Hypothesis HQpush : forall w k c t, Q w k -> Q (array_push c t w) k.
Variables push_ replace_ : Value -> Run.
Hypothesis Hpush : forall to w, R w -> good P Q (push_ to w).
Hypothesis Hreplace : forall to w, R w -> good P Q (replace_ to w).
Variable ctx : Ctx.
Hypothesis Hoc : forall w, R w -> P (c_onComplete ctx (c_route ctx) w).
Hypothesis Hoa : forall f, c_onAbort ctx = Some f -> forall err, keeps R (f err).
Hypothesis HQ : forall w stage hook rest,
  R w -> is_pending (c_route ctx) w = true ->
  guardAct (trace w) (hook_guard hook) (c_route ctx) (c_current ctx) = Suspend ->
  Q (emit (EvHook (hook_guard hook) (c_route ctx) (c_current ctx)) w)
    {| k_ctx := ctx; k_stage := stage; k_hook := hook; k_rest := rest |}.

Local Abbreviation sound2 := (sound P R Q).

Lemma abort_before err : keeps R (abort (c_onAbort ctx) err).
Proof. by apply (abort_keeps R HR ctx). Qed.

Lemma resultHandler_sound2 next v :
  sound2 next -> sound2 (resultHandler push_ replace_ ctx next v).
Proof.
  intros Hn w Hw. unfold resultHandler.
  destruct (is_false v || isError v).
  { simpl. apply HRP, abort_before. by apply (stable_emits _ HR). }
  destruct (typeof_string v || _).
  { destruct (typeof_object v && replace_flag v);
      [apply Hreplace|apply Hpush]; by apply abort_before. }
  by apply Hn.
Qed.

Lemma hookNext_sound2 hook next v :
  sound2 next -> sound2 (hookNext push_ replace_ ctx hook next v).
Proof.
  intros Hn w Hw. destruct hook as [g|g mtch key cbs valid]; simpl.
  { by apply resultHandler_sound2. }
  pose proof (resultHandler_sound2 next v Hn w Hw) as H.
  destruct (resultHandler push_ replace_ ctx next v w) as [o|]; [|done].
  destruct v; try done.
  apply good_map; [|by auto|done]. intros w'. apply HParr.
Qed.

Lemma iterator_sound2 stage hook next rest :
  sound2 next -> sound2 (iterator guardAct push_ replace_ ctx stage hook next rest).
Proof.
  intros Hn w Hw. unfold iterator.
  destruct (is_pending (c_route ctx) w) eqn:Epend; simpl.
  2:{ by apply HRP, abort_before. }
  destruct (guardAct _ _ _ _) as [v|e|] eqn:Eact.
  - apply hookNext_sound2; [done|]. by apply (stable_emits _ HR).
  - simpl. apply HRP, abort_before. by apply (stable_emits _ HR).
  - simpl. split.
    + apply HRP. by apply (stable_emits _ HR).
    + by apply HQ.
Qed.

Lemma runQueue_sound2 queue stage cb :
  sound2 cb ->
  sound2 (runQueue queue (iterator guardAct push_ replace_ ctx stage) cb).
Proof.
  intros Hcb. induction queue as [|[hook|] rest IH]; simpl; [done| |done].
  by apply iterator_sound2.
Qed.

Lemma confirmed_sound2 cbs : sound2 (confirmed ctx cbs).
Proof.
  intros w Hw. unfold confirmed.
  destruct (is_pending (c_route ctx) w); simpl.
  2:{ by apply HRP, abort_before. }
  destruct (app _).
  - apply HPticks. apply Hoc. by apply (stable_pending _ HR).
  - apply Hoc. by apply (stable_pending _ HR).
Qed.

Lemma resolved_sound2 activated :
  sound2 (resolved guardAct push_ replace_ ctx activated).
Proof.
  intros w Hw. unfold resolved.
  apply runQueue_sound2; [apply confirmed_sound2|].
  by apply (stable_arrays _ HR).
Qed.

Lemma stage_done_sound2 stage :
  sound2 (stage_done guardAct push_ replace_ ctx stage).
Proof. destruct stage; [apply resolved_sound2|apply confirmed_sound2]. Qed.

Lemma resume_body_sound2 k v :
  k_ctx k = ctx -> sound2 (resume_body guardAct push_ replace_ k v).
Proof.
  intros E. unfold resume_body. rewrite E.
  apply hookNext_sound2, runQueue_sound2, stage_done_sound2.
Qed.

End TwoPhase.

Lemma confirmTransition_sound2 guardAct resolveAsyncComponents
    (P R : World -> Prop) (Q : World -> Kont -> Prop) push_ replace_ route oc oa :
  Stable R -> (forall w, R w -> P w) ->
  (forall c t, keeps P (array_push c t)) -> (forall t, keeps P (set_ticks t)) ->
  (forall w k c t, Q w k -> Q (array_push c t w) k) ->
  (forall to w, R w -> good P Q (push_ to w)) ->
  (forall to w, R w -> good P Q (replace_ to w)) ->
  (forall w, R w -> P (oc route w)) ->
  (forall f, oa = Some f -> forall err, keeps R (f err)) ->
  (forall current_ w stage hook rest,
      R w -> is_pending route w = true ->
      guardAct (trace w) (hook_guard hook) route current_ = Suspend ->
      Q (emit (EvHook (hook_guard hook) route current_) w)
        {| k_ctx := {| c_route := route; c_current := current_;
                       c_onComplete := oc; c_onAbort := oa |};
           k_stage := stage; k_hook := hook; k_rest := rest |}) ->
  sound P R Q
    (confirmTransition guardAct resolveAsyncComponents push_ replace_ route oc oa).
Proof.
  intros HR HRP HParr HPticks HQpush Hpush Hreplace Hoc Hoa HQ w Hw.
  unfold confirmTransition.
  set (ctx := {| c_route := route; c_current := current (this w);
                 c_onComplete := oc; c_onAbort := oa |}).
  destruct (isSameRoute _ _ && _).
  - simpl. apply HRP. apply (abort_keeps R HR ctx Hoa).
    by apply (stable_emits _ HR).
  - apply (runQueue_sound2 guardAct P R Q HR HRP HParr HQpush push_ replace_
             Hpush Hreplace ctx); simpl; try done.
    + intros w' stage hook rest. apply HQ.
    + apply (resolved_sound2 guardAct P R Q HR HRP HParr HPticks HQpush push_ replace_
               Hpush Hreplace ctx); simpl; try done.
      intros w' stage hook rest. apply HQ.
    + by apply (stable_pending _ HR).
Qed.

Lemma since_quiet_logged t0 : Logged (since_quiet t0).
Proof.
  split.
  - intros evs Hq w (evs0 & Ht & Hq0). exists (evs0 ++ evs). simpl.
    split; [by rewrite Ht, app_assoc|]. by apply quiet_app.
  - intros f Hf w (evs0 & Ht & Hq). destruct (Hf w) as (Et & _ & _).
    exists evs0. by rewrite Et.
Qed.

Lemma since_quiet_commit_last t0 w : since_quiet t0 w -> since_commit_last t0 w.
Proof. intros (evs & Ht & Hq). exists evs. split; [done|by left]. Qed.

Lemma since_commit_last_frame t0 (f : Act) :
  (forall w, trace (f w) = trace w) -> keeps (since_commit_last t0) f.
Proof. intros Hf w (evs & Ht & Hc). exists evs. by rewrite Hf. Qed.

Lemma trace_array_push c t w : trace (array_push c t w) = trace w.
Proof. unfold array_push. by destruct (arrays w !! c). Qed.

Lemma since_commit_last_commit t0 route post w w' :
  since_quiet t0 w ->
  trace w' = trace w ++ EvUpdateRoute route :: post ->
  quiet post = true -> no_hook post = true ->
  since_commit_last t0 w'.
Proof.
  intros (evs & Ht & Hq) Ht' Hqp Hnp. exists (evs ++ EvUpdateRoute route :: post).
  split; [by rewrite Ht', Ht, app_assoc|]. right. by exists evs, route, post.
Qed.

Lemma no_hook_app evs1 evs2 :
  no_hook evs1 = true -> no_hook evs2 = true -> no_hook (evs1 ++ evs2) = true.
Proof. unfold no_hook. intros H1 H2. rewrite forallb_app. by rewrite H1, H2. Qed.

Lemma no_hook_map {A} (f : A -> Event) l :
  (forall x, is_hook_event (f x) = false) -> no_hook (map f l) = true.
Proof. intros H. induction l; simpl; [done|]. by rewrite H. Qed.

Lemma no_hook_update_events f hooks route prev :
  no_hook (update_events f hooks route prev) = true.
Proof.
  unfold update_events. apply no_hook_app; [by destruct f|].
  induction hooks as [|[h|] hooks IH]; simpl; done.
Qed.

Lemma commit_events_tail h rt route c :
  exists post,
    commit_events h rt route (onComplete_events c route) = EvUpdateRoute route :: post /\
    quiet post = true /\ no_hook post = true.
Proof.
  unfold commit_events. eexists. split; [reflexivity|]. split.
  - apply quiet_app; [apply quiet_update_events|].
    apply quiet_app; [by destruct c|]. apply quiet_app; [done|].
    destruct (ready h); [done|]. by apply quiet_map.
  - apply no_hook_app; [apply no_hook_update_events|].
    apply no_hook_app; [by destruct c|]. apply no_hook_app; [done|].
    destruct (ready h); [done|]. by apply no_hook_map.
Qed.

Lemma since_commit_last_onComplete t0 route oc w :
  known_onComplete oc ->
  since_quiet t0 w -> since_commit_last t0 (transitionTo_onComplete route oc w).
Proof.
  intros Hoc Hw.
  assert (exists c, trace (transitionTo_onComplete route oc w) =
                    trace w ++ commit_events (this w) (router w) route
                                 (onComplete_events c route)) as [c Ht].
  { destruct Hoc as [|f|c|c].
    - exists None. apply (transitionTo_onComplete_user route None w).
    - exists (Some f). apply (transitionTo_onComplete_user route (Some f) w).
    - exists c. apply (transitionTo_onComplete_push route c w).
    - exists c. apply (transitionTo_onComplete_replace route c w). }
  destruct (commit_events_tail (this w) (router w) route c) as (post & E & Hq & Hn).
  rewrite E in Ht. by eapply since_commit_last_commit.
Qed.

Lemma since_commit_last_go t0 targetIndex route w :
  since_quiet t0 w -> since_commit_last t0 (go_onComplete targetIndex route w).
Proof.
  intros Hw.
  destruct (go_onComplete_effect targetIndex route w) as (_ & _ & _ & _ & _ & Ht).
  eapply since_commit_last_commit; [done|exact Ht| |].
  - apply quiet_update_events.
  - apply no_hook_update_events.
Qed.

Section CommitOnce.
Variable guardAct : list Event -> GuardId -> Route -> Route -> GuardAct.
Variable resolveAsyncComponents : list RouteRecord -> GuardId.
Variable t0 : list Event.

Local Abbreviation Qq := (fun (w : World) (_ : Kont) => since_quiet t0 w).

Lemma transitionTo_commit push_ replace_ location oc oa :
  (forall to w, since_quiet t0 w -> good (since_commit_last t0) Qq (push_ to w)) ->
  (forall to w, since_quiet t0 w -> good (since_commit_last t0) Qq (replace_ to w)) ->
  known_onComplete oc -> known_onAbort oa ->
  sound (since_commit_last t0) (since_quiet t0) Qq
    (transitionTo guardAct resolveAsyncComponents push_ replace_ location oc oa).
Proof.
  intros Hpush Hreplace Hoc Hoa w Hw. unfold transitionTo.
  apply (confirmTransition_sound2 guardAct resolveAsyncComponents
           (since_commit_last t0) (since_quiet t0) Qq); try done.
  - apply logged_stable, since_quiet_logged.
  - apply since_quiet_commit_last.
  - intros c t. apply since_commit_last_frame. apply trace_array_push.
  - intros t. by apply since_commit_last_frame.
  - intros w' k c t H. cbv beta in *.
    destruct H as (evs & Ht & Hq). exists evs. by rewrite trace_array_push.
  - intros w' Hw'. by apply since_commit_last_onComplete.
  - intros f [= <-] err. by apply logged_onAbort; [apply since_quiet_logged|].
  - intros current_ w' stage hook rest Hw' _ _. cbv beta.
    by apply (logged_emits _ (since_quiet_logged t0)).
Qed.

Lemma push_replace_commit fuel :
  (forall location oc oa,
      sound (since_commit_last t0) (since_quiet t0) Qq
        (push guardAct resolveAsyncComponents fuel location oc oa)) /\
  (forall location oc oa,
      sound (since_commit_last t0) (since_quiet t0) Qq
        (replace guardAct resolveAsyncComponents fuel location oc oa)).
Proof.
  induction fuel as [|fuel [IHp IHr]]; [by split|].
  split; intros location oc oa; simpl.
  - apply transitionTo_commit;
      [intros; by apply IHp|intros; by apply IHr|constructor
      |apply known_user_onAbort].
  - apply transitionTo_commit;
      [intros; by apply IHp|intros; by apply IHr|constructor
      |apply known_user_onAbort].
Qed.

Lemma go_commit fuel n :
  sound (since_commit_last t0) (since_quiet t0) Qq
    (go guardAct resolveAsyncComponents fuel n).
Proof.
  intros w Hw. unfold go, go_body.
  destruct (_ || _); [by apply since_quiet_commit_last|].
  destruct (stack (this w) !! _) as [route|]; [|by apply since_quiet_commit_last].
  apply (confirmTransition_sound2 guardAct resolveAsyncComponents
           (since_commit_last t0) (since_quiet t0) Qq); try done.
  - apply logged_stable, since_quiet_logged.
  - apply since_quiet_commit_last.
  - intros c t. apply since_commit_last_frame. apply trace_array_push.
  - intros t. by apply since_commit_last_frame.
  - intros w' k c t H. cbv beta in *.
    destruct H as (evs & Ht & Hq). exists evs. by rewrite trace_array_push.
  - intros to w' Hw'. by apply (push_replace_commit fuel).
  - intros to w' Hw'. by apply (push_replace_commit fuel).
  - intros w' Hw'. by apply since_commit_last_go.
  - intros current_ w' stage hook rest Hw' _ _. cbv beta.
    by apply (logged_emits _ (since_quiet_logged t0)).
Qed.

Lemma resume_commit fuel k v :
  known_ctx (k_ctx k) ->
  sound (since_commit_last t0) (since_quiet t0) Qq
    (resume guardAct resolveAsyncComponents fuel k v).
Proof.
  intros Hk. unfold resume.
  apply (resume_body_sound2 guardAct (since_commit_last t0) (since_quiet t0) Qq)
    with (ctx := k_ctx k); try done.
  - apply logged_stable, since_quiet_logged.
  - apply since_quiet_commit_last.
  - intros c t. apply since_commit_last_frame. apply trace_array_push.
  - intros t. by apply since_commit_last_frame.
  - intros w' k' c t H. cbv beta in *.
    destruct H as (evs & Ht & Hq). exists evs. by rewrite trace_array_push.
  - intros to w' Hw'. by apply (push_replace_commit fuel).
  - intros to w' Hw'. by apply (push_replace_commit fuel).
  - destruct Hk; simpl; intros w' Hw';
      [by apply since_commit_last_onComplete|by apply since_commit_last_go].
  - destruct Hk; simpl; [|done]. intros f [= <-] err.
    by apply logged_onAbort; [apply since_quiet_logged|].
  - intros w' stage hook rest Hw' _ _. cbv beta.
    by apply (logged_emits _ (since_quiet_logged t0)).
Qed.

End CommitOnce.

(** X20. No step of a reachable system commits more than one route,
    and once a step has entered [updateRoute] no guard is invoked in
    it any more.  A step that leaves a new guard waiting has committed
    nothing. *)
Theorem commits_at_most_once
    (guardAct : list Event -> GuardId -> Route -> Route -> GuardAct)
    (resolveAsyncComponents : list RouteRecord -> GuardId)
    (r : Router) (fuel : nat) (op : Op) (s s' : Sys) :
  reachable guardAct resolveAsyncComponents r s ->
  step guardAct resolveAsyncComponents fuel op s = Some s' ->
  exists evs,
    trace (world s') = trace (world s) ++ evs /\
    commit_last evs /\
    (length (inflight s') = S (length (inflight s)) -> quiet evs = true).
Proof.
  intros Hreach Hs.
  pose proof (reachable_known _ _ _ _ Hreach) as Hk.
  assert (since_quiet (trace (world s)) (world s)) as H0.
  { exists []. by rewrite app_nil_r. }
  assert (since_quiet (trace (world s)) (world s') ->
          exists evs,
            trace (world s') = trace (world s) ++ evs /\
            commit_last evs /\
            (length (inflight s') = S (length (inflight s)) -> quiet evs = true))
    as Hquiet.
  { intros (evs & Ht & Hq). exists evs. split; [done|]. split; [by left|done]. }
  destruct (step_run guardAct resolveAsyncComponents fuel op s) as [o|] eqn:Hr.
  - assert (good (since_commit_last (trace (world s)))
              (fun w _ => since_quiet (trace (world s)) w) o) as Hg.
    { destruct op; simpl in Hr; try done.
      - injection Hr as <-. by apply (push_replace_commit guardAct resolveAsyncComponents).
      - injection Hr as <-. by apply (push_replace_commit guardAct resolveAsyncComponents).
      - injection Hr as <-. by apply go_commit.
      - injection Hr as <-. apply transitionTo_commit; try done.
        + intros to w Hw. by apply (push_replace_commit guardAct resolveAsyncComponents).
        + intros to w Hw. by apply (push_replace_commit guardAct resolveAsyncComponents).
        + apply known_user_onComplete.
        + apply known_user_onAbort.
      - destruct (inflight s !! i) as [[k|]|] eqn:E; try done. injection Hr as <-.
        apply resume_commit; [|done]. by apply (Hk i). }
    destruct (step_run_settle _ _ _ _ _ _ _ Hr Hs) as (pool & Hset & Hlen & _).
    destruct (settle_inv _ _ _ Hset) as [[-> E]|(k & -> & E)]; simpl in Hg.
    + destruct Hg as (evs & Ht & Hc). exists evs. split; [done|]. split; [done|].
      rewrite E, Hlen. lia.
    + destruct Hg as [_ Hq]. by apply Hquiet.
  - apply Hquiet.
    by apply (logged_other_step _ (since_quiet_logged (trace (world s)))
                guardAct resolveAsyncComponents fuel op s s').
Qed.

(** ** The further statements at work on the example application *)

Lemma normalizeBase_explicit_witness :
  normalizeBase true (Some "https://example.com/shop/"%string) (Some "app"%string) =
  "/app"%string.
Proof.
  refine (proj1 (proj2 (proj2 (normalizeBase_explicit "app" _)))
            true (Some "https://example.com/shop/"%string) _ _).
  - discriminate.
  - reflexivity.
  - reflexivity.
Defined.

Lemma normalizeBase_base_tag_witness :
  normalizeBase true (Some "https://example.com/shop/"%string) None = "/shop"%string.
Proof.
  refine (proj1 (normalizeBase_base_tag "example.com" "/shop/" None _ _ _ _)).
  - left. reflexivity.
  - discriminate.
  - reflexivity.
  - right. reflexivity.
Defined.

Lemma unmounted_guards_skipped_witness :
  queue_guards (extractLeaveGuards [demo_record "/e"] demo_fresh) = [] /\
  queue_guards (extractUpdateHooks [demo_record "/e"] demo_fresh) = [] /\
  forall cbs valid w',
    extractEnterGuards [demo_record "/e"] cbs valid demo_fresh =
    extractEnterGuards [demo_record "/e"] cbs valid w'.
Proof.
  refine (unmounted_guards_skipped [demo_record "/e"] demo_fresh _).
  intros m k _. apply lookup_empty.
Defined.

Lemma demo_lets_through_e :
  lets_through demo_guards demo_async demo_answers (demo_route "/e") demo_fresh.
Proof.
  split; [vm_compute; reflexivity|]. split.
  - intros t g Hg. vm_compute in Hg.
    destruct Hg as [<-|[<-|[<-|[]]]]; reflexivity.
  - intros g Hg. vm_compute in Hg.
    destruct Hg as [<-|[<-|[<-|[]]]]; reflexivity.
Defined.

Lemma demo_cursor_fresh : cursor_ok demo_fresh.
Proof. unfold cursor_ok. simpl. lia. Defined.

Lemma guards_run_in_order_witness :
  confirmTransition demo_guards demo_async
    (this_push demo_guards demo_async 3) (this_replace demo_guards demo_async 3)
    (demo_route "/e") (fun _ => go_onComplete 0 (demo_route "/e")) None demo_fresh =
  Some (Settled
    (enter_pushes demo_answers (enter_queue (demo_route "/e") demo_fresh)
       (nextTick (length (arrays demo_fresh))
          (go_onComplete 0 (demo_route "/e")
             (before_commit demo_async (demo_route "/e") demo_fresh))))).
Proof.
  exact (guards_run_in_order demo_guards demo_async
           (this_push demo_guards demo_async 3) (this_replace demo_guards demo_async 3)
           demo_answers (demo_route "/e") (fun _ => go_onComplete 0 (demo_route "/e"))
           None demo_fresh demo_lets_through_e).
Defined.

Lemma push_completes_witness :
  exists w',
    push demo_guards demo_async 1 (VString "/e") (Some 9) None demo_fresh =
      Some (Settled w') /\
    map label (trace w') =
      [("guard", 3); ("guard", 0); ("guard", 6); ("updateRoute", 0);
       ("onComplete", 9); ("ensureURL", 0)] /\
    getCurrentLocation w' = "/e"%string.
Proof.
  destruct (push_completes demo_guards demo_async 0 demo_answers (VString "/e")
              (Some 9) None demo_fresh demo_cursor_fresh demo_lets_through_e)
    as (w' & Hpush & _ & _ & _ & _ & _ & _ & Hloc & Htrace).
  exists w'. split; [exact Hpush|]. split.
  - rewrite Htrace. vm_compute. reflexivity.
  - rewrite Hloc. reflexivity.
Defined.

Lemma replace_completes_witness :
  exists w',
    replace demo_guards demo_async 1 (VString "/e") None None demo_fresh =
      Some (Settled w') /\
    index (this w') = (-1)%Z /\
    map fullPath (stack (this w')) = ["/e"%string].
Proof.
  destruct (replace_completes demo_guards demo_async 0 demo_answers (VString "/e")
              None None demo_fresh demo_cursor_fresh demo_lets_through_e)
    as (w' & Hreplace & _ & _ & _ & Hindex & _ & Hstack & _ & _).
  exists w'. split; [exact Hreplace|]. split.
  - rewrite Hindex. reflexivity.
  - rewrite (Hstack eq_refl). reflexivity.
Defined.

Lemma demo_lets_through_back :
  lets_through demo_guards demo_async (fun _ => VUndefined) (demo_route "/a") demo_at_b.
Proof.
  split; [vm_compute; reflexivity|]. split.
  - intros t g Hg. vm_compute in Hg. destruct Hg as [<-|[]]. reflexivity.
  - intros g Hg. reflexivity.
Defined.

Lemma go_completes_witness :
  exists w',
    go demo_guards demo_async 3 (-1) demo_at_b = Some (Settled w') /\
    fullPath (current (this w')) = "/a"%string /\
    index (this w') = 0%Z /\
    map fullPath (stack (this w')) = ["/a"%string; "/b"%string].
Proof.
  assert (0 <= index (this demo_at_b) + -1)%Z as Hlo by (vm_compute; discriminate).
  assert (stack (this demo_at_b) !! Z.to_nat (index (this demo_at_b) + -1) =
          Some (demo_route "/a")) as Hroute by (vm_compute; reflexivity).
  destruct (go_completes demo_guards demo_async 3 (fun _ => VUndefined) (-1)
              (demo_route "/a") demo_at_b Hlo Hroute demo_lets_through_back)
    as (w' & Hgo & Hcur & _ & Hindex & Hstack & _).
  exists w'. split; [exact Hgo|]. split; [|split].
  - rewrite Hcur. reflexivity.
  - rewrite Hindex. vm_compute. reflexivity.
  - rewrite Hstack. vm_compute. reflexivity.
Defined.

Lemma transitionTo_completes_witness :
  exists w',
    transitionTo demo_guards demo_async
      (this_push demo_guards demo_async 3) (this_replace demo_guards demo_async 3)
      (VString "/e") (option_map user_onComplete (Some 9))
      (option_map user_onAbort None) demo_fresh = Some (Settled w') /\
    fullPath (current (this w')) = "/e"%string /\
    stack (this w') = [] /\
    getCurrentLocation w' = "/"%string.
Proof.
  destruct (transitionTo_completes demo_guards demo_async
              (this_push demo_guards demo_async 3) (this_replace demo_guards demo_async 3)
              demo_answers (VString "/e") (Some 9) None demo_fresh demo_lets_through_e)
    as (w' & Hrun & Hcur & _ & _ & Hstack & _ & Hloc & _).
  exists w'. split; [exact Hrun|]. split; [|split].
  - rewrite Hcur. reflexivity.
  - rewrite Hstack. reflexivity.
  - rewrite Hloc. reflexivity.
Defined.

Lemma waiting_guard_lets_through_witness :
  resume_body demo_guards
    (this_push demo_guards demo_async 3) (this_replace demo_guards demo_async 3)
    {| k_ctx := go_ctx (demo_route "/a") START 0; k_stage := StageB 0;
       k_hook := PlainGuard 1; k_rest := [Some (PlainGuard 3)] |}
    VUndefined (on_this (set_pending (Some (demo_route "/a"))) demo_fresh) =
  Some (Settled
    (nextTick 0
       (go_onComplete 0 (demo_route "/a")
          (on_this (set_pending None)
             (emits [EvHook 3 (demo_route "/a") START]
                (on_this (set_pending (Some (demo_route "/a"))) demo_fresh)))))).
Proof.
  refine (proj1 (waiting_guard_lets_through demo_guards demo_async
                   (this_push demo_guards demo_async 3)
                   (this_replace demo_guards demo_async 3)
                   (fun _ => VUndefined) (go_ctx (demo_route "/a") START 0)
                   (PlainGuard 1) [Some (PlainGuard 3)] VUndefined
                   (on_this (set_pending (Some (demo_route "/a"))) demo_fresh) _ _)
            0 _ _).
  - vm_compute. reflexivity.
  - reflexivity.
  - intros t g [<-|[]]. reflexivity.
  - intros g _. reflexivity.
Defined.

Lemma queue_stops_at_refusal_witness :
  runQueue [Some (PlainGuard 3); Some (PlainGuard 2); Some (PlainGuard 7)]
    (iterator demo_guards
       (this_push demo_guards demo_async 3) (this_replace demo_guards demo_async 3)
       (go_ctx (demo_route "/a") START 0) (StageA []))
    (fun w => Some (Settled w))
    (on_this (set_pending (Some (demo_route "/a"))) demo_fresh) =
  Some (Settled
    (abort None (VBool false)
       (ensureURL true
          (emits [EvHook 3 (demo_route "/a") START; EvHook 2 (demo_route "/a") START]
             (on_this (set_pending (Some (demo_route "/a"))) demo_fresh))))).
Proof.
  refine (proj1 (queue_stops_at_refusal demo_guards
                   (this_push demo_guards demo_async 3)
                   (this_replace demo_guards demo_async 3)
                   (fun _ => VUndefined) (go_ctx (demo_route "/a") START 0) (StageA [])
                   [Some (PlainGuard 3)] [Some (PlainGuard 7)] (PlainGuard 2)
                   (fun w => Some (Settled w))
                   (on_this (set_pending (Some (demo_route "/a"))) demo_fresh) _ _ _)
            (VBool false) _ _).
  - vm_compute. reflexivity.
  - intros t g [<-|[]]. reflexivity.
  - intros g _. reflexivity.
  - reflexivity.
  - reflexivity.
Defined.

Lemma redirect_loop_unbounded_witness :
  push loop_guards demo_async 4 (VString "/a") None None (World_new (demo_router [5]))
    = None /\
  replace loop_guards demo_async 4 (VString "/a") None None (World_new (demo_router [5]))
    = None.
Proof.
  refine (redirect_loop_unbounded loop_guards demo_async (demo_router [5]) START
            (VString "/y") 5 _ _ _ _ _ 4 (VString "/a") None None
            (World_new (demo_router [5])) _ _).
  - reflexivity.
  - left. reflexivity.
  - intros t route current_. reflexivity.
  - intros t g route current_.
    destruct (decide (g = 5)) as [->|Hg].
    + exists (VString "/y"). split; [reflexivity|]. left. reflexivity.
    + exists VUndefined. split; [|right; reflexivity].
      do 6 (destruct g as [|g]; [try reflexivity; by destruct Hg|]). reflexivity.
  - intros location. apply andb_false_r.
  - reflexivity.
  - reflexivity.
Defined.

Lemma enter_callbacks_queued_witness :
  exists w',
    transitionTo demo_guards demo_async
      (this_push demo_guards demo_async 3) (this_replace demo_guards demo_async 3)
      (VString "/e") (Some (push_onComplete None)) None demo_fresh = Some (Settled w') /\
    arrays w' = [[demo_task]] /\ ticks w' = [0].
Proof.
  destruct (enter_callbacks_queued demo_guards demo_async
              (this_push demo_guards demo_async 3) (this_replace demo_guards demo_async 3)
              demo_answers (VString "/e") (Some (push_onComplete None)) None demo_fresh
              (known_oc_push None) demo_lets_through_e)
    as (w' & Hrun & Harrays & Hticks & _).
  exists w'. split; [exact Hrun|]. split.
  - rewrite Harrays. reflexivity.
  - rewrite Hticks. reflexivity.
Defined.

Lemma run_array_effect_witness :
  run_array 0
    (set_instances {[ (6, "default"%string) := 77 ]}
       (set_arrays [[demo_task]] demo_fresh)) =
  set_timers []
    (emits [EvEnterCb 60 77]
       (set_instances {[ (6, "default"%string) := 77 ]}
          (set_arrays [[demo_task]] demo_fresh))).
Proof.
  refine (run_array_effect 0 [demo_task]
            (set_instances {[ (6, "default"%string) := 77 ]}
               (set_arrays [[demo_task]] demo_fresh)) _).
  reflexivity.
Defined.

Lemma stack_entries_committed_witness :
  In (EvUpdateRoute (demo_route "/a")) (trace (world demo_at_a)).
Proof.
  refine (stack_entries_committed demo_guards demo_async (demo_router []) demo_at_a
            (reachable_step _ _ _ 8 (OpPush (VString "/a") None None)
               (Sys_new (demo_router [])) demo_at_a (reachable_new _ _ _)
               step_to_demo_at_a)
            (demo_route "/a") _).
  vm_compute. left. reflexivity.
Defined.

Lemma cursor_on_current_witness :
  stack (this (world demo_at_a)) !! Z.to_nat (index (this (world demo_at_a))) =
  Some (current (this (world demo_at_a))).
Proof.
  refine (proj1 (cursor_on_current demo_guards demo_async (demo_router []) demo_at_a
                   (stack_driven_step _ _ _ 8 (OpPush (VString "/a") None None)
                      (Sys_new (demo_router [])) demo_at_a (stack_driven_new _ _ _)
                      _ eq_refl step_to_demo_at_a) _)).
  - intros _ i k. simpl. rewrite lookup_nil. discriminate.
  - vm_compute. discriminate.
Defined.

Lemma registrations_persist_witness :
  errorCbs (this (world demo_at_a)) =
    errorCbs (this (world (Sys_new (demo_router [])))) ++ [] /\
  cb (this (world demo_at_a)) = cb (this (world (Sys_new (demo_router [])))) /\
  router (world demo_at_a) = router (world (Sys_new (demo_router []))).
Proof.
  exact (registrations_persist demo_guards demo_async (demo_router []) 8
           (OpPush (VString "/a") None None) (Sys_new (demo_router [])) demo_at_a
           (reachable_new _ _ _) step_to_demo_at_a).
Defined.

Lemma commits_at_most_once_witness :
  exists evs,
    trace (world demo_at_a) = trace (world (Sys_new (demo_router []))) ++ evs /\
    commit_last evs /\
    (length (inflight demo_at_a) = S (length (inflight (Sys_new (demo_router [])))) ->
     quiet evs = true).
Proof.
  exact (commits_at_most_once demo_guards demo_async (demo_router []) 8
           (OpPush (VString "/a") None None) (Sys_new (demo_router [])) demo_at_a
           (reachable_new _ _ _) step_to_demo_at_a).
Defined.
